(** * TrTReal: the tree-text parser (src/parser.py, src/const.py)

    A shallow embedding of [TreeParser] and of the Python string
    primitives it relies on, followed by the properties of the parser.

    Conventions of the embedding:
    - a Python [str] is the list of its Unicode code points ([N]);
    - a [TreeNode] object is a record stored in an arena; a reference to
      a node is its index in the arena.  Every node the parser creates is
      appended to [self.all_nodes] right after its construction, so
      [all_nodes] itself is the arena and the references are positions
      in it;
    - partial Python operations (indexing, [pop]) and loops that need a
      bound live in the [result] monad: [Ok] for a normal return, [Raise]
      for a Python exception, and two outcomes that only the model has:
      [OutOfFuel] when the bound of a loop is exhausted, [Dangling] when
      a reference is not a position of the arena;
    - the loops of the parser ([while], [for]) use no interpreter frames,
      the recursion of [_collect_paths] uses one per level of the tree.
      Nothing in src/ raises the recursion limit, so the number of nested
      activations that the interpreter still allows when [get_all_paths]
      is called is an argument of the model, [frames], and running out of
      them is [Raise RecursionError]. *)

From Stdlib Require Import NArith Ascii String List Bool Lia Sorted.
From stdpp Require Import base option numbers list sets.

Local Open Scope N_scope.
Local Open Scope nat_scope.

(** ** Results of partial computations *)

Inductive exn := IndexError | RecursionError.

Inductive result (A : Type) : Type :=
| Ok (a : A)
| Raise (e : exn)
| OutOfFuel
| Dangling.

Arguments Ok {A} a.
Arguments Raise {A} e.
Arguments OutOfFuel {A}.
Arguments Dangling {A}.

Definition bind {A B : Type} (m : result A) (k : A -> result B) : result B :=
  match m with
  | Ok a => k a
  | Raise e => Raise e
  | OutOfFuel => OutOfFuel
  | Dangling => Dangling
  end.

Notation "'let*' x ':=' m 'in' k" := (bind m (fun x => k))
  (at level 10, x pattern, m at level 100, k at level 200).

(** ** Python strings *)

Abbreviation str := (list N).

(** Code points of an ASCII literal. *)
Definition py_str (s : string) : str := map N_of_ascii (list_ascii_of_string s).

Definition SPACE : N := 0x20%N.
Definition TAB : N := 0x09%N.
Definition NEWLINE : N := 0x0A%N.
Definition SLASH : N := 0x2F%N.

(** [str.isspace] on one code point, the set that [str.strip()] removes
    (CPython's [Py_UNICODE_ISSPACE]). *)
Definition isspace (c : N) : bool :=
  ((0x09 <=? c) && (c <=? 0x0D) || (0x1C <=? c) && (c <=? 0x20)
   || (c =? 0x85) || (c =? 0xA0) || (c =? 0x1680)
   || (0x2000 <=? c) && (c <=? 0x200A)
   || (c =? 0x2028) || (c =? 0x2029) || (c =? 0x202F) || (c =? 0x205F)
   || (c =? 0x3000))%N.

Fixpoint lstrip_with (p : N -> bool) (s : str) : str :=
  match s with
  | [] => []
  | c :: s' => if p c then lstrip_with p s' else s
  end.

Definition rstrip_with (p : N -> bool) (s : str) : str :=
  rev (lstrip_with p (rev s)).

(** [s.strip()] *)
Definition strip (s : str) : str := rstrip_with isspace (lstrip_with isspace s).

(** [s.rstrip('/')] *)
Definition rstrip_slash (s : str) : str := rstrip_with (N.eqb SLASH) s.

(** [s.startswith(prefix)] *)
Fixpoint startswith (s prefix : str) : bool :=
  match prefix, s with
  | [], _ => true
  | _ :: _, [] => false
  | p :: prefix', c :: s' => (c =? p)%N && startswith s' prefix'
  end.

(** [s.endswith(suffix)] *)
Definition endswith (s suffix : str) : bool := startswith (rev s) (rev suffix).

Definition cons_head (c : N) (parts : list str) : list str :=
  match parts with
  | [] => [[c]]
  | cur :: more => (c :: cur) :: more
  end.

(** [s.split('\n')]: one more piece than there are newlines. *)
Fixpoint split_nl (s : str) : list str :=
  match s with
  | [] => [[]]
  | c :: s' => if (c =? NEWLINE)%N then [] :: split_nl s' else cons_head c (split_nl s')
  end.

(** [sep.join(parts)] *)
Fixpoint join (sep : str) (parts : list str) : str :=
  match parts with
  | [] => []
  | [p] => p
  | p :: more => p ++ sep ++ join sep more
  end.

(** [s[i]] *)
Definition index (s : str) (i : nat) : result N :=
  match s !! i with
  | Some c => Ok c
  | None => Raise IndexError
  end.

(** Truth value of a string: [if s] holds for the non-empty ones. *)
Definition truthy {A : Type} (l : list A) : bool :=
  match l with [] => false | _ :: _ => true end.

(** ** src/const.py

    The token literals, code point by code point, as the file holds them.
    The three box-drawing tokens are stored mis-encoded: each box-drawing
    character appears as the three characters its UTF-8 bytes spell in Mac
    OS Roman (E2 94 9C reads U+201A U+00EE U+00FA, and so on). *)

Definition TREE_BRANCH : str :=
  [0x201A; 0xEE; 0xFA; 0x201A; 0xEE; 0xC4; 0x201A; 0xEE; 0xC4; 0x20]%N.
Definition TREE_LAST : str :=
  [0x201A; 0xEE; 0xEE; 0x201A; 0xEE; 0xC4; 0x201A; 0xEE; 0xC4; 0x20]%N.
Definition TREE_VERTICAL : str :=
  [0x201A; 0xEE; 0xC7; 0x20; 0x20; 0x20]%N.
Definition TREE_SPACE : str :=
  [0x20; 0x20; 0x20; 0x20]%N.

(** The connectors that tree listings are drawn with (and that
    src/utils.py and the editor template of src/ui.py write):
    U+251C U+2500 U+2500 SPACE, U+2514 U+2500 U+2500 SPACE and
    U+2502 followed by three spaces. *)
Definition BOX_BRANCH : str := [0x251C; 0x2500; 0x2500; 0x20]%N.
Definition BOX_LAST : str := [0x2514; 0x2500; 0x2500; 0x20]%N.
Definition BOX_VERTICAL : str := [0x2502; 0x20; 0x20; 0x20]%N.

(** ** src/parser.py: [TreeParser._parse_line] *)

(** The [while pos < len(line)] loop; [fuel] bounds its iterations. *)
Fixpoint _parse_line_loop (fuel : nat) (line : str) (depth pos : nat)
  : result (nat * str) :=
  if negb (pos <? length line) then Ok (0, [])
  else
    match fuel with
    | 0 => OutOfFuel
    | S fuel =>
      let remaining := drop pos line in
      if startswith remaining TREE_BRANCH then
        Ok (depth + 1, strip (drop (length TREE_BRANCH) remaining))
      else if startswith remaining TREE_LAST then
        Ok (depth + 1, strip (drop (length TREE_LAST) remaining))
      else if startswith remaining TREE_VERTICAL then
        _parse_line_loop fuel line (depth + 1) (pos + length TREE_VERTICAL)
      else if startswith remaining TREE_SPACE then
        _parse_line_loop fuel line (depth + 1) (pos + length TREE_SPACE)
      else
        let* c := index remaining 0 in
        if (c =? SPACE)%N then _parse_line_loop fuel line depth (pos + 1)
        else
          let* c := index remaining 0 in
          if (c =? TAB)%N then _parse_line_loop fuel line (depth + 1) (pos + 1)
          else
            let name := strip remaining in
            if truthy name then Ok (0, name) else Ok (0, [])
    end.

(** Every iteration that continues advances [pos], so [len(line)]
    iterations are enough. *)
Definition _parse_line (line : str) : result (nat * str) :=
  _parse_line_loop (length line) line 0 0.


(** ** src/parser.py: [TreeNode] *)

Record TreeNode := mkTreeNode {
  name : str;
  is_directory : bool;
  depth : nat;
  children : list nat;
  parent : option nat
}.

(** [node.parent = p] *)
Definition set_parent (p : nat) (n : TreeNode) : TreeNode :=
  mkTreeNode (name n) (is_directory n) (depth n) (children n) (Some p).

(** [node.children.append(c)] *)
Definition append_child (c : nat) (n : TreeNode) : TreeNode :=
  mkTreeNode (name n) (is_directory n) (depth n) (children n ++ [c]) (parent n).

(** Following a reference. *)
Definition deref (nodes : list TreeNode) (i : nat) : result TreeNode :=
  match nodes !! i with
  | Some n => Ok n
  | None => Dangling
  end.

(** The [while node is not None] loop of [get_full_path]. *)
Fixpoint get_full_path_loop (fuel : nat) (nodes : list TreeNode)
    (node : option nat) (parts : list str) : result (list str) :=
  match node with
  | None => Ok parts
  | Some i =>
    match fuel with
    | 0 => OutOfFuel
    | S fuel =>
      let* n := deref nodes i in
      get_full_path_loop fuel nodes (parent n) (parts ++ [name n])
    end
  end.

Definition get_full_path (nodes : list TreeNode) (node : nat) (base_path : str)
  : result str :=
  let* parts := get_full_path_loop (length nodes) nodes (Some node) [] in
  let parts := rev parts in
  if truthy base_path then
    Ok (rstrip_slash base_path ++ [SLASH] ++ join [SLASH] parts)
  else Ok (join [SLASH] parts).

(** ** src/parser.py: [TreeParser] *)

Record TreeParser := mkTreeParser {
  root : option nat;
  all_nodes : list TreeNode
}.

Definition __init__ : TreeParser := {| root := None; all_nodes := [] |}.

(** [x is None] *)
Definition is_none {A : Type} (o : option A) : bool :=
  match o with None => true | Some _ => false end.

(** [list.pop()] *)
Definition pop {A : Type} (l : list A) : result (list A) :=
  match l with
  | [] => Raise IndexError
  | _ :: _ => Ok (take (length l - 1) l)
  end.

(** [while len(parent_stack) > depth: parent_stack.pop()] *)
Fixpoint pop_while (fuel : nat) (parent_stack : list nat) (depth : nat)
  : result (list nat) :=
  if negb (depth <? length parent_stack) then Ok parent_stack
  else
    match fuel with
    | 0 => OutOfFuel
    | S fuel =>
      let* parent_stack := pop parent_stack in
      pop_while fuel parent_stack depth
    end.

(** The look-ahead loop over [lines[line_num + 1:]]: the depth of the
    first line that is not blank, [None] when there is none. *)
Fixpoint look_ahead (rest : list str) : result (option nat) :=
  match rest with
  | [] => Ok None
  | look :: rest' =>
    if negb (truthy (strip look)) then look_ahead rest'
    else
      let* (next_depth, _) := _parse_line look in
      Ok (Some next_depth)
  end.

(** One iteration of the [for line_num, line in enumerate(lines)] loop;
    [rest] is [lines[line_num + 1:]].  The state is the parser object and
    the local [parent_stack]. *)
Definition parse_step (line_num : nat) (line : str) (rest : list str)
    (self : TreeParser) (parent_stack : list nat)
  : result (TreeParser * list nat) :=
  if negb (truthy (strip line)) then Ok (self, parent_stack)
  else
    let* (depth, name) := _parse_line line in
    if negb (truthy name) then Ok (self, parent_stack)
    else
      let* (name, is_directory) :=
        if endswith name [SLASH] then Ok (rstrip_slash name, true)
        else
          let* next_depth := look_ahead rest in
          Ok (name,
              match next_depth with
              | Some next_depth => depth <? next_depth
              | None => false
              end) in
      let node := length (all_nodes self) in
      let nodes := all_nodes self ++ [mkTreeNode name is_directory depth [] None] in
      if (line_num =? 0) || is_none (root self) then
        Ok ({| root := Some node; all_nodes := nodes |}, [node])
      else
        let* parent_stack := pop_while (length parent_stack) parent_stack depth in
        let nodes :=
          match last parent_stack with
          | Some parent =>
            alter (append_child node) parent (alter (set_parent parent) node nodes)
          | None => nodes
          end in
        let parent_stack :=
          if length parent_stack <=? depth then parent_stack ++ [node]
          else <[depth := node]> parent_stack in
        Ok ({| root := root self; all_nodes := nodes |}, parent_stack).

Fixpoint parse_loop (line_num : nat) (lines : list str)
    (self : TreeParser) (parent_stack : list nat) : result TreeParser :=
  match lines with
  | [] => Ok self
  | line :: rest =>
    let* (self, parent_stack) := parse_step line_num line rest self parent_stack in
    parse_loop (S line_num) rest self parent_stack
  end.

(** [parse] returns the root and leaves the parser object updated. *)
Definition parse (self : TreeParser) (tree_text : str)
  : result (option nat * TreeParser) :=
  let lines := split_nl (strip tree_text) in
  if negb (truthy lines) then Ok (None, self)
  else
    let* self := parse_loop 0 lines {| root := None; all_nodes := [] |} [] in
    Ok (root self, self).

(** [for x in l: s = body(s, x)] *)
Fixpoint for_each {A S : Type} (body : S -> A -> result S) (l : list A) (s : S)
  : result S :=
  match l with
  | [] => Ok s
  | a :: l' => let* s' := body s a in for_each body l' s'
  end.

(** [_collect_paths] calls itself for every child, one activation inside
    the other along a branch of the tree.  [frames] is the number of
    nested activations of [_collect_paths] that the interpreter allows at
    this call: the recursion limit less the frames in use, less the frame
    that the call of [get_full_path] inside an activation takes.  A call
    that finds none left raises [RecursionError]; the pairs appended so far
    are lost with the local list of [get_all_paths]. *)
Fixpoint _collect_paths (frames : nat) (nodes : list TreeNode) (node : nat)
    (base_path : str) (paths : list (str * bool)) : result (list (str * bool)) :=
  match frames with
  | 0 => Raise RecursionError
  | S frames =>
    let* n := deref nodes node in
    let* full_path := get_full_path nodes node base_path in
    let paths := paths ++ [(full_path, is_directory n)] in
    for_each (fun paths child => _collect_paths frames nodes child base_path paths)
             (children n) paths
  end.

(** [get_all_paths], called where the interpreter allows [frames] nested
    activations of [_collect_paths]. *)
Definition get_all_paths (frames : nat) (self : TreeParser) (base_path : str)
  : result (list (str * bool)) :=
  match root self with
  | None => Ok []
  | Some r => _collect_paths frames (all_nodes self) r base_path []
  end.

Record summary := mkSummary { total : nat; directories : nat; files : nat }.

(** [sum(1 for x in l if p(x))] *)
Fixpoint sum_ones {A : Type} (p : A -> bool) (l : list A) : nat :=
  match l with
  | [] => 0
  | x :: l' => if p x then 1 + sum_ones p l' else sum_ones p l'
  end.

Definition get_summary (self : TreeParser) : summary :=
  if negb (truthy (all_nodes self)) then mkSummary 0 0 0
  else
    mkSummary (length (all_nodes self))
              (sum_ones is_directory (all_nodes self))
              (sum_ones (fun node => negb (is_directory node)) (all_nodes self)).

(** ** Views of the embedding used in the statements *)

(** The two components [_parse_line] returns. *)
Definition line_depth (line : str) : nat :=
  match _parse_line line with Ok (d, _) => d | _ => 0 end.

Definition line_name (line : str) : str :=
  match _parse_line line with Ok (_, n) => n | _ => [] end.

(** [not line.strip()] *)
Definition blank (line : str) : bool := negb (truthy (strip line)).

(** A line that passes both [continue] tests of the loop of [parse], and
    so gives a node. *)
Definition named (line : str) : bool :=
  negb (blank line) && truthy (line_name line).

(** The first line that is not blank. *)
Fixpoint next_nonblank (rest : list str) : option str :=
  match rest with
  | [] => None
  | look :: rest' => if blank look then next_nonblank rest' else Some look
  end.

(** The node that the loop of [parse] constructs for a named line that
    is followed by the lines [rest]. *)
Definition node_name (line : str) : str :=
  if endswith (line_name line) [SLASH] then rstrip_slash (line_name line)
  else line_name line.

Definition node_is_directory (line : str) (rest : list str) : bool :=
  if endswith (line_name line) [SLASH] then true
  else
    match next_nonblank rest with
    | Some look => line_depth line <? line_depth look
    | None => false
    end.

Definition new_node (line : str) (rest : list str) : TreeNode :=
  mkTreeNode (node_name line) (node_is_directory line rest) (line_depth line) [] None.

(** The nodes of the named lines, in the order of the lines. *)
Fixpoint entries (lines : list str) : list TreeNode :=
  match lines with
  | [] => []
  | line :: rest =>
    if named line then new_node line rest :: entries rest else entries rest
  end.

(** The fields of a node that are fixed at its construction. *)
Definition info (n : TreeNode) : str * bool * nat :=
  (name n, is_directory n, depth n).

(** [node.parent = parent; parent.children.append(node)] under
    [if parent_stack]. *)
Definition link (node : nat) (parent : option nat) (nodes : list TreeNode)
  : list TreeNode :=
  match parent with
  | Some p => alter (append_child node) p (alter (set_parent p) node nodes)
  | None => nodes
  end.

(** What an iteration does with the node [n] it has constructed. *)
Definition place (line_num : nat) (n : TreeNode) (st : TreeParser * list nat)
  : TreeParser * list nat :=
  let node := length (all_nodes st.1) in
  let nodes := all_nodes st.1 ++ [n] in
  if (line_num =? 0) || is_none (root st.1) then
    ({| root := Some node; all_nodes := nodes |}, [node])
  else
    let stack := take (depth n) st.2 in
    ({| root := root st.1; all_nodes := link node (last stack) nodes |},
     stack ++ [node]).

(** The state after the iterations over [lines]. *)
Fixpoint run (line_num : nat) (lines : list str) (st : TreeParser * list nat)
  : TreeParser * list nat :=
  match lines with
  | [] => st
  | line :: rest =>
    run (S line_num) rest
        (if named line then place line_num (new_node line rest) st else st)
  end.

(** The parser object that [parse] leaves behind. *)
Definition parsed (tree_text : str) : TreeParser :=
  (run 0 (split_nl (strip tree_text)) (__init__, [])).1.

Definition NL : str := [NEWLINE].

(** ** Shape of the arena

    What holds of the nodes and of [parent_stack] between two iterations
    of the loop of [parse]. *)
Record wf (nodes : list TreeNode) (stack : list nat) : Prop := {
  wf_stack_bound : forall s, s ∈ stack -> s < length nodes;
  wf_stack_nonempty : nodes <> [] -> stack <> [];
  wf_parent : forall i n p,
      nodes !! i = Some n -> parent n = Some p ->
      p < i /\ exists pn, nodes !! p = Some pn /\ i ∈ children pn;
  wf_children : forall p pn c,
      nodes !! p = Some pn -> c ∈ children pn ->
      p < c /\ exists cn, nodes !! c = Some cn /\ parent cn = Some p;
  wf_orphan : forall i n,
      nodes !! i = Some n -> (parent n = None <-> i = 0 \/ depth n = 0)
}.

Definition inv (line_num : nat) (st : TreeParser * list nat) : Prop :=
  (line_num = 0 -> all_nodes st.1 = []) /\
  root st.1 = (if truthy (all_nodes st.1) then Some 0 else None) /\
  wf (all_nodes st.1) st.2.

(** ** The claims, as predicates on an input *)

(** [parse] has not succeeded on the parser object: it is as [__init__]
    left it, or the last call of [parse] on it returned [None]. *)
Definition not_succeeded (self : TreeParser) : Prop :=
  self = __init__ \/
  exists self0 tree_text, parse self0 tree_text = Ok (None, self).

(** "[parse] returns null exactly when every non-blank line of the
    input extracts to an empty name", on one input. *)
Definition null_iff_no_named_line (tree_text : str) : Prop :=
  forall r self',
    parse __init__ tree_text = Ok (r, self') ->
    (r = None <-> Forall (fun line => named line = false) (split_nl tree_text)).


(** The first line that is named: what a look-ahead that also skipped
    the lines with an empty name would stop at. *)
Fixpoint next_named (rest : list str) : option str :=
  match rest with
  | [] => None
  | look :: rest' => if named look then Some look else next_named rest'
  end.

(** "The root is built from the first non-blank line and has depth 0",
    on one input. *)
Definition root_at_depth_0 (tree_text : str) : Prop :=
  forall r self' node,
    parse __init__ tree_text = Ok (Some r, self') ->
    all_nodes self' !! r = Some node ->
    depth node = 0 /\
    exists line, next_nonblank (split_nl tree_text) = Some line /\
                 name node = node_name line.

(** "The look-ahead uses the depth of the next line that yields a
    non-empty name", on one input. *)
Definition look_ahead_skips_unnamed (tree_text : str) : Prop :=
  forall pre line rest r self' node,
    split_nl (strip tree_text) = pre ++ line :: rest ->
    named line = true -> endswith (line_name line) [SLASH] = false ->
    parse __init__ tree_text = Ok (r, self') ->
    all_nodes self' !! sum_ones named pre = Some node ->
    is_directory node =
      match next_named rest with
      | Some look => line_depth line <? line_depth look
      | None => false
      end.

(** "Every stored name is a bare entry name: not empty and without any
    '/'", on one input. *)
Definition names_are_bare (tree_text : str) : Prop :=
  forall r self' node,
    parse __init__ tree_text = Ok (r, self') ->
    node ∈ all_nodes self' ->
    name node <> [] /\ SLASH ∉ name node.


(** ** Inputs of the examples *)

(** Scenario 1 of the specification, drawn with the connectors. *)
Definition scenario1_box : str :=
  py_str "project/" ++ NL ++
  BOX_BRANCH ++ py_str "src/" ++ NL ++
  BOX_VERTICAL ++ BOX_LAST ++ py_str "main.py" ++ NL ++
  BOX_LAST ++ py_str "README.md".

(** The same tree, drawn with the strings that src/const.py holds. *)
Definition scenario1_const : str :=
  py_str "project/" ++ NL ++
  TREE_BRANCH ++ py_str "src/" ++ NL ++
  TREE_VERTICAL ++ TREE_LAST ++ py_str "main.py" ++ NL ++
  TREE_LAST ++ py_str "README.md".

Definition src_then_box_child : str :=
  py_str "src" ++ NL ++ BOX_BRANCH ++ py_str "main.ext".

Definition marked_first_line : str := TREE_BRANCH ++ py_str "a".

Definition unnamed_line_between : str :=
  py_str "a" ++ NL ++ TREE_VERTICAL ++ NL ++ TREE_BRANCH ++ py_str "b".


(** A root, then a line at depth 3. *)
Definition depth_jump : str :=
  py_str "a" ++ NL ++ TREE_VERTICAL ++ TREE_VERTICAL ++ TREE_BRANCH ++ py_str "b".

(** "Every node with a parent has the depth of its parent plus 1, and the
    root has no parent", on one input. *)
Definition child_one_below_parent (tree_text : str) : Prop :=
  forall r self',
    parse __init__ tree_text = Ok (r, self') ->
    (forall i node p pnode,
        all_nodes self' !! i = Some node -> parent node = Some p ->
        all_nodes self' !! p = Some pnode ->
        depth node = S (depth pnode)) /\
    (forall r0 rnode,
        r = Some r0 -> all_nodes self' !! r0 = Some rnode -> parent rnode = None).

(** The depths go down freely and up by one level at most. *)
Fixpoint no_jump (prev : nat) (depths : list nat) : bool :=
  match depths with
  | [] => true
  | d :: depths' => (d <=? S prev) && no_jump d depths'
  end.

(** The first named line is at depth 0 and no named line is more than one
    level below the named line before it. *)
Definition well_nested (lines : list str) : bool :=
  match depth <$> entries lines with
  | [] => true
  | d :: depths => (d =? 0) && no_jump 0 depths
  end.

(** Between two iterations, on a well nested input: the stack holds at
    index [k] a node of depth [k], and a child is one level below its
    parent. *)
Definition depths_ok (nodes : list TreeNode) (stack : list nat) : Prop :=
  (forall k s, stack !! k = Some s -> exists n, nodes !! s = Some n /\ depth n = k) /\
  (forall i n p pn,
      nodes !! i = Some n -> parent n = Some p -> nodes !! p = Some pn ->
      depth n = S (depth pn)).


(** ** The traversal of [get_all_paths] *)

(** The nodes in the order in which [_collect_paths] visits them when
    the recursion is not cut short; [fuel] bounds the depth of the
    traversal, and the number of nodes is enough of it after [parse]. *)
Fixpoint preorder (fuel : nat) (nodes : list TreeNode) (node : nat) : list nat :=
  match fuel with
  | 0 => []
  | S fuel =>
    node :: flat_map (preorder fuel nodes)
                     (match nodes !! node with Some n => children n | None => [] end)
  end.

Definition visited (self : TreeParser) : list nat :=
  match root self with
  | None => []
  | Some r => preorder (length (all_nodes self)) (all_nodes self) r
  end.

(** The nodes that the [children] lists lead to from [r]. *)
Inductive reachable (nodes : list TreeNode) (r : nat) : nat -> Prop :=
| reachable_root : reachable nodes r r
| reachable_child (j c : nat) (nj : TreeNode) :
    reachable nodes r j -> nodes !! j = Some nj -> c ∈ children nj ->
    reachable nodes r c.

(** The pair that [_collect_paths] appends for the node [j]. *)
Definition entry_of (nodes : list TreeNode) (base_path : str)
    (j : nat) (e : str * bool) : Prop :=
  exists nj, nodes !! j = Some nj /\
             get_full_path nodes j base_path = Ok e.1 /\ e.2 = is_directory nj.

(** "A line at a depth that jumps over the depth of the line before it
    gives an orphan", on one input. *)
Definition jump_gives_orphan (tree_text : str) : Prop :=
  forall r self' i prev node,
    parse __init__ tree_text = Ok (r, self') ->
    all_nodes self' !! i = Some prev -> all_nodes self' !! S i = Some node ->
    S (depth prev) < depth node ->
    parent node = None /\
    (forall q qn, all_nodes self' !! q = Some qn -> S i ∉ children qn) /\
    S i ∉ visited self'.

(** A root and a second line without marker. *)
Definition two_roots : str := py_str "a" ++ NL ++ py_str "b".


(** ** The scan of a line, as the specification words it

    The tokens are parameters: [scan] is the left-to-right scan over the
    rest of the line, with the count of the indentation tokens consumed
    so far.  Markers are looked for before continuation tokens, these
    before a single space or a tab. *)
Section Scan.
Variables BRANCH LAST VERTICAL INDENT : str.

Definition marker_at (rest : str) : option str :=
  if startswith rest BRANCH then Some BRANCH
  else if startswith rest LAST then Some LAST
  else None.

Definition continuation_at (rest : str) : option str :=
  if startswith rest VERTICAL then Some VERTICAL
  else if startswith rest INDENT then Some INDENT
  else None.

Inductive scan : str -> nat -> nat * str -> Prop :=
| scan_end (consumed : nat) :
    scan [] consumed (0, [])
| scan_marker (rest : str) (consumed : nat) (marker : str) :
    rest <> [] -> marker_at rest = Some marker ->
    scan rest consumed (consumed + 1, strip (drop (length marker) rest))
| scan_continuation (rest : str) (consumed : nat) (token : str) (res : nat * str) :
    rest <> [] -> marker_at rest = None -> continuation_at rest = Some token ->
    scan (drop (length token) rest) (consumed + 1) res ->
    scan rest consumed res
| scan_space (rest : str) (consumed : nat) (res : nat * str) :
    marker_at (SPACE :: rest) = None -> continuation_at (SPACE :: rest) = None ->
    scan rest consumed res ->
    scan (SPACE :: rest) consumed res
| scan_tab (rest : str) (consumed : nat) (res : nat * str) :
    marker_at (TAB :: rest) = None -> continuation_at (TAB :: rest) = None ->
    scan rest (consumed + 1) res ->
    scan (TAB :: rest) consumed res
| scan_name (c : N) (rest : str) (consumed : nat) :
    marker_at (c :: rest) = None -> continuation_at (c :: rest) = None ->
    c <> SPACE -> c <> TAB ->
    scan (c :: rest) consumed (0, strip (c :: rest)).
End Scan.


(** ** Further shape of the arena *)

(** [not blank], for [List.filter]. *)
Definition nonblank (line : str) : bool := negb (blank line).

(** The children of every node are listed by increasing position in the
    arena. *)
Definition children_increasing (nodes : list TreeNode) : Prop :=
  forall p pn i j a b,
    nodes !! p = Some pn ->
    children pn !! i = Some a -> children pn !! j = Some b -> i < j -> a < b.


(** ** The order of the visit

    What the loop of [parse] keeps, beside [wf], so that the visit of
    [get_all_paths] goes through the arena from left to right. *)

(** A list of positions that grows from left to right. *)
Definition increasing (l : list nat) : Prop :=
  forall i j a b, l !! i = Some a -> l !! j = Some b -> i < j -> a < b.

(** All that is below a child comes before the next children of the
    same node. *)
Definition siblings_apart (nodes : list TreeNode) : Prop :=
  forall p pn i j a b m,
    nodes !! p = Some pn ->
    children pn !! i = Some a -> children pn !! j = Some b -> i < j ->
    reachable nodes a m -> m < b.

(** No node of the stack is below a child that has a later sibling: new
    nodes are attached under the last child only. *)
Definition stack_on_last_branch (nodes : list TreeNode) (stack : list nat) : Prop :=
  forall s p pn i j a b,
    s ∈ stack -> nodes !! p = Some pn ->
    children pn !! i = Some a -> children pn !! j = Some b -> i < j ->
    ~ reachable nodes a s.

Definition order_ok (nodes : list TreeNode) (stack : list nat) : Prop :=
  increasing stack /\ siblings_apart nodes /\ stack_on_last_branch nodes stack.


(** ** Nesting on a well nested input

    What the loop of [parse] keeps on a well nested input, beside [wf]
    and [depths_ok]. *)
Record nesting (nodes : list TreeNode) (stack : list nat) : Prop := {
  (* the top of the stack is the node created last *)
  nest_top : nodes <> [] -> last stack = Some (length nodes - 1);
  (* each node of the stack is a child of the node below it *)
  nest_chain : forall k a b,
      stack !! k = Some a -> stack !! S k = Some b ->
      exists an, nodes !! a = Some an /\ b ∈ children an;
  (* a node with children is followed at once by a deeper node *)
  nest_first_child : forall p pn,
      nodes !! p = Some pn -> children pn <> [] ->
      exists n1, nodes !! S p = Some n1 /\ depth pn < depth n1;
  (* the nodes after the node at index [k] of the stack are deeper than [k] *)
  nest_later : forall k s m mn,
      stack !! k = Some s -> s < m -> nodes !! m = Some mn -> k < depth mn;
  (* no node between a parent and its child is less deep than the child *)
  nest_between : forall i node p m mn,
      nodes !! i = Some node -> parent node = Some p ->
      p < m -> m < i -> nodes !! m = Some mn -> depth node <= depth mn
}.

(** Every line that is not blank yields a name. *)
Definition all_named (lines : list str) : Prop :=
  forall line, line ∈ lines -> blank line = false -> named line = true.


(** Every stack entry, and the parent of every node, is at or after
    each node without parent that precedes it: once a line at depth 0
    has emptied the stack, nothing is attached to what came before. *)
Definition after_orphans (nodes : list TreeNode) (stack : list nat) : Prop :=
  (forall s o on, s ∈ stack -> nodes !! o = Some on -> parent on = None -> o <= s) /\
  (forall i node p o on,
      nodes !! i = Some node -> parent node = Some p ->
      nodes !! o = Some on -> parent on = None -> o <= i -> o <= p).

(** ** The levels of the tree and the recursion of [_collect_paths] *)

(** [reachable_at nodes r k j]: the [children] lists lead from [r] to [j]
    along a branch of [k] nodes, [r] and [j] included.  The activation of
    [_collect_paths] for [j] is then the [k]-th of the nested ones. *)
Inductive reachable_at (nodes : list TreeNode) (r : nat) : nat -> nat -> Prop :=
| at_root : reachable_at nodes r 1 r
| at_child (k j c : nat) (nj : TreeNode) :
    reachable_at nodes r k j -> nodes !! j = Some nj -> c ∈ children nj ->
    reachable_at nodes r (S k) c.

(** Some branch under [node] has more than [frames] nodes. *)
Fixpoint too_deep (frames : nat) (nodes : list TreeNode) (node : nat) : bool :=
  match frames with
  | 0 => true
  | S frames =>
    existsb (too_deep frames nodes)
            (match nodes !! node with Some n => children n | None => [] end)
  end.

(** ** The parent stack, replayed

    [parent_stack] as lines 104 and 108-120 of [parse] leave it once the
    node at position [i], of depth [d], is placed: the first node makes
    it the stack of that node alone; a later node first cuts it down to
    [d] entries (the pops) and is then appended. *)
Definition push (stack : list nat) (i d : nat) : list nat :=
  if i =? 0 then [i] else take d stack ++ [i].

(** [parent_stack] when the loop is about to place the node at position
    [i]: the pushes of the nodes before it. *)
Fixpoint stack_before (nodes : list TreeNode) (i : nat) : list nat :=
  match i with
  | 0 => []
  | S j =>
    match nodes !! j with
    | Some n => push (stack_before nodes j) j (depth n)
    | None => stack_before nodes j
    end
  end.

(** Between two iterations: the stack of the loop is the replayed one,
    and the parent of every node is the top of the stack that was left
    after the pops for that node. *)
Definition replayed (nodes : list TreeNode) (stack : list nat) : Prop :=
  stack = stack_before nodes (length nodes) /\
  forall i n, nodes !! i = Some n ->
              parent n = last (take (depth n) (stack_before nodes i)).

(** ** Names made of slashes *)

(** No named line has an extracted name that is made of slashes only. *)
Definition no_slash_only (lines : list str) : Prop :=
  forall line, line ∈ lines -> named line = true ->
               exists c, c ∈ line_name line /\ c <> SLASH.

(** * Properties *)

(** ** Strings *)

Lemma startswith_app (s prefix : str) :
  startswith s prefix = true -> s = prefix ++ drop (length prefix) s.
Proof.
  revert s. induction prefix as [|p prefix IH]; intros [|c s]; simpl; try done.
  intros [Hc Hs]%andb_prop. apply N.eqb_eq in Hc. subst c.
  f_equal. by apply IH.
Qed.

Lemma last_drop_lt {A : Type} (l : list A) (k : nat) :
  k < length l -> last (drop k l) = last l.
Proof.
  intros Hk. rewrite <- (take_drop k l) at 2. rewrite last_app.
  destruct (last (drop k l)) eqn:E; [done|].
  apply last_None in E. apply (f_equal length) in E.
  rewrite length_drop in E. simpl in E. lia.
Qed.

Lemma lstrip_with_last (p : N -> bool) (s : str) (c : N) :
  last s = Some c -> p c = false -> last (lstrip_with p s) = Some c.
Proof.
  induction s as [|a s IH]; simpl; [done|].
  intros Hl Hc. destruct (p a) eqn:Ha; [|done].
  destruct s as [|b s]; [simpl in Hl; congruence|].
  rewrite last_cons_cons in Hl. by apply IH.
Qed.

Lemma rstrip_with_last (p : N -> bool) (s : str) (c : N) :
  last s = Some c -> p c = false -> rstrip_with p s = s.
Proof.
  intros [s' ->]%last_Some Hc. unfold rstrip_with.
  rewrite rev_app_distr. simpl. rewrite Hc. simpl.
  by rewrite rev_involutive.
Qed.

(** A string whose last character is not white space keeps it under
    [strip], so what is left is not empty. *)
Lemma strip_last (s : str) (c : N) :
  last s = Some c -> isspace c = false -> last (strip s) = Some c.
Proof.
  intros Hl Hc. unfold strip.
  pose proof (lstrip_with_last isspace s c Hl Hc) as H.
  by rewrite (rstrip_with_last _ _ c H Hc).
Qed.

Lemma strip_truthy (s : str) (c : N) :
  last s = Some c -> isspace c = false -> truthy (strip s) = true.
Proof.
  intros Hl Hc. pose proof (strip_last s c Hl Hc) as H.
  by destruct (strip s).
Qed.

Lemma lstrip_with_all (p : N -> bool) (s : str) :
  lstrip_with p s = [] <-> forallb p s = true.
Proof.
  induction s as [|a s IH]; simpl; [done|].
  destruct (p a); simpl; [done|]. split; done.
Qed.

Lemma rstrip_with_nil (p : N -> bool) (s : str) :
  rstrip_with p s = [] <-> forallb p s = true.
Proof.
  unfold rstrip_with. split.
  - intros H. apply (f_equal (@rev N)) in H. rewrite rev_involutive in H.
    simpl in H. apply lstrip_with_all in H.
    rewrite forallb_forall in *. intros x Hx. apply H. by apply in_rev in Hx.
  - intros H. assert (forallb p (rev s) = true) as H'.
    { rewrite forallb_forall in *. intros x Hx. apply H. by apply in_rev. }
    apply lstrip_with_all in H'. by rewrite H'.
Qed.

(** [strip] leaves nothing exactly of the strings made of white space. *)
Lemma strip_nil (s : str) : strip s = [] <-> forallb isspace s = true.
Proof.
  unfold strip. rewrite rstrip_with_nil. split.
  - intros H. induction s as [|a s IH]; simpl in *; [done|].
    destruct (isspace a) eqn:Ha; simpl; [by apply IH|].
    simpl in H. by rewrite Ha in H.
  - intros H. induction s as [|a s IH]; simpl in *; [done|].
    apply andb_prop in H as [Ha Hs]. rewrite Ha. by apply IH.
Qed.

(** ** [_parse_line] *)

(** A token that ends in white space and is found inside a string whose
    last character is not white space cannot reach the end of it. *)
Lemma token_inside (r token : str) (c w : N) :
  startswith r token = true ->
  last token = Some w -> isspace w = true ->
  last r = Some c -> isspace c = false ->
  length token < length r.
Proof.
  intros Hs Hw Hws Hc Hcs. pose proof (startswith_app _ _ Hs) as Hr.
  destruct (drop (length token) r) as [|x xs] eqn:E.
  - rewrite app_nil_r in Hr. rewrite Hr in Hc. congruence.
  - rewrite Hr, length_app. simpl. lia.
Qed.

Lemma drop_lookup_0 (line : str) (pos : nat) :
  pos < length line -> exists c, drop pos line !! 0 = Some c /\ line !! pos = Some c.
Proof.
  intros Hp. rewrite lookup_drop, Nat.add_0_r.
  destruct (lookup_lt_is_Some_2 line pos Hp) as [c Hc]. eauto.
Qed.

Lemma last_at_end (line : str) (pos : nat) (c : N) :
  line !! pos = Some c -> ~ (pos + 1 < length line) -> last line = Some c.
Proof.
  intros Hc Hn. pose proof (lookup_lt_Some _ _ _ Hc).
  rewrite last_lookup. replace (Init.Nat.pred (length line)) with pos by lia. done.
Qed.

(** The loop returns within [len(line)] iterations, without an exception;
    when the line ends in a character that is not white space and the
    scan is still inside it, the name it returns is not empty. *)
Lemma _parse_line_loop_spec (fuel : nat) :
  forall (line : str) (depth pos : nat),
    length line - pos <= fuel ->
    exists d n,
      _parse_line_loop fuel line depth pos = Ok (d, n) /\
      (forall c, pos < length line -> last line = Some c -> isspace c = false ->
                 n <> []).
Proof.
  induction fuel as [|fuel IH]; intros line depth pos Hf.
  - cbn [_parse_line_loop]. destruct (pos <? length line) eqn:E.
    + apply Nat.ltb_lt in E. lia.
    + simpl. exists 0, []. split; [done|]. apply Nat.ltb_ge in E. intros; lia.
  - cbn [_parse_line_loop]. destruct (pos <? length line) eqn:E; simpl negb; cbv iota.
    2:{ exists 0, []. split; [done|]. apply Nat.ltb_ge in E. intros; lia. }
    apply Nat.ltb_lt in E.
    assert (Hlast : forall c, last line = Some c -> last (drop pos line) = Some c).
    { intros c Hc. by rewrite last_drop_lt. }
    assert (Hlen : length (drop pos line) = length line - pos) by apply length_drop.
    destruct (startswith (drop pos line) TREE_BRANCH) eqn:Hb.
    { eexists _, _. split; [done|]. intros c _ Hc Hs.
      pose proof (token_inside _ _ c SPACE Hb eq_refl eq_refl (Hlast c Hc) Hs) as Hin.
      assert (truthy (strip (drop (length TREE_BRANCH) (drop pos line))) = true) as Ht.
      { apply (strip_truthy _ c); [|done]. rewrite last_drop_lt; auto. }
      by destruct (strip _). }
    destruct (startswith (drop pos line) TREE_LAST) eqn:Hl.
    { eexists _, _. split; [done|]. intros c _ Hc Hs.
      pose proof (token_inside _ _ c SPACE Hl eq_refl eq_refl (Hlast c Hc) Hs) as Hin.
      assert (truthy (strip (drop (length TREE_LAST) (drop pos line))) = true) as Ht.
      { apply (strip_truthy _ c); [|done]. rewrite last_drop_lt; auto. }
      by destruct (strip _). }
    destruct (startswith (drop pos line) TREE_VERTICAL) eqn:Hv.
    { destruct (IH line (depth + 1) (pos + length TREE_VERTICAL)) as (d & n & Hr & Hn).
      { change (length TREE_VERTICAL) with 6. lia. }
      exists d, n. split; [done|]. intros c _ Hc Hs. apply (Hn c); [|done..].
      pose proof (token_inside _ _ c SPACE Hv eq_refl eq_refl (Hlast c Hc) Hs). lia. }
    destruct (startswith (drop pos line) TREE_SPACE) eqn:Hsp.
    { destruct (IH line (depth + 1) (pos + length TREE_SPACE)) as (d & n & Hr & Hn).
      { change (length TREE_SPACE) with 4. lia. }
      exists d, n. split; [done|]. intros c _ Hc Hs. apply (Hn c); [|done..].
      pose proof (token_inside _ _ c SPACE Hsp eq_refl eq_refl (Hlast c Hc) Hs). lia. }
    destruct (drop_lookup_0 line pos E) as (c0 & Hc0 & Hpos).
    unfold index. rewrite Hc0. cbn [bind].
    destruct (c0 =? SPACE)%N eqn:Hc0s.
    { destruct (IH line depth (pos + 1)) as (d & n & Hr & Hn); [lia|].
      exists d, n. split; [done|]. intros c _ Hc Hs. apply (Hn c); [|done..].
      apply N.eqb_eq in Hc0s. subst c0.
      destruct (decide (pos + 1 < length line)) as [|Hend]; [done|].
      rewrite (last_at_end _ _ _ Hpos Hend) in Hc. by inversion Hc; subst. }
    destruct (c0 =? TAB)%N eqn:Hc0t.
    { destruct (IH line (depth + 1) (pos + 1)) as (d & n & Hr & Hn); [lia|].
      exists d, n. split; [done|]. intros c _ Hc Hs. apply (Hn c); [|done..].
      apply N.eqb_eq in Hc0t. subst c0.
      destruct (decide (pos + 1 < length line)) as [|Hend]; [done|].
      rewrite (last_at_end _ _ _ Hpos Hend) in Hc. by inversion Hc; subst. }
    destruct (truthy (strip (drop pos line))) eqn:Ht.
    + eexists _, _. split; [done|]. intros. by destruct (strip _).
    + eexists _, _. split; [done|]. intros c _ Hc Hs.
      rewrite (strip_truthy _ c (Hlast c Hc) Hs) in Ht. done.
Qed.

(** [_parse_line] returns a pair for every line. *)
Lemma _parse_line_ok (line : str) :
  _parse_line line = Ok (line_depth line, line_name line).
Proof.
  unfold line_depth, line_name.
  destruct (_parse_line_loop_spec (length line) line 0 0) as (d & n & Hr & _); [lia|].
  unfold _parse_line. by rewrite Hr.
Qed.

(** A line that ends in a character that is not white space yields a
    name. *)
Lemma line_name_nonempty (line : str) (c : N) :
  last line = Some c -> isspace c = false -> line_name line <> [].
Proof.
  intros Hc Hs.
  destruct (_parse_line_loop_spec (length line) line 0 0) as (d & n & Hr & Hn); [lia|].
  unfold line_name, _parse_line. rewrite Hr. apply (Hn c); [|done..].
  destruct line; [done|simpl; lia].
Qed.

(** ** [_parse_line] is the scan over the tokens of src/const.py *)

(** The scan gives a line one result. *)
Lemma scan_functional (BRANCH LAST VERTICAL INDENT : str)
    (rest : str) (consumed : nat) (res1 res2 : nat * str) :
  scan BRANCH LAST VERTICAL INDENT rest consumed res1 ->
  scan BRANCH LAST VERTICAL INDENT rest consumed res2 ->
  res1 = res2.
Proof.
  intros H1. revert res2.
  induction H1 as [c|r c m Hne Hm|r c t res Hne Hm Ht H IH|r c res Hm Ht H IH
                   |r c res Hm Ht H IH|a r c Hm Ht Ha1 Ha2];
    intros res2 H2; inversion H2; subst; try congruence; auto.
  replace token with t in * by congruence. auto.
Qed.

Lemma _parse_line_loop_scan (fuel : nat) :
  forall (line : str) (depth pos : nat),
    length line - pos <= fuel ->
    exists d n,
      _parse_line_loop fuel line depth pos = Ok (d, n) /\
      scan TREE_BRANCH TREE_LAST TREE_VERTICAL TREE_SPACE (drop pos line) depth (d, n).
Proof.
  induction fuel as [|fuel IH]; intros line depth pos Hf.
  - cbn [_parse_line_loop]. destruct (pos <? length line) eqn:E.
    + apply Nat.ltb_lt in E. lia.
    + apply Nat.ltb_ge in E. exists 0, []. rewrite drop_ge by done.
      split; [done|]. constructor.
  - cbn [_parse_line_loop]. destruct (pos <? length line) eqn:E; simpl negb; cbv iota.
    2:{ apply Nat.ltb_ge in E. exists 0, []. rewrite drop_ge by done.
        split; [done|]. constructor. }
    apply Nat.ltb_lt in E.
    destruct (drop_lookup_0 line pos E) as (c0 & Hc0 & Hpos).
    pose proof (drop_S _ _ _ Hpos) as Hdrop.
    assert (Hne : drop pos line <> []) by (by rewrite Hdrop).
    destruct (startswith (drop pos line) TREE_BRANCH) eqn:Hb.
    { eexists _, _. split; [done|]. apply scan_marker; [done|].
      unfold marker_at. by rewrite Hb. }
    destruct (startswith (drop pos line) TREE_LAST) eqn:Hl.
    { eexists _, _. split; [done|]. apply scan_marker; [done|].
      unfold marker_at. by rewrite Hb, Hl. }
    assert (Hm : marker_at TREE_BRANCH TREE_LAST (drop pos line) = None).
    { unfold marker_at. by rewrite Hb, Hl. }
    destruct (startswith (drop pos line) TREE_VERTICAL) eqn:Hv.
    { destruct (IH line (depth + 1) (pos + length TREE_VERTICAL)) as (d & n & Hr & Hs).
      { change (length TREE_VERTICAL) with 6. lia. }
      exists d, n. split; [done|].
      apply (scan_continuation _ _ _ _ _ _ TREE_VERTICAL); [done..| |].
      - unfold continuation_at. by rewrite Hv.
      - by rewrite drop_drop. }
    destruct (startswith (drop pos line) TREE_SPACE) eqn:Hsp.
    { destruct (IH line (depth + 1) (pos + length TREE_SPACE)) as (d & n & Hr & Hs).
      { change (length TREE_SPACE) with 4. lia. }
      exists d, n. split; [done|].
      apply (scan_continuation _ _ _ _ _ _ TREE_SPACE); [done..| |].
      - unfold continuation_at. by rewrite Hv, Hsp.
      - by rewrite drop_drop. }
    assert (Hc : continuation_at TREE_VERTICAL TREE_SPACE (drop pos line) = None).
    { unfold continuation_at. by rewrite Hv, Hsp. }
    unfold index. rewrite Hc0. cbn [bind]. rewrite Hdrop in *.
    destruct (c0 =? SPACE)%N eqn:Hc0s.
    { apply N.eqb_eq in Hc0s. subst c0.
      destruct (IH line depth (pos + 1)) as (d & n & Hr & Hs); [lia|].
      exists d, n. split; [done|]. apply scan_space; [done..|].
      by replace (S pos) with (pos + 1) by lia. }
    destruct (c0 =? TAB)%N eqn:Hc0t.
    { apply N.eqb_eq in Hc0t. subst c0.
      destruct (IH line (depth + 1) (pos + 1)) as (d & n & Hr & Hs); [lia|].
      exists d, n. split; [done|]. apply scan_tab; [done..|].
      by replace (S pos) with (pos + 1) by lia. }
    apply N.eqb_neq in Hc0s, Hc0t.
    exists 0, (strip (c0 :: drop (S pos) line)). split.
    + by destruct (strip (c0 :: drop (S pos) line)).
    + by apply scan_name.
Qed.

(** ** The loop of [parse] *)

Lemma look_ahead_ok (rest : list str) :
  look_ahead rest = Ok (line_depth <$> next_nonblank rest).
Proof.
  induction rest as [|look rest IH]; simpl; [done|].
  unfold blank. destruct (negb (truthy (strip look))); [done|].
  by rewrite _parse_line_ok.
Qed.

Lemma pop_while_ok (fuel : nat) :
  forall (parent_stack : list nat) (depth : nat),
    length parent_stack <= fuel ->
    pop_while fuel parent_stack depth = Ok (take depth parent_stack).
Proof.
  induction fuel as [|fuel IH]; intros stack d Hf; cbn [pop_while];
    destruct (d <? length stack) eqn:E; simpl negb; cbv iota.
  - apply Nat.ltb_lt in E. lia.
  - apply Nat.ltb_ge in E. by rewrite take_ge.
  - apply Nat.ltb_lt in E. destruct stack as [|s stack]; [simpl in E; lia|].
    cbn [pop bind]. rewrite IH.
    + rewrite take_take. f_equal. f_equal. cbn [length] in *. lia.
    + rewrite length_take. cbn [length] in *. lia.
  - apply Nat.ltb_ge in E. by rewrite take_ge.
Qed.

(** An iteration returns, and what it returns is [place] of the node of
    the line when the line is named, and the state as it was otherwise. *)
Lemma parse_step_eq (line_num : nat) (line : str) (rest : list str)
    (self : TreeParser) (parent_stack : list nat) :
  parse_step line_num line rest self parent_stack =
  Ok (if named line then place line_num (new_node line rest) (self, parent_stack)
      else (self, parent_stack)).
Proof.
  unfold parse_step, named, blank.
  destruct (negb (truthy (strip line))) eqn:Hb; [done|].
  rewrite _parse_line_ok. cbn [bind negb andb].
  destruct (truthy (line_name line)) eqn:Hn; cbn [negb]; [|done].
  unfold place, new_node, node_name, node_is_directory. cbn [fst snd depth].
  destruct (endswith (line_name line) [SLASH]) eqn:Hs; cbn [bind].
  - destruct ((line_num =? 0) || is_none (root self)); [done|].
    rewrite pop_while_ok by done. cbn [bind].
    rewrite (proj2 (Nat.leb_le _ _)) by apply firstn_le_length. done.
  - rewrite look_ahead_ok. cbn [bind].
    replace (match line_depth <$> next_nonblank rest with
             | Some next_depth => line_depth line <? next_depth
             | None => false
             end)
      with (match next_nonblank rest with
            | Some look => line_depth line <? line_depth look
            | None => false
            end) by (by destruct (next_nonblank rest)).
    destruct ((line_num =? 0) || is_none (root self)); [done|].
    rewrite pop_while_ok by done. cbn [bind].
    rewrite (proj2 (Nat.leb_le _ _)) by apply firstn_le_length. done.
Qed.

Lemma parse_loop_eq (lines : list str) :
  forall (line_num : nat) (self : TreeParser) (parent_stack : list nat),
    parse_loop line_num lines self parent_stack =
    Ok (run line_num lines (self, parent_stack)).1.
Proof.
  induction lines as [|line rest IH]; intros ln self stack; [done|].
  cbn [parse_loop run]. rewrite parse_step_eq. cbn [bind].
  destruct (named line).
  - destruct (place ln (new_node line rest) (self, stack)) as [self' stack'].
    apply IH.
  - apply IH.
Qed.

Lemma split_nl_truthy (s : str) : truthy (split_nl s) = true.
Proof.
  induction s as [|c s IH]; simpl; [done|].
  destruct (c =? NEWLINE)%N; [done|]. by destruct (split_nl s).
Qed.

(** [parse] returns, for every parser object and every text: the root
    of the parser object [parsed] that it leaves. *)
Lemma parse_eq (self : TreeParser) (tree_text : str) :
  parse self tree_text = Ok (root (parsed tree_text), parsed tree_text).
Proof.
  unfold parse, parsed. rewrite split_nl_truthy. cbn [negb].
  by rewrite parse_loop_eq.
Qed.

(** ** The arena stays well formed *)

Lemma link_lookup (nodes : list TreeNode) (n : TreeNode) (p i : nat) :
  p < length nodes ->
  link (length nodes) (Some p) (nodes ++ [n]) !! i =
  if decide (i = length nodes) then Some (set_parent p n)
  else if decide (i = p) then append_child (length nodes) <$> nodes !! p
  else nodes !! i.
Proof.
  intros Hp. unfold link.
  destruct (decide (i = length nodes)) as [->|Hi].
  - rewrite list_lookup_alter_ne by lia. rewrite list_lookup_alter_eq.
    rewrite lookup_app_r by lia. by rewrite Nat.sub_diag.
  - destruct (decide (i = p)) as [->|Hip].
    + rewrite list_lookup_alter_eq. rewrite list_lookup_alter_ne by lia.
      by rewrite lookup_app_l by lia.
    + rewrite !list_lookup_alter_ne by lia.
      destruct (decide (i < length nodes)).
      * by rewrite lookup_app_l by lia.
      * rewrite !lookup_ge_None_2; [done|lia|]. rewrite length_app. simpl. lia.
Qed.

Lemma link_length (node : nat) (parent : option nat) (nodes : list TreeNode) :
  length (link node parent nodes) = length nodes.
Proof. destruct parent; simpl; [|done]. by rewrite !length_alter. Qed.

Lemma wf_first (n : TreeNode) :
  children n = [] -> parent n = None -> wf [n] [0].
Proof.
  intros Hc Hp. split.
  - intros s ->%list_elem_of_singleton. simpl. lia.
  - done.
  - intros [|i] x p Hx Hxp; simpl in Hx; [|done]. congruence.
  - intros [|p] x c Hx Hxc; simpl in Hx; [|done].
    inversion Hx; subst. rewrite Hc in Hxc. by apply elem_of_nil in Hxc.
  - intros [|i] x Hx; simpl in Hx; [|done]. inversion Hx; subst. tauto.
Qed.

Lemma wf_orphaned (nodes : list TreeNode) (stack : list nat) (n : TreeNode) :
  wf nodes stack -> nodes <> [] ->
  children n = [] -> parent n = None -> depth n = 0 ->
  wf (nodes ++ [n]) [length nodes].
Proof.
  intros W Hne Hc Hp Hd.
  assert (Hlk : forall i x, (nodes ++ [n]) !! i = Some x ->
                (i < length nodes /\ nodes !! i = Some x) \/ (i = length nodes /\ x = n)).
  { intros i x Hx. destruct (decide (i < length nodes)).
    - rewrite lookup_app_l in Hx by done. auto.
    - rewrite lookup_app_r in Hx by lia.
      destruct (i - length nodes) as [|k] eqn:E; simpl in Hx; [|done].
      inversion Hx. right. split; [lia|done]. }
  split.
  - intros s ->%list_elem_of_singleton. rewrite length_app. simpl. lia.
  - done.
  - intros i x p Hx Hxp. apply Hlk in Hx as [[Hi Hx]|[-> ->]]; [|congruence].
    destruct (wf_parent _ _ W i x p Hx Hxp) as (Hlt & pn & Hpn & Hin).
    split; [done|]. exists pn. split; [|done]. rewrite lookup_app_l; [done|lia].
  - intros p x c Hx Hxc. apply Hlk in Hx as [[Hi Hx]|[-> ->]].
    2:{ rewrite Hc in Hxc. by apply elem_of_nil in Hxc. }
    destruct (wf_children _ _ W p x c Hx Hxc) as (Hlt & cn & Hcn & Hpar).
    split; [done|]. exists cn. split; [|done].
    rewrite lookup_app_l; [done|]. by eapply lookup_lt_Some.
  - intros i x Hx. apply Hlk in Hx as [[Hi Hx]|[-> ->]].
    + by apply (wf_orphan _ _ W).
    + tauto.
Qed.

Lemma wf_linked (nodes : list TreeNode) (stack : list nat) (n : TreeNode) (p : nat) :
  wf nodes stack ->
  children n = [] -> depth n <> 0 ->
  last (take (depth n) stack) = Some p ->
  wf (link (length nodes) (Some p) (nodes ++ [n])) (take (depth n) stack ++ [length nodes]).
Proof.
  intros W Hc Hd Hlast.
  assert (Hp : p < length nodes).
  { apply (wf_stack_bound _ _ W). apply last_Some in Hlast as [l' Hl'].
    assert (p ∈ take (depth n) stack) as Hin by (rewrite Hl'; set_solver).
    apply elem_of_take in Hin as (k & Hk & _). by eapply list_elem_of_lookup_2. }
  split.
  - intros s [Hs|Hs]%elem_of_app; rewrite link_length, length_app; simpl.
    + apply elem_of_take in Hs as (k & Hk & _).
      apply list_elem_of_lookup_2 in Hk. apply (wf_stack_bound _ _ W) in Hk. lia.
    + apply list_elem_of_singleton in Hs. lia.
  - intros _ H. by apply app_eq_nil in H as [_ H].
  - intros i x q Hx Hxq. rewrite link_lookup in Hx by done.
    destruct (decide (i = length nodes)) as [->|Hi].
    + inversion Hx; subst x. simpl in Hxq. inversion Hxq; subst q.
      split; [done|]. destruct (lookup_lt_is_Some_2 nodes p Hp) as [pn Hpn].
      exists (append_child (length nodes) pn). rewrite link_lookup by done.
      rewrite decide_False by lia. rewrite decide_True by done. rewrite Hpn.
      split; [done|]. simpl. set_solver.
    + assert (exists y, nodes !! i = Some y /\ parent y = Some q /\
                        (x = y \/ x = append_child (length nodes) y))
        as (y & Hy & Hyq & _).
      { destruct (decide (i = p)) as [->|Hip].
        - destruct (nodes !! p) as [y|]; [|done]. inversion Hx; subst x.
          exists y. simpl in Hxq. auto.
        - exists x. auto. }
      destruct (wf_parent _ _ W i y q Hy Hyq) as (Hlt & qn & Hqn & Hin).
      split; [done|]. rewrite link_lookup by done.
      pose proof (lookup_lt_Some _ _ _ Hqn).
      rewrite decide_False by lia.
      destruct (decide (q = p)) as [->|Hqp].
      * rewrite Hqn. eexists. split; [done|]. simpl. set_solver.
      * eauto.
  - intros q x c Hx Hxc. rewrite link_lookup in Hx by done.
    destruct (decide (q = length nodes)) as [->|Hq].
    { inversion Hx; subst x. simpl in Hxc. rewrite Hc in Hxc.
      by apply elem_of_nil in Hxc. }
    destruct (decide (q = p)) as [->|Hqp].
    + destruct (nodes !! p) as [y|] eqn:Hy; [|done]. inversion Hx; subst x.
      simpl in Hxc. apply elem_of_app in Hxc as [Hxc|Hxc].
      * destruct (wf_children _ _ W p y c Hy Hxc) as (Hlt & cn & Hcn & Hpar).
        split; [done|]. exists cn. rewrite link_lookup by done.
        pose proof (lookup_lt_Some _ _ _ Hcn).
        rewrite decide_False by lia. rewrite decide_False by lia. done.
      * apply list_elem_of_singleton in Hxc. subst c. split; [done|].
        exists (set_parent p n). rewrite link_lookup by done.
        rewrite decide_True by done. done.
    + destruct (wf_children _ _ W q x c Hx Hxc) as (Hlt & cn & Hcn & Hpar).
      split; [done|]. rewrite link_lookup by done.
      pose proof (lookup_lt_Some _ _ _ Hcn).
      rewrite decide_False by lia.
      destruct (decide (c = p)) as [->|Hcp].
      * rewrite Hcn. eexists. split; [done|]. done.
      * eauto.
  - intros i x Hx. rewrite link_lookup in Hx by done.
    destruct (decide (i = length nodes)) as [->|Hi].
    { inversion Hx; subst x. simpl. split; [done|]. intros [H|H]; [|done].
      destruct nodes; [simpl in Hp; lia|done]. }
    destruct (decide (i = p)) as [->|Hip].
    + destruct (nodes !! p) as [y|] eqn:Hy; [|done]. inversion Hx; subst x.
      simpl. by apply (wf_orphan _ _ W).
    + by apply (wf_orphan _ _ W).
Qed.

Lemma place_inv (line_num : nat) (n : TreeNode) (st : TreeParser * list nat) :
  inv line_num st -> children n = [] -> parent n = None ->
  forall k, inv (S k) (place line_num n st).
Proof.
  destruct st as [self stack]. unfold inv, place. cbn [fst snd].
  intros (H0 & Hroot & W) Hc Hp k.
  destruct ((line_num =? 0) || is_none (root self)) eqn:Hfirst; cbn [root all_nodes fst snd].
  - assert (all_nodes self = []) as Hnil.
    { apply orb_prop in Hfirst as [H|H].
      - apply Nat.eqb_eq in H. auto.
      - rewrite Hroot in H. by destruct (all_nodes self). }
    rewrite Hnil. simpl. split; [done|]. split; [done|]. by apply wf_first.
  - apply orb_false_elim in Hfirst as [_ Hsome].
    assert (all_nodes self <> []) as Hne.
    { intros Hnil. rewrite Hroot, Hnil in Hsome. done. }
    split; [done|]. split.
    + rewrite Hroot. destruct (all_nodes self) as [|x xs] eqn:E; [done|].
      destruct (link _ _ _) eqn:El; [|done].
      apply (f_equal length) in El. rewrite link_length, length_app in El.
      simpl in El. lia.
    + destruct (last (take (depth n) stack)) as [p|] eqn:Hlast.
      * apply wf_linked; [done..| |done]. intros Hd. rewrite Hd in Hlast. done.
      * apply last_None in Hlast. rewrite Hlast.
        apply take_nil_inv in Hlast as [Hd|Hs].
        -- simpl. by eapply wf_orphaned.
        -- by apply (wf_stack_nonempty _ _ W) in Hne.
Qed.

Lemma inv_init : inv 0 (__init__, []).
Proof.
  unfold inv. simpl. split; [done|]. split; [done|]. split; try done.
  intros s Hs. by apply elem_of_nil in Hs.
Qed.

Lemma inv_later (line_num k : nat) (st : TreeParser * list nat) :
  inv line_num st -> inv (S k) st.
Proof. intros (_ & H). split; [done|]. exact H. Qed.

Lemma run_inv (lines : list str) :
  forall (line_num : nat) (st : TreeParser * list nat),
    inv line_num st -> inv (S line_num) (run line_num lines st).
Proof.
  induction lines as [|line rest IH]; intros ln st Hst; cbn [run].
  - by eapply inv_later.
  - apply (inv_later (S (S ln))). apply IH. destruct (named line).
    + by apply place_inv.
    + by eapply inv_later.
Qed.

(** After [parse], whatever the text: the arena is well formed, and the
    root is the first node that was created, if any was. *)
Lemma parsed_inv (tree_text : str) :
  root (parsed tree_text) =
    (if truthy (all_nodes (parsed tree_text)) then Some 0 else None) /\
  exists stack, wf (all_nodes (parsed tree_text)) stack.
Proof.
  destruct (run_inv (split_nl (strip tree_text)) 0 _ inv_init) as (_ & Hr & W).
  split; [exact Hr|]. eexists. exact W.
Qed.

(** ** The nodes are those of the named lines *)

Lemma info_alter (f : TreeNode -> TreeNode) (i : nat) (nodes : list TreeNode) :
  (forall x, info (f x) = info x) -> info <$> alter f i nodes = info <$> nodes.
Proof.
  intros Hf. apply list_eq. intros j. rewrite !list_lookup_fmap, list_lookup_alter.
  destruct (decide (i = j)) as [->|]; [|done].
  destruct (nodes !! j); simpl; [|done]. by rewrite Hf.
Qed.

Lemma place_info (line_num : nat) (n : TreeNode) (st : TreeParser * list nat) :
  info <$> all_nodes (place line_num n st).1 = (info <$> all_nodes st.1) ++ [info n].
Proof.
  unfold place. destruct ((line_num =? 0) || is_none (root st.1)); cbn [fst all_nodes].
  - apply fmap_snoc.
  - destruct (last _); simpl; [|apply fmap_snoc].
    rewrite !info_alter by done. apply fmap_snoc.
Qed.

Lemma run_info (lines : list str) :
  forall (line_num : nat) (st : TreeParser * list nat),
    info <$> all_nodes (run line_num lines st).1 =
    (info <$> all_nodes st.1) ++ (info <$> entries lines).
Proof.
  induction lines as [|line rest IH]; intros ln st; cbn [run entries].
  - by rewrite app_nil_r.
  - rewrite IH. destruct (named line); [|done].
    rewrite place_info, <- app_assoc. done.
Qed.

Lemma parsed_info (tree_text : str) :
  info <$> all_nodes (parsed tree_text) = info <$> entries (split_nl (strip tree_text)).
Proof. unfold parsed. by rewrite run_info. Qed.

(** ** When no node is created *)

Lemma lstrip_with_head (p : N -> bool) (s : str) (c : N) (r : str) :
  lstrip_with p s = c :: r -> p c = false.
Proof.
  induction s as [|a s IH]; simpl; [done|].
  destruct (p a) eqn:Ha; [done|]. intros H. by inversion H; subst.
Qed.

Lemma rstrip_with_last_false (p : N -> bool) (s : str) :
  rstrip_with p s = [] \/ exists c, last (rstrip_with p s) = Some c /\ p c = false.
Proof.
  unfold rstrip_with. destruct (lstrip_with p (rev s)) as [|c r] eqn:E; [by left|].
  right. exists c. split; [|by eapply lstrip_with_head].
  simpl. apply last_snoc.
Qed.

(** What [strip] leaves does not end in white space. *)
Lemma strip_last_nonspace (s : str) :
  strip s = [] \/ exists c, last (strip s) = Some c /\ isspace c = false.
Proof. apply rstrip_with_last_false. Qed.

Lemma split_nl_last (s : str) (c : N) :
  last s = Some c -> c <> NEWLINE ->
  exists line, last (split_nl s) = Some line /\ last line = Some c.
Proof.
  induction s as [|a s IH]; [done|]. intros Hl Hc.
  destruct s as [|b s].
  - simpl in Hl. inversion Hl; subst a. simpl.
    rewrite (proj2 (N.eqb_neq c NEWLINE) Hc). by exists [c].
  - rewrite last_cons_cons in Hl. destruct (IH Hl Hc) as (line & Hline & Hlast).
    clear IH Hl. generalize dependent (b :: s). intros t Hline.
    cbn [split_nl]. destruct (a =? NEWLINE)%N.
    + exists line. split; [|done].
      destruct (split_nl t) as [|x xs]; [done|]. by rewrite last_cons_cons.
    + destruct (split_nl t) as [|cur more]; [done|]. simpl cons_head.
      destruct more as [|m more].
      * simpl in Hline. inversion Hline; subst cur. exists (a :: line).
        split; [done|]. destruct line; [done|]. by rewrite last_cons_cons.
      * exists line. by rewrite last_cons_cons in *.
Qed.

Lemma entries_nil (lines : list str) :
  entries lines = [] <-> Forall (fun line => named line = false) lines.
Proof.
  induction lines as [|line rest IH]; simpl; [done|].
  destruct (named line) eqn:E.
  - split; [done|]. intros H. inversion H; congruence.
  - rewrite IH. split; [by constructor|]. intros H. by inversion H.
Qed.

Lemma named_last_nonspace (line : str) (c : N) :
  last line = Some c -> isspace c = false -> named line = true.
Proof.
  intros Hl Hc. unfold named, blank.
  rewrite (strip_truthy _ _ Hl Hc). simpl.
  pose proof (line_name_nonempty _ _ Hl Hc). by destruct (line_name line).
Qed.

(** The text is trimmed before it is split, so its last line ends in a
    character that is not white space and is named, unless nothing is
    left of the text. *)
Lemma entries_nil_iff_blank (tree_text : str) :
  entries (split_nl (strip tree_text)) = [] <-> strip tree_text = [].
Proof.
  split.
  - intros He. destruct (strip_last_nonspace tree_text) as [|(c & Hl & Hc)]; [done|].
    destruct (split_nl_last _ c Hl) as (line & Hline & Hlast).
    { intros ->. done. }
    apply entries_nil in He. apply last_Some in Hline as [l' Hl'].
    rewrite Hl' in He. apply Forall_app in He as [_ He]. inversion He; subst.
    rewrite (named_last_nonspace _ _ Hlast Hc) in *. done.
  - intros ->. done.
Qed.

Lemma parsed_nodes_nil (tree_text : str) :
  all_nodes (parsed tree_text) = [] <-> strip tree_text = [].
Proof.
  rewrite <- entries_nil_iff_blank. pose proof (parsed_info tree_text) as H.
  split; intros E.
  - rewrite E in H. by destruct (entries _).
  - rewrite E in H. by destruct (all_nodes _).
Qed.

Lemma parsed_root_none (tree_text : str) :
  root (parsed tree_text) = None <-> all_nodes (parsed tree_text) = [].
Proof.
  destruct (parsed_inv tree_text) as [Hr _]. rewrite Hr.
  by destruct (all_nodes (parsed tree_text)).
Qed.

Lemma entries_length (lines : list str) :
  length (entries lines) = sum_ones named lines.
Proof.
  induction lines as [|line rest IH]; simpl; [done|].
  destruct (named line); simpl; by rewrite IH.
Qed.

Lemma entries_lookup (pre : list str) (line : str) (rest : list str) :
  named line = true ->
  entries (pre ++ line :: rest) !! sum_ones named pre = Some (new_node line rest).
Proof.
  intros Hn. induction pre as [|a pre IH]; simpl.
  - by rewrite Hn.
  - by destruct (named a).
Qed.

Lemma entries_lookup_inv (lines : list str) :
  forall (i : nat) (e : TreeNode),
    entries lines !! i = Some e ->
    exists pre line rest,
      lines = pre ++ line :: rest /\ sum_ones named pre = i /\
      named line = true /\ e = new_node line rest.
Proof.
  induction lines as [|a lines IH]; intros i e He; simpl in He; [done|].
  destruct (named a) eqn:Ha.
  - destruct i as [|i]; simpl in He.
    + inversion He. by exists [], a, lines.
    + destruct (IH i e He) as (pre & line & rest & -> & Hi & Hn & ->).
      exists (a :: pre), line, rest. simpl. rewrite Ha. by rewrite Hi.
  - destruct (IH i e He) as (pre & line & rest & -> & Hi & Hn & ->).
    exists (a :: pre), line, rest. simpl. by rewrite Ha.
Qed.

Lemma sum_ones_0 {A : Type} (p : A -> bool) (l : list A) :
  sum_ones p l = 0 -> Forall (fun x => p x = false) l.
Proof.
  induction l as [|x l IH]; simpl; [done|].
  destruct (p x) eqn:E; [done|]. intros H. constructor; auto.
Qed.

(** The node at position [i] of the arena has the fixed fields of the
    [i]-th entry. *)
Lemma parsed_lookup (tree_text : str) (i : nat) (node : TreeNode) :
  all_nodes (parsed tree_text) !! i = Some node ->
  exists e, entries (split_nl (strip tree_text)) !! i = Some e /\ info node = info e.
Proof.
  intros Hn. pose proof (parsed_info tree_text) as H.
  apply (f_equal (fun l => l !! i)) in H. rewrite !list_lookup_fmap, Hn in H.
  destruct (entries _ !! i) as [e|]; simpl in H; [|done].
  exists e. split; [done|]. congruence.
Qed.

(** The node of a named line: it sits in the arena at the number of the
    named lines before it and has the name, the classification and the
    depth that the loop computed for the line. *)
Lemma node_of_named_line (tree_text : str) (pre : list str) (line : str)
    (rest : list str) :
  split_nl (strip tree_text) = pre ++ line :: rest -> named line = true ->
  exists node,
    all_nodes (parsed tree_text) !! sum_ones named pre = Some node /\
    info node = info (new_node line rest).
Proof.
  intros Hl Hn. pose proof (parsed_info tree_text) as H.
  apply (f_equal (fun l => l !! sum_ones named pre)) in H.
  rewrite !list_lookup_fmap, Hl, entries_lookup in H by done.
  destruct (all_nodes _ !! _) as [node|]; simpl in H; [|done].
  exists node. split; [done|]. congruence.
Qed.

(** ** Trailing slashes *)

Lemma endswith_rstrip_slash (s : str) : endswith (rstrip_slash s) [SLASH] = false.
Proof.
  unfold endswith, rstrip_slash, rstrip_with. rewrite rev_involutive.
  destruct (lstrip_with (N.eqb SLASH) (rev s)) as [|c r] eqn:E; [done|].
  apply lstrip_with_head in E. simpl. rewrite N.eqb_sym, E. done.
Qed.

Lemma rstrip_slash_id (s : str) : endswith s [SLASH] = false -> rstrip_slash s = s.
Proof.
  unfold endswith, rstrip_slash, rstrip_with. simpl.
  destruct (rev s) as [|c r] eqn:E.
  - intros _. apply (f_equal (@rev N)) in E. rewrite rev_involutive in E. by subst.
  - intros H. destruct (c =? SLASH)%N eqn:Hc.
    { simpl in H. rewrite Hc in H. by destruct r. }
    cbn [lstrip_with]. rewrite N.eqb_sym, Hc. rewrite <- E. apply rev_involutive.
Qed.

Lemma node_name_rstrip (line : str) : node_name line = rstrip_slash (line_name line).
Proof.
  unfold node_name. destruct (endswith _ _) eqn:E; [done|].
  by rewrite rstrip_slash_id.
Qed.

Lemma rstrip_slash_nonempty (s : str) :
  (exists c, c ∈ s /\ c <> SLASH) -> rstrip_slash s <> [].
Proof.
  intros (c & Hin & Hc) H. apply rstrip_with_nil in H.
  rewrite forallb_forall in H. apply list_elem_of_In in Hin.
  apply H, N.eqb_eq in Hin. congruence.
Qed.

(** ** Depths on a well nested input *)

Lemma place_first (line_num : nat) (n : TreeNode) (st : TreeParser * list nat) :
  inv line_num st -> all_nodes st.1 = [] ->
  place line_num n st = ({| root := Some 0; all_nodes := [n] |}, [0]).
Proof.
  intros (_ & Hr & _) Hnil. unfold place. rewrite Hr, Hnil. simpl.
  by rewrite orb_true_r.
Qed.

Lemma place_next (line_num : nat) (n : TreeNode) (st : TreeParser * list nat) :
  inv line_num st -> all_nodes st.1 <> [] ->
  place line_num n st =
  ({| root := root st.1;
      all_nodes := link (length (all_nodes st.1)) (last (take (depth n) st.2))
                        (all_nodes st.1 ++ [n]) |},
   take (depth n) st.2 ++ [length (all_nodes st.1)]).
Proof.
  intros (H0 & Hr & _) Hne. unfold place.
  destruct (line_num =? 0) eqn:E.
  { apply Nat.eqb_eq in E. by apply H0 in E. }
  rewrite Hr. by destruct (all_nodes st.1).
Qed.

Lemma depths_ok_next (nodes : list TreeNode) (stack : list nat) (n : TreeNode) :
  wf nodes stack -> depths_ok nodes stack ->
  parent n = None -> depth n <= length stack ->
  depths_ok (link (length nodes) (last (take (depth n) stack)) (nodes ++ [n]))
            (take (depth n) stack ++ [length nodes]) /\
  length (take (depth n) stack ++ [length nodes]) = S (depth n).
Proof.
  intros W [D1 D2] Hp Hd.
  assert (Hlen : length (take (depth n) stack) = depth n) by (by apply length_take_le).
  split; [|rewrite length_app, Hlen; simpl; lia].
  destruct (last (take (depth n) stack)) as [p|] eqn:Hlast.
  - assert (Hpk : stack !! (depth n - 1) = Some p /\ depth n <> 0).
    { rewrite last_lookup, Hlen in Hlast.
      destruct (depth n) as [|d] eqn:Ed; [by rewrite take_0 in Hlast|].
      simpl in Hlast. rewrite lookup_take_lt in Hlast by lia.
      split; [|done]. by replace (S d - 1) with d by lia. }
    destruct Hpk as [Hpk Hd0].
    destruct (D1 _ _ Hpk) as (pn & Hpn & Hpd).
    pose proof (lookup_lt_Some _ _ _ Hpn) as Hplt.
    split.
    + intros k s Hk. destruct (decide (k < depth n)) as [Hlt|Hge].
      * rewrite lookup_app_l in Hk by lia. rewrite lookup_take_lt in Hk by lia.
        destruct (D1 _ _ Hk) as (x & Hx & Hxd).
        pose proof (lookup_lt_Some _ _ _ Hx).
        rewrite link_lookup by done. rewrite decide_False by lia.
        destruct (decide (s = p)) as [->|]; [|eauto].
        rewrite Hx. eexists. split; [done|]. done.
      * rewrite lookup_app_r in Hk by lia. rewrite Hlen in Hk.
        destruct (k - depth n) as [|j] eqn:Ej; simpl in Hk; [|done].
        injection Hk as <-. rewrite link_lookup by done.
        rewrite decide_True by done. eexists. split; [done|]. simpl. lia.
    + intros i x q qn Hx Hxq Hqn. rewrite link_lookup in Hx, Hqn by done.
      assert (Hdepth : forall j y, j <> length nodes ->
                (if decide (j = p) then append_child (length nodes) <$> nodes !! p
                 else nodes !! j) = Some y ->
                exists y0, nodes !! j = Some y0 /\ depth y = depth y0 /\ parent y = parent y0).
      { intros j y _ Hy. destruct (decide (j = p)) as [->|]; [|eauto].
        destruct (nodes !! p) as [y0|]; [|done]. injection Hy as <-. eauto. }
      destruct (decide (i = length nodes)) as [->|Hi].
      * injection Hx as <-. simpl in Hxq. injection Hxq as <-.
        rewrite decide_False in Hqn by lia. rewrite decide_True in Hqn by done.
        rewrite Hpn in Hqn. injection Hqn as <-. simpl. lia.
      * apply Hdepth in Hx as (x0 & Hx0 & -> & Hpar); [|done].
        rewrite Hpar in Hxq.
        destruct (wf_parent _ _ W _ _ _ Hx0 Hxq) as (Hlt & _).
        pose proof (lookup_lt_Some _ _ _ Hx0).
        rewrite decide_False in Hqn by lia.
        apply Hdepth in Hqn as (q0 & Hq0 & -> & _); [|lia].
        by eapply D2.
  - apply last_None in Hlast. rewrite Hlast. simpl.
    assert (depth n = 0) as Hd0 by (rewrite Hlast in Hlen; simpl in Hlen; lia).
    assert (Hlk : forall i x, (nodes ++ [n]) !! i = Some x ->
                  nodes !! i = Some x \/ (i = length nodes /\ x = n)).
    { intros i x Hx. destruct (decide (i < length nodes)).
      - rewrite lookup_app_l in Hx by done. auto.
      - rewrite lookup_app_r in Hx by lia.
        destruct (i - length nodes) as [|k] eqn:E; simpl in Hx; [|done].
        injection Hx as <-. right. split; [lia|done]. }
    split.
    + intros [|k] s Hk; simpl in Hk; [|done]. injection Hk as <-.
      exists n. split; [|done]. rewrite lookup_app_r by lia. by rewrite Nat.sub_diag.
    + intros i x q qn Hx Hxq Hqn.
      apply Hlk in Hx as [Hx|[-> ->]]; [|congruence].
      destruct (wf_parent _ _ W _ _ _ Hx Hxq) as (Hlt & _).
      pose proof (lookup_lt_Some _ _ _ Hx).
      apply Hlk in Hqn as [Hqn|[-> ->]]; [|lia]. by eapply D2.
Qed.

Lemma run_depths (lines : list str) :
  forall (line_num : nat) (st : TreeParser * list nat) (prev : nat),
    inv line_num st -> all_nodes st.1 <> [] ->
    depths_ok (all_nodes st.1) st.2 -> length st.2 = S prev ->
    no_jump prev (depth <$> entries lines) = true ->
    let st' := run line_num lines st in depths_ok (all_nodes st'.1) st'.2.
Proof.
  induction lines as [|line rest IH]; intros ln st prev I Hne D Hlen Hj; cbn [run]; [done|].
  cbn [entries] in Hj. destruct (named line) eqn:Hn.
  - cbn [fmap list_fmap] in Hj. simpl in Hj. apply andb_prop in Hj as [Hd Hj].
    apply Nat.leb_le in Hd.
    pose proof (place_inv ln (new_node line rest) st I eq_refl eq_refl ln) as I'.
    pose proof I as (_ & _ & W).
    rewrite place_next in * by done.
    destruct (depths_ok_next _ _ (new_node line rest) W D eq_refl) as [D' Hlen'].
    { simpl. lia. }
    apply (IH _ _ (line_depth line) I'); cbn [fst snd all_nodes]; try done.
    intros E. apply (f_equal length) in E. rewrite link_length, length_app in E.
    simpl in E. lia.
  - apply (IH _ _ prev); try done. by eapply inv_later.
Qed.

Lemma run_depths_init (lines : list str) :
  forall (line_num : nat) (st : TreeParser * list nat),
    inv line_num st -> all_nodes st.1 = [] ->
    well_nested lines = true ->
    let st' := run line_num lines st in depths_ok (all_nodes st'.1) st'.2.
Proof.
  induction lines as [|line rest IH]; intros ln st I Hnil Hw; cbn [run].
  - rewrite Hnil. split.
    + intros k s Hk. destruct I as (_ & _ & W).
      apply list_elem_of_lookup_2, (wf_stack_bound _ _ W) in Hk.
      rewrite Hnil in Hk. simpl in Hk. lia.
    + intros i n p pn Hi. done.
  - unfold well_nested in Hw. cbn [entries] in Hw. destruct (named line) eqn:Hn.
    + simpl in Hw. apply andb_prop in Hw as [Hd Hj]. apply Nat.eqb_eq in Hd.
      pose proof (place_inv ln (new_node line rest) st I eq_refl eq_refl ln) as I'.
      rewrite place_first in * by done.
      apply (run_depths _ _ _ 0 I'); cbn [fst snd all_nodes]; try done.
      split.
      * intros [|k] s Hk; simpl in Hk; [|done]. injection Hk as <-.
        eexists. split; [done|]. done.
      * intros [|i] n p pn Hi Hp; simpl in Hi; [|done]. by injection Hi as <-.
    + apply IH; [by eapply inv_later|done|done].
Qed.

(** ** The traversal *)

Lemma get_full_path_loop_ok (nodes : list TreeNode) (stack : list nat) :
  wf nodes stack ->
  forall (fuel j : nat) (parts : list str),
    j < fuel -> j < length nodes ->
    exists parts', get_full_path_loop fuel nodes (Some j) parts = Ok parts'.
Proof.
  intros W. induction fuel as [|fuel IH]; intros j parts Hf Hj; [lia|].
  cbn [get_full_path_loop]. unfold deref.
  destruct (lookup_lt_is_Some_2 nodes j Hj) as [n Hn]. rewrite Hn. cbn [bind].
  destruct (parent n) as [p|] eqn:Hp.
  - destruct (wf_parent _ _ W _ _ _ Hn Hp) as (Hlt & _).
    apply IH; lia.
  - exists (parts ++ [name n]). by destruct fuel.
Qed.

Lemma get_full_path_ok (nodes : list TreeNode) (stack : list nat)
    (j : nat) (base_path : str) :
  wf nodes stack -> j < length nodes ->
  exists s, get_full_path nodes j base_path = Ok s.
Proof.
  intros W Hj. unfold get_full_path.
  destruct (get_full_path_loop_ok _ _ W (length nodes) j [] Hj Hj) as [parts ->].
  cbn [bind]. destruct (truthy base_path); by eexists.
Qed.

(** A visited node is the node where the traversal starts or a node
    with a parent. *)
Lemma preorder_elem (nodes : list TreeNode) (stack : list nat) :
  wf nodes stack ->
  forall (fuel node j : nat),
    j ∈ preorder fuel nodes node ->
    j = node \/ exists cn p, nodes !! j = Some cn /\ parent cn = Some p.
Proof.
  intros W. induction fuel as [|fuel IH]; intros node j Hj; cbn [preorder] in Hj.
  - by apply elem_of_nil in Hj.
  - apply elem_of_cons in Hj as [->|Hj]; [by left|]. right.
    apply list_elem_of_In, in_flat_map in Hj as (c & Hc & Hj).
    apply list_elem_of_In in Hc, Hj.
    destruct (nodes !! node) as [n|] eqn:Hn; [|by apply elem_of_nil in Hc].
    destruct (IH _ _ Hj) as [->|H]; [|done].
    destruct (wf_children _ _ W _ _ _ Hn Hc) as (_ & cn & Hcn & Hp). eauto.
Qed.

Lemma reachable_elem (nodes : list TreeNode) (stack : list nat) (r j : nat) :
  wf nodes stack -> reachable nodes r j ->
  j = r \/ exists cn p, nodes !! j = Some cn /\ parent cn = Some p.
Proof.
  intros W [|k c nk _ Hk Hc]; [by left|]. right.
  destruct (wf_children _ _ W _ _ _ Hk Hc) as (_ & cn & Hcn & Hp). eauto.
Qed.

Lemma sum_ones_negb {A : Type} (p : A -> bool) (l : list A) :
  sum_ones (fun x => negb (p x)) l = length l - sum_ones p l /\
  sum_ones p l <= length l.
Proof.
  induction l as [|x l [IH1 IH2]]; simpl; [done|].
  destruct (p x); simpl; lia.
Qed.

(** The summary counts over [all_nodes]; its files are the nodes that
    are not directories. *)
Lemma get_summary_eq (self : TreeParser) :
  get_summary self =
  mkSummary (length (all_nodes self))
            (sum_ones is_directory (all_nodes self))
            (length (all_nodes self) - sum_ones is_directory (all_nodes self)).
Proof.
  unfold get_summary. destruct (all_nodes self) as [|n nodes] eqn:E; [done|].
  cbn [truthy negb]. f_equal. apply sum_ones_negb.
Qed.

(** ** The recursion of [_collect_paths] and the levels of the tree *)

(** [_collect_paths] with [frames] nested activations allowed: it raises
    [RecursionError] exactly when a branch under [node] has more nodes
    than that, and otherwise returns with the pairs of the nodes of
    [preorder] appended, in that order. *)
Lemma _collect_paths_frames (nodes : list TreeNode) (stack : list nat) (base_path : str) :
  wf nodes stack ->
  forall (frames node : nat) (paths : list (str * bool)),
    node < length nodes ->
    (too_deep frames nodes node = true ->
     _collect_paths frames nodes node base_path paths = Raise RecursionError) /\
    (too_deep frames nodes node = false ->
     exists es,
       _collect_paths frames nodes node base_path paths = Ok (paths ++ es) /\
       Forall2 (entry_of nodes base_path) (preorder frames nodes node) es).
Proof.
  intros W. induction frames as [|frames IH]; intros node paths Hn; [done|].
  cbn [_collect_paths preorder too_deep]. unfold deref.
  destruct (lookup_lt_is_Some_2 nodes node Hn) as [n Hnode]. rewrite Hnode. cbn [bind].
  destruct (get_full_path_ok nodes stack node base_path W Hn) as [s Hs].
  rewrite Hs. cbn [bind].
  assert (Hch : forall c, c ∈ children n -> c < length nodes).
  { intros c Hc. destruct (wf_children _ _ W _ _ _ Hnode Hc) as (_ & cn & Hcn & _).
    by eapply lookup_lt_Some. }
  assert (Hloop : forall cs acc,
             (forall c, c ∈ cs -> c < length nodes) ->
             (existsb (too_deep frames nodes) cs = true ->
              for_each (fun paths child => _collect_paths frames nodes child base_path paths)
                       cs acc = Raise RecursionError) /\
             (existsb (too_deep frames nodes) cs = false ->
              exists es,
                for_each (fun paths child => _collect_paths frames nodes child base_path paths)
                         cs acc = Ok (acc ++ es) /\
                Forall2 (entry_of nodes base_path) (flat_map (preorder frames nodes) cs) es)).
  { induction cs as [|c cs IHcs]; intros acc Hcs.
    - split; [done|]. intros _. exists []. simpl. by rewrite app_nil_r.
    - assert (c < length nodes) as Hc by (apply Hcs, list_elem_of_here).
      destruct (IH c acc Hc) as [Hraise Hok].
      cbn [existsb for_each flat_map].
      destruct (too_deep frames nodes c) eqn:Ec; cbn [orb].
      + split; [|done]. intros _. by rewrite Hraise.
      + destruct (Hok eq_refl) as (es1 & He1 & Hf1). rewrite He1. cbn [bind].
        destruct (IHcs (acc ++ es1)) as [Hraise' Hok'].
        { intros c' Hc'. apply Hcs. by apply list_elem_of_further. }
        split; [done|]. intros Hcs'.
        destruct (Hok' Hcs') as (es2 & He2 & Hf2).
        exists (es1 ++ es2). rewrite He2, app_assoc. split; [done|].
        by apply Forall2_app. }
  destruct (Hloop (children n) (paths ++ [(s, is_directory n)]) Hch) as [Hraise Hok].
  split; [done|]. intros Hd. destruct (Hok Hd) as (es & He & Hfa).
  exists ((s, is_directory n) :: es). rewrite He. split.
  - by rewrite <- app_assoc.
  - constructor; [|done]. by exists n.
Qed.

(** Once no branch is cut, more fuel does not change the traversal. *)
Lemma preorder_stable (nodes : list TreeNode) :
  forall (frames node fuel : nat),
    too_deep frames nodes node = false -> frames <= fuel ->
    preorder fuel nodes node = preorder frames nodes node.
Proof.
  induction frames as [|frames IH]; intros node fuel Hd Hle; [done|].
  destruct fuel as [|fuel]; [lia|]. cbn [preorder too_deep] in *. f_equal.
  induction (match nodes !! node with Some n => children n | None => [] end)
    as [|c cs IHcs]; [done|].
  cbn [existsb flat_map] in *. apply orb_false_elim in Hd as [Hc Hcs].
  rewrite (IH c fuel Hc) by lia. f_equal. by apply IHcs.
Qed.

Lemma reachable_at_pos (nodes : list TreeNode) (r k j : nat) :
  reachable_at nodes r k j -> 0 < k.
Proof. intros [|]; lia. Qed.

Lemma reachable_at_under (nodes : list TreeNode) (r c k j : nat) (n : TreeNode) :
  nodes !! r = Some n -> c ∈ children n ->
  reachable_at nodes c k j -> reachable_at nodes r (S k) j.
Proof.
  intros Hr Hc. induction 1 as [|k j c' nj _ IH Hj Hc'].
  - by eapply at_child; [apply at_root|..].
  - by eapply at_child.
Qed.

Lemma reachable_at_inv (nodes : list TreeNode) (r k j : nat) :
  reachable_at nodes r k j -> 1 < k ->
  exists n c, nodes !! r = Some n /\ c ∈ children n /\ reachable_at nodes c (k - 1) j.
Proof.
  induction 1 as [|k j c nj H IH Hj Hc]; intros Hk; [lia|].
  destruct (decide (k = 1)) as [->|Hk1].
  - inversion H; subst.
    + exists nj, c. split; [done|]. split; [done|]. apply at_root.
    + match goal with H' : reachable_at _ _ 0 _ |- _ =>
        apply reachable_at_pos in H'; lia end.
  - pose proof (reachable_at_pos _ _ _ _ H).
    destruct IH as (n & c0 & Hr & Hc0 & Hreach); [lia|].
    exists n, c0. split; [done|]. split; [done|].
    replace (S k - 1) with (S (k - 1)) by lia. by eapply at_child.
Qed.

(** [too_deep] in words: some node under [node] lies on a branch of more
    than [frames] nodes. *)
Lemma too_deep_iff (nodes : list TreeNode) :
  forall (frames node : nat),
    too_deep frames nodes node = true <->
    exists j k, reachable_at nodes node k j /\ frames < k.
Proof.
  induction frames as [|frames IH]; intros node; cbn [too_deep].
  - split; [|done]. intros _. exists node, 1. split; [apply at_root|lia].
  - split.
    + intros (c & Hc & Hd)%existsb_exists. apply list_elem_of_In in Hc.
      destruct (nodes !! node) as [n|] eqn:Hn; [|by apply elem_of_nil in Hc].
      apply IH in Hd as (j & k & Hr & Hk).
      exists j, (S k). split; [by eapply reachable_at_under|lia].
    + intros (j & k & Hr & Hk).
      destruct (reachable_at_inv _ _ _ _ Hr) as (n & c & Hn & Hc & Hr'); [lia|].
      rewrite Hn. apply existsb_exists. exists c.
      split; [by apply list_elem_of_In|]. apply IH. exists j, (k - 1).
      split; [done|lia].
Qed.

Lemma reachable_at_reachable (nodes : list TreeNode) (r j : nat) :
  reachable nodes r j <-> exists k, reachable_at nodes r k j.
Proof.
  split.
  - induction 1 as [|j c nj _ [k IH] Hj Hc]; [exists 1; apply at_root|].
    exists (S k). by eapply at_child.
  - intros [k H]. induction H as [|k j c nj _ IH Hj Hc]; [apply reachable_root|].
    by eapply reachable_child.
Qed.

(** A branch goes through the arena from left to right, so it has no
    more nodes than the arena. *)
Lemma reachable_at_bound (nodes : list TreeNode) (stack : list nat) (r k j : nat) :
  wf nodes stack -> r < length nodes ->
  reachable_at nodes r k j -> r + k <= S j /\ j < length nodes.
Proof.
  intros W Hr. induction 1 as [|k j c nj _ [IH1 IH2] Hj Hc]; [lia|].
  destruct (wf_children _ _ W _ _ _ Hj Hc) as (Hlt & cn & Hcn & _).
  apply lookup_lt_Some in Hcn. lia.
Qed.

Lemma too_deep_length (nodes : list TreeNode) (stack : list nat) (r frames : nat) :
  wf nodes stack -> r < length nodes -> length nodes <= frames ->
  too_deep frames nodes r = false.
Proof.
  intros W Hr Hf. destruct (too_deep frames nodes r) eqn:E; [|done].
  apply too_deep_iff in E as (j & k & Hreach & Hk).
  destruct (reachable_at_bound _ _ _ _ _ W Hr Hreach). lia.
Qed.

(** [get_all_paths] after [parse], with [frames] nested activations
    allowed: [RecursionError] when a branch under the root has more nodes,
    and otherwise the pairs of the visited nodes, in the order of the
    visit. *)
Lemma parsed_get_all_paths (tree_text : str) (base_path : str) (frames r : nat) :
  root (parsed tree_text) = Some r ->
  (too_deep frames (all_nodes (parsed tree_text)) r = true ->
   get_all_paths frames (parsed tree_text) base_path = Raise RecursionError) /\
  (too_deep frames (all_nodes (parsed tree_text)) r = false ->
   exists paths,
     get_all_paths frames (parsed tree_text) base_path = Ok paths /\
     Forall2 (entry_of (all_nodes (parsed tree_text)) base_path)
             (visited (parsed tree_text)) paths).
Proof.
  intros Hr. destruct (parsed_inv tree_text) as (Hroot & stack & W).
  unfold get_all_paths, visited. rewrite Hr.
  assert (r < length (all_nodes (parsed tree_text))) as Hlt.
  { rewrite Hr in Hroot.
    destruct (all_nodes (parsed tree_text)); simpl in *; [done|].
    injection Hroot as ->. lia. }
  destruct (_collect_paths_frames _ _ base_path W frames r [] Hlt) as [Hraise Hok].
  split; [done|]. intros Hd. destruct (Hok Hd) as (es & He & Hf).
  exists es. split; [done|].
  replace (preorder (length (all_nodes (parsed tree_text))) (all_nodes (parsed tree_text)) r)
    with (preorder frames (all_nodes (parsed tree_text)) r); [done|].
  destruct (decide (frames <= length (all_nodes (parsed tree_text)))) as [Hle|Hgt].
  - symmetry. by apply preorder_stable.
  - apply preorder_stable; [|lia]. eapply too_deep_length; [done..|lia].
Qed.

(** Whatever [get_all_paths] returns after [parse] is the list of the
    pairs of the visited nodes. *)
Lemma parsed_paths_visited (tree_text : str) (base_path : str) (frames : nat)
    (paths : list (str * bool)) :
  get_all_paths frames (parsed tree_text) base_path = Ok paths ->
  Forall2 (entry_of (all_nodes (parsed tree_text)) base_path)
          (visited (parsed tree_text)) paths.
Proof.
  intros Hp. destruct (root (parsed tree_text)) as [r|] eqn:Hr.
  - destruct (parsed_get_all_paths tree_text base_path frames r Hr) as [Hraise Hok].
    destruct (too_deep frames (all_nodes (parsed tree_text)) r).
    + rewrite Hraise in Hp by done. discriminate.
    + destruct (Hok eq_refl) as (paths' & Hp' & Hf). congruence.
  - unfold get_all_paths, visited in *. rewrite Hr in *. injection Hp as <-. constructor.
Qed.

(** ** The parent stack of the loop is the replayed one *)

Lemma stack_before_ext (nodes nodes' : list TreeNode) :
  forall i,
    (forall j, j < i -> depth <$> nodes !! j = depth <$> nodes' !! j) ->
    stack_before nodes i = stack_before nodes' i.
Proof.
  induction i as [|i IH]; intros H; [done|]. cbn [stack_before].
  rewrite IH by (intros j Hj; apply H; lia).
  specialize (H i (Nat.lt_succ_diag_r i)).
  destruct (nodes !! i), (nodes' !! i); simpl in H; try done. congruence.
Qed.

Lemma link_fields (node : nat) (par : option nat) (nodes : list TreeNode) (j : nat) :
  depth <$> link node par nodes !! j = depth <$> nodes !! j /\
  parent <$> link node par nodes !! j =
    if decide (j = node)
    then (fun y => match par with Some p => Some p | None => parent y end) <$> nodes !! j
    else parent <$> nodes !! j.
Proof.
  destruct par as [p|]; cbn [link].
  - rewrite !list_lookup_alter.
    destruct (decide (p = j)) as [->|], (decide (node = j)) as [->|];
      try rewrite decide_True by done; try rewrite decide_False by done;
      destruct (nodes !! j); done.
  - destruct (decide (j = node)); [|done]. by destruct (nodes !! j).
Qed.

Lemma stack_before_snoc (nodes : list TreeNode) (n : TreeNode) (i : nat) :
  i <= length nodes -> stack_before (nodes ++ [n]) i = stack_before nodes i.
Proof.
  intros Hi. apply stack_before_ext. intros j Hj. by rewrite lookup_app_l by lia.
Qed.

Lemma stack_before_link (node : nat) (par : option nat) (nodes : list TreeNode) (i : nat) :
  stack_before (link node par nodes) i = stack_before nodes i.
Proof. apply stack_before_ext. intros j _. apply link_fields. Qed.

Lemma replayed_first (n : TreeNode) : parent n = None -> replayed [n] [0].
Proof.
  intros Hp. split; [done|]. intros [|i] x Hx; simpl in Hx; [|done].
  injection Hx as <-. simpl. by rewrite take_nil.
Qed.

Lemma replayed_next (nodes : list TreeNode) (stack : list nat) (n : TreeNode) :
  nodes <> [] -> replayed nodes stack -> parent n = None ->
  replayed (link (length nodes) (last (take (depth n) stack)) (nodes ++ [n]))
           (take (depth n) stack ++ [length nodes]).
Proof.
  intros Hne [Hs Hpar] Hp.
  assert (length nodes <> 0) as Hlen by (by destruct nodes).
  set (par := last (take (depth n) stack)).
  split.
  - rewrite link_length, length_app. simpl length.
    replace (length nodes + 1) with (S (length nodes)) by lia.
    cbn [stack_before].
    destruct (link_fields (length nodes) par (nodes ++ [n]) (length nodes)) as [Hd _].
    rewrite lookup_app_r, Nat.sub_diag in Hd by lia. simpl in Hd.
    destruct (link _ _ _ !! length nodes) as [x|]; [|done].
    injection Hd as Hd. rewrite Hd, stack_before_link, stack_before_snoc by lia.
    rewrite <- Hs. unfold push. by rewrite (proj2 (Nat.eqb_neq _ _) Hlen).
  - intros i x Hx. rewrite stack_before_link.
    destruct (link_fields (length nodes) par (nodes ++ [n]) i) as [Hd Hq].
    rewrite Hx in Hd, Hq. simpl in Hd, Hq.
    destruct (decide (i = length nodes)) as [->|Hi].
    + rewrite lookup_app_r, Nat.sub_diag in Hd, Hq by lia. simpl in Hd, Hq.
      injection Hd as ->. injection Hq as ->.
      rewrite stack_before_snoc, <- Hs by lia. fold par.
      destruct par; [done|]. done.
    + assert (i < length nodes) as Hlt.
      { apply lookup_lt_Some in Hx. rewrite link_length, length_app in Hx.
        simpl in Hx. lia. }
      rewrite lookup_app_l in Hd, Hq by done.
      destruct (nodes !! i) as [y|] eqn:Hy; [|done]. simpl in Hd, Hq.
      injection Hd as ->. injection Hq as ->.
      rewrite stack_before_snoc by lia. by apply Hpar.
Qed.

Lemma place_replayed (line_num : nat) (n : TreeNode) (st : TreeParser * list nat) :
  inv line_num st -> replayed (all_nodes st.1) st.2 -> parent n = None ->
  replayed (all_nodes (place line_num n st).1) (place line_num n st).2.
Proof.
  intros I R Hp. destruct (decide (all_nodes st.1 = [])) as [E|E].
  - rewrite place_first by done. by apply replayed_first.
  - rewrite place_next by done. cbn [fst snd all_nodes]. by apply replayed_next.
Qed.

Lemma run_replayed (lines : list str) :
  forall (line_num : nat) (st : TreeParser * list nat),
    inv line_num st -> replayed (all_nodes st.1) st.2 ->
    let st' := run line_num lines st in replayed (all_nodes st'.1) st'.2.
Proof.
  induction lines as [|line rest IH]; intros ln st I R; cbn [run]; [done|].
  destruct (named line).
  - apply IH.
    + by apply place_inv.
    + by apply place_replayed.
  - apply IH; [by eapply inv_later|done].
Qed.

(** After [parse], whatever the text: the parent of every node is the
    top of the stack that the pops for the node left. *)
Lemma parsed_replayed (tree_text : str) (i : nat) (n : TreeNode) :
  all_nodes (parsed tree_text) !! i = Some n ->
  parent n =
    last (take (depth n) (stack_before (all_nodes (parsed tree_text)) i)).
Proof.
  apply (run_replayed (split_nl (strip tree_text)) 0 (__init__, []) inv_init).
  split; [done|]. intros j x Hx. done.
Qed.

(** Before a node is placed the node before it is on top of the stack,
    and the stack is no higher than that node is deep, plus 1. *)
Lemma stack_before_top (nodes : list TreeNode) (i : nat) (prev : TreeNode) :
  nodes !! i = Some prev ->
  last (stack_before nodes (S i)) = Some i /\
  length (stack_before nodes (S i)) <= S (depth prev).
Proof.
  intros Hi. cbn [stack_before]. rewrite Hi. unfold push.
  destruct (i =? 0); [simpl; split; [done|lia]|].
  rewrite last_snoc, length_app, length_take. simpl. split; [done|lia].
Qed.

Lemma parsed_child_of_previous (tree_text : str) (i : nat) (prev node : TreeNode) :
  all_nodes (parsed tree_text) !! i = Some prev ->
  all_nodes (parsed tree_text) !! S i = Some node ->
  depth prev < depth node ->
  parent node = Some i.
Proof.
  intros Hi Hs Hd. rewrite (parsed_replayed _ _ _ Hs).
  destruct (stack_before_top _ _ _ Hi) as [Htop Hlen].
  rewrite take_ge by lia. done.
Qed.

Lemma entries_depths (lines : list str) :
  depth <$> entries lines = line_depth <$> List.filter named lines.
Proof.
  induction lines as [|line rest IH]; [done|]. cbn [entries List.filter].
  destruct (named line); [|done]. cbn [fmap list_fmap]. simpl. by rewrite <- IH.
Qed.

(** Every node keeps the depth that [_parse_line] computed for its line. *)
Lemma parsed_depths (tree_text : str) :
  depth <$> all_nodes (parsed tree_text) =
  line_depth <$> List.filter named (split_nl (strip tree_text)).
Proof.
  rewrite <- entries_depths. pose proof (parsed_info tree_text) as H.
  apply (f_equal (fmap (fun x : str * bool * nat => x.2))) in H.
  rewrite <- !list_fmap_compose in H. exact H.
Qed.

(** ** Names without their trailing slashes *)

Lemma lstrip_with_prefix (p : N -> bool) (s : str) :
  exists pre, s = pre ++ lstrip_with p s /\ forallb p pre = true.
Proof.
  induction s as [|c s (pre & IH & Hp)]; [by exists []|]. simpl.
  destruct (p c) eqn:Hc.
  - exists (c :: pre). simpl. rewrite Hc. split; [by f_equal|done].
  - by exists [].
Qed.

Lemma rev_replicate {A : Type} (k : nat) (x : A) : rev (replicate k x) = replicate k x.
Proof.
  induction k as [|k IH]; [done|]. simpl. rewrite IH. clear IH.
  induction k as [|k IH]; [done|]. simpl. by rewrite IH.
Qed.

Lemma forallb_replicate (x : N) (l : str) :
  forallb (N.eqb x) l = true -> l = replicate (length l) x.
Proof.
  induction l as [|c l IH]; cbn [forallb length replicate]; [done|].
  intros [Hc Hl]%andb_prop. apply N.eqb_eq in Hc. subst c. f_equal. by apply IH.
Qed.

(** [rstrip('/')] removes slashes at the end and nothing else. *)
Lemma rstrip_slash_suffix (s : str) :
  exists k, s = rstrip_slash s ++ replicate k SLASH.
Proof.
  unfold rstrip_slash, rstrip_with.
  destruct (lstrip_with_prefix (N.eqb SLASH) (rev s)) as (pre & Hs & Hp).
  exists (length pre).
  apply (f_equal (@rev N)) in Hs. rewrite rev_involutive, rev_app_distr in Hs.
  rewrite Hs at 1. f_equal.
  rewrite (forallb_replicate _ _ Hp) at 1. apply rev_replicate.
Qed.

Lemma entries_names (lines : list str) :
  name <$> entries lines =
  (fun line => rstrip_slash (line_name line)) <$> List.filter named lines.
Proof.
  induction lines as [|line rest IH]; [done|]. cbn [entries List.filter].
  destruct (named line); [|done]. cbn [fmap list_fmap]. simpl.
  by rewrite <- IH, node_name_rstrip.
Qed.

Lemma parsed_names (tree_text : str) :
  name <$> all_nodes (parsed tree_text) =
  (fun line => rstrip_slash (line_name line))
    <$> List.filter named (split_nl (strip tree_text)).
Proof.
  rewrite <- entries_names. pose proof (parsed_info tree_text) as H.
  apply (f_equal (fmap (fun x : str * bool * nat => x.1.1))) in H.
  rewrite <- !list_fmap_compose in H. exact H.
Qed.

(** * The claims *)

(** C7, as stated, fails on the input that is the single line
    [TREE_VERTICAL]: [_parse_line] gives that line the empty name, but
    [parse] trims the text first, the trimmed line no longer carries the
    token, and a root is returned. *)
Lemma parse_bare_vertical_token : ~ null_iff_no_named_line TREE_VERTICAL.
Proof.
  intros H. destruct (H _ _ (parse_eq _ _)) as [_ Hn].
  assert (Forall (fun line => named line = false) (split_nl TREE_VERTICAL)) as Hall.
  { vm_compute. repeat constructor. }
  apply Hn in Hall. vm_compute in Hall. discriminate.
Qed.

(** C7 (amended).  [parse] raises no exception and always returns; it
    returns [None] exactly when the text is empty or made of white space
    only, which is also exactly when no line of the trimmed text
    ([tree_text.strip().split('\n')], the lines that [parse] looks at)
    is both non-blank and named.  On every other text it returns a
    root. *)
Theorem parse_none_iff_blank (self : TreeParser) (tree_text : str) :
  exists r self',
    parse self tree_text = Ok (r, self') /\
    (r = None <-> forallb isspace tree_text = true) /\
    (r = None <->
     Forall (fun line => named line = false) (split_nl (strip tree_text))).
Proof.
  exists (root (parsed tree_text)), (parsed tree_text).
  split; [apply parse_eq|].
  rewrite parsed_root_none, parsed_nodes_nil. split.
  - apply strip_nil.
  - rewrite <- entries_nil_iff_blank. apply entries_nil.
Qed.

(** C10.  On a parser object on which [parse] has not succeeded,
    [get_all_paths] returns the empty list for every base path and
    [get_summary] returns zeros; neither raises, however few frames the
    interpreter has left. *)
Theorem queries_without_tree (self : TreeParser) (base_path : str) (frames : nat) :
  not_succeeded self ->
  get_all_paths frames self base_path = Ok [] /\ get_summary self = mkSummary 0 0 0.
Proof.
  intros [->|(self0 & tree_text & Hp)]; [done|].
  rewrite parse_eq in Hp. injection Hp as Hr Hs. subst self.
  pose proof (proj1 (parsed_root_none tree_text) Hr) as Hn.
  unfold get_all_paths, get_summary. by rewrite Hr, Hn.
Qed.

Lemma queries_without_tree_witness :
  not_succeeded (parsed (py_str "  ")) /\
  get_all_paths 0 (parsed (py_str "  ")) (py_str "/tmp") = Ok [] /\
  get_summary (parsed (py_str "  ")) = mkSummary 0 0 0.
Proof.
  assert (not_succeeded (parsed (py_str "  "))) as H.
  { right. exists __init__, (py_str "  "). vm_compute. reflexivity. }
  split; [exact H|]. exact (queries_without_tree _ _ 0 H).
Defined.

(** C1: the code scans a line as the claim says, but not with the
    tokens of the claim.  [_parse_line] returns, for every line, what the
    scan gives with the four strings of src/const.py.  With the
    connectors (U+251C U+2500 U+2500 SPACE, U+2514 U+2500 U+2500 SPACE,
    U+2502 and three spaces) the scan gives the line "[BOX_BRANCH]a" the
    depth 1 and the name "a", and nothing else; [_parse_line] finds no
    marker in that line and returns depth 0 with the whole line as the
    name, and likewise for the other two connectors. *)
Theorem parse_line_misses_box_connectors :
  (forall line, exists d n,
      _parse_line line = Ok (d, n) /\
      scan TREE_BRANCH TREE_LAST TREE_VERTICAL TREE_SPACE line 0 (d, n)) /\
  (forall res,
      scan BOX_BRANCH BOX_LAST BOX_VERTICAL TREE_SPACE (BOX_BRANCH ++ py_str "a") 0 res
      <-> res = (1, py_str "a")) /\
  _parse_line (BOX_BRANCH ++ py_str "a") = Ok (0, BOX_BRANCH ++ py_str "a") /\
  _parse_line (BOX_LAST ++ py_str "a") = Ok (0, BOX_LAST ++ py_str "a") /\
  _parse_line (BOX_VERTICAL ++ BOX_BRANCH ++ py_str "a")
    = Ok (0, BOX_VERTICAL ++ BOX_BRANCH ++ py_str "a").
Proof.
  split; [|split].
  - intros line.
    destruct (_parse_line_loop_scan (length line) line 0 0) as (d & n & Hr & Hs); [lia|].
    exists d, n. split; [exact Hr|exact Hs].
  - assert (scan BOX_BRANCH BOX_LAST BOX_VERTICAL TREE_SPACE
                 (BOX_BRANCH ++ py_str "a") 0 (1, py_str "a")) as Hbox
      by exact (scan_marker BOX_BRANCH BOX_LAST BOX_VERTICAL TREE_SPACE
                  (BOX_BRANCH ++ py_str "a") 0 BOX_BRANCH ltac:(discriminate) eq_refl).
    intros res. split.
    + intros Hres. exact (scan_functional _ _ _ _ _ _ _ _ Hres Hbox).
    + intros ->. exact Hbox.
  - repeat split; vm_compute; reflexivity.
Qed.

(** C2: on the line "src" followed by the branch connector and
    "main.ext", the code classifies "src" as a file: the second line is
    given depth 0, because the connector is not the string that
    src/const.py holds.  The examples of the claim without a connector
    come out as claimed: "lib/" alone is the directory "lib", and
    "README.md" before a sibling is a file. *)
Theorem src_before_box_child_is_file :
  (exists self',
      parse __init__ src_then_box_child = Ok (Some 0, self') /\
      info <$> all_nodes self' !! 0 = Some (py_str "src", false, 0) /\
      line_depth (BOX_BRANCH ++ py_str "main.ext") = 0) /\
  info <$> all_nodes (parsed (py_str "lib/")) = [(py_str "lib", true, 0)] /\
  info <$> all_nodes (parsed (py_str "README.md" ++ NL ++ py_str "LICENSE")) !! 0
    = Some (py_str "README.md", false, 0).
Proof.
  split; [eexists|]; repeat split; vm_compute; reflexivity.
Qed.

(** C8: on scenario 1 drawn with the connectors the code builds four
    nodes at depth 0, none of them a child of the root, and keeps the
    connectors in the names; [get_all_paths] lists the root alone (one
    activation of [_collect_paths] is all it takes); the summary is 4,
    2, 2 all the same. *)
Theorem scenario1_box_is_flat :
  exists self',
    parse __init__ scenario1_box = Ok (Some 0, self') /\
    children <$> all_nodes self' = [[]; []; []; []] /\
    parent <$> all_nodes self' = [None; None; None; None] /\
    info <$> all_nodes self' =
      [(py_str "project", true, 0);
       (BOX_BRANCH ++ py_str "src", true, 0);
       (BOX_VERTICAL ++ BOX_LAST ++ py_str "main.py", false, 0);
       (BOX_LAST ++ py_str "README.md", false, 0)] /\
    (forall frames, get_all_paths (S frames) self' [] = Ok [(py_str "project", true)]) /\
    get_summary self' = mkSummary 4 2 2.
Proof. eexists. repeat split; vm_compute; reflexivity. Qed.

(** Scenario 1 drawn with the strings of src/const.py gives the tree that
    the specification describes. *)
Lemma scenario1_const_tree :
  parse __init__ scenario1_const =
  Ok (Some 0,
      {| root := Some 0;
         all_nodes :=
           [mkTreeNode (py_str "project") true 0 [1; 3] None;
            mkTreeNode (py_str "src") true 1 [2] (Some 0);
            mkTreeNode (py_str "main.py") false 2 [] (Some 1);
            mkTreeNode (py_str "README.md") false 1 [] (Some 0)] |}) /\
  get_summary (parsed scenario1_const) = mkSummary 4 2 2.
Proof. split; vm_compute; reflexivity. Qed.

(** C3, as stated, fails on a first line that starts with a marker: the
    root keeps the depth 1 that [_parse_line] computed. *)
Lemma root_of_marked_first_line : ~ root_at_depth_0 marked_first_line.
Proof.
  intros H.
  edestruct (H 0) as [Hd _]; [vm_compute; reflexivity | vm_compute; reflexivity |].
  discriminate.
Qed.

(** C3 (amended).  When [parse] returns a root, the root is the node of
    the first line of the trimmed text that is named (not blank, with a
    non-empty name); it has no parent, and its depth is the depth that
    [_parse_line] computes for that line, which is 0 when the line
    carries no marker. *)
Theorem root_is_first_named_line (self : TreeParser) (tree_text : str)
    (r : nat) (self' : TreeParser) :
  parse self tree_text = Ok (Some r, self') ->
  exists pre line rest node,
    split_nl (strip tree_text) = pre ++ line :: rest /\
    Forall (fun l => named l = false) pre /\ named line = true /\
    all_nodes self' !! r = Some node /\
    parent node = None /\
    name node = node_name line /\
    depth node = line_depth line.
Proof.
  rewrite parse_eq. intros H. injection H as Hr <-.
  destruct (parsed_inv tree_text) as (Hroot & stack & W). rewrite Hr in Hroot.
  destruct (all_nodes (parsed tree_text)) as [|node nodes] eqn:E; [done|].
  simpl in Hroot. injection Hroot as ->.
  assert (all_nodes (parsed tree_text) !! 0 = Some node) as H0 by (by rewrite E).
  destruct (parsed_lookup _ _ _ H0) as (e & He & Hinfo).
  destruct (entries_lookup_inv _ _ _ He) as (pre & line & rest & Hl & Hpre & Hn & ->).
  exists pre, line, rest, node. rewrite <- E. repeat split; try done.
  - by apply sum_ones_0.
  - apply (wf_orphan _ _ W 0 node eq_refl). by left.
  - unfold info in Hinfo. simpl in Hinfo. congruence.
  - unfold info in Hinfo. simpl in Hinfo. congruence.
Qed.

Lemma root_is_first_named_line_witness :
  parse __init__ marked_first_line = Ok (Some 0, parsed marked_first_line) /\
  exists pre line rest node,
    split_nl (strip marked_first_line) = pre ++ line :: rest /\
    Forall (fun l => named l = false) pre /\ named line = true /\
    all_nodes (parsed marked_first_line) !! 0 = Some node /\
    parent node = None /\
    name node = node_name line /\
    depth node = line_depth line.
Proof.
  assert (parse __init__ marked_first_line = Ok (Some 0, parsed marked_first_line)) as H
    by (vm_compute; reflexivity).
  split; [exact H|]. exact (root_is_first_named_line _ _ _ _ H).
Defined.

(** C6, as stated, fails when a line that is not blank but yields no
    name follows: "a", then a line that is only [TREE_VERTICAL], then a
    branch line "b" at depth 1.  The look-ahead from "a" stops at the
    second line, whose depth is 0, and "a" is classified as a file; the
    depth of the next named line is 1. *)
Lemma look_ahead_stops_at_unnamed_line : ~ look_ahead_skips_unnamed unnamed_line_between.
Proof.
  intros H.
  pose proof (H [] (py_str "a") [TREE_VERTICAL; TREE_BRANCH ++ py_str "b"]
                (Some 0) (parsed unnamed_line_between)) as Hd.
  assert (exists node,
             all_nodes (parsed unnamed_line_between) !! 0 = Some node /\
             is_directory node = false) as (node & Hn & Hf)
    by (eexists; split; vm_compute; reflexivity).
  specialize (Hd node). rewrite Hf in Hd.
  assert (match next_named [TREE_VERTICAL; TREE_BRANCH ++ py_str "b"] with
          | Some look => line_depth (py_str "a") <? line_depth look
          | None => false
          end = true) as Hm by (vm_compute; reflexivity).
  rewrite Hm in Hd.
  assert (false = true) as Hx; [|discriminate].
  apply Hd; [vm_compute; reflexivity..|exact Hn].
Qed.

(** C6 (amended).  For a named line without a trailing slash, the
    look-ahead skips the blank lines only and stops at the next line
    that is not blank, also when that line yields an empty name; the
    node is a directory exactly when such a line exists and the depth
    [_parse_line] computes for it is greater than the depth of the
    line.  So blank lines in between never change the classification. *)
Theorem look_ahead_stops_at_next_nonblank (self : TreeParser) (tree_text : str)
    (pre : list str) (line : str) (rest : list str) :
  split_nl (strip tree_text) = pre ++ line :: rest ->
  named line = true ->
  endswith (line_name line) [SLASH] = false ->
  look_ahead rest = Ok (line_depth <$> next_nonblank rest) /\
  exists r self' node,
    parse self tree_text = Ok (r, self') /\
    all_nodes self' !! sum_ones named pre = Some node /\
    name node = line_name line /\
    depth node = line_depth line /\
    is_directory node =
      match next_nonblank rest with
      | Some look => line_depth line <? line_depth look
      | None => false
      end.
Proof.
  intros Hl Hn Hs. split; [apply look_ahead_ok|].
  destruct (node_of_named_line _ _ _ _ Hl Hn) as (node & Hnode & Hinfo).
  exists (root (parsed tree_text)), (parsed tree_text), node.
  split; [apply parse_eq|]. split; [done|].
  unfold info, new_node, node_name, node_is_directory in Hinfo.
  rewrite Hs in Hinfo. simpl in Hinfo. injection Hinfo as -> -> ->. done.
Qed.

Lemma look_ahead_stops_at_next_nonblank_witness :
  split_nl (strip unnamed_line_between) =
    [] ++ py_str "a" :: [TREE_VERTICAL; TREE_BRANCH ++ py_str "b"] /\
  named (py_str "a") = true /\
  endswith (line_name (py_str "a")) [SLASH] = false /\
  look_ahead [TREE_VERTICAL; TREE_BRANCH ++ py_str "b"] =
    Ok (line_depth <$> next_nonblank [TREE_VERTICAL; TREE_BRANCH ++ py_str "b"]) /\
  exists r self' node,
    parse __init__ unnamed_line_between = Ok (r, self') /\
    all_nodes self' !! sum_ones named [] = Some node /\
    name node = line_name (py_str "a") /\
    depth node = line_depth (py_str "a") /\
    is_directory node =
      match next_nonblank [TREE_VERTICAL; TREE_BRANCH ++ py_str "b"] with
      | Some look => line_depth (py_str "a") <? line_depth look
      | None => false
      end.
Proof.
  assert (split_nl (strip unnamed_line_between) =
          [] ++ py_str "a" :: [TREE_VERTICAL; TREE_BRANCH ++ py_str "b"]) as H1
    by (vm_compute; reflexivity).
  assert (named (py_str "a") = true) as H2 by (vm_compute; reflexivity).
  assert (endswith (line_name (py_str "a")) [SLASH] = false) as H3
    by (vm_compute; reflexivity).
  split; [exact H1|]. split; [exact H2|]. split; [exact H3|].
  exact (look_ahead_stops_at_next_nonblank __init__ _ _ _ _ H1 H2 H3).
Defined.

(** C9, as stated, fails on the one-line input "a/b": the name is
    stored as it is, with the slash inside. *)
Lemma names_with_slashes : ~ names_are_bare (py_str "a/b").
Proof.
  intros H.
  edestruct (H (Some 0) (parsed (py_str "a/b"))) as [_ Hs];
    [vm_compute; reflexivity | vm_compute; constructor |].
  apply Hs. vm_compute. repeat constructor.
Qed.

(** What the amended C9 leaves out.  The test [if not name] of line 72
    comes before [name.rstrip('/')] of line 80, so a line whose extracted
    name is made of slashes only passes the test and gives a node with
    the empty name, which [get_all_paths] lists as the base path with a
    slash at its end. *)
Lemma slash_only_line_gives_empty_name :
  info <$> all_nodes (parsed (py_str "/")) = [([], true, 0)] /\
  get_all_paths 1 (parsed (py_str "/")) (py_str "out") = Ok [(py_str "out/", true)].
Proof. split; vm_compute; reflexivity. Qed.

(** C9 (amended).  On a text in which no named line has an extracted
    name made of slashes only, the nodes are those of the named lines,
    one for each and in their order (a blank line and a line whose
    extracted name is empty give no node), and the name stored in a node
    is the extracted name of its line without its trailing slashes: the
    extracted name is the stored name followed by slashes only, so the
    slashes inside are kept, and the stored name is not empty and does
    not end in a slash. *)
Theorem stored_names (self : TreeParser) (tree_text : str)
    (r : option nat) (self' : TreeParser) :
  parse self tree_text = Ok (r, self') ->
  no_slash_only (split_nl (strip tree_text)) ->
  Forall2 (fun node line =>
             name node = rstrip_slash (line_name line) /\
             (exists k, line_name line = name node ++ replicate k SLASH) /\
             name node <> [] /\
             endswith (name node) [SLASH] = false)
          (all_nodes self') (List.filter named (split_nl (strip tree_text))).
Proof.
  rewrite parse_eq. intros H Hno. injection H as _ <-.
  pose proof (parsed_names tree_text) as Hnames.
  apply Forall2_same_length_lookup. split.
  { apply (f_equal length) in Hnames. by rewrite !length_fmap in Hnames. }
  intros i node line Hi Hl.
  assert (name node = rstrip_slash (line_name line)) as Hname.
  { apply (f_equal (fun l => l !! i)) in Hnames.
    rewrite !list_lookup_fmap, Hi, Hl in Hnames. simpl in Hnames. congruence. }
  apply list_elem_of_lookup_2, list_elem_of_In, filter_In in Hl as [Hin Hn].
  apply list_elem_of_In in Hin.
  split; [done|]. split; [|split].
  - destruct (rstrip_slash_suffix (line_name line)) as [k Hk]. exists k. by rewrite Hname.
  - rewrite Hname. apply rstrip_slash_nonempty. by apply Hno.
  - rewrite Hname. apply endswith_rstrip_slash.
Qed.

Lemma stored_names_witness :
  parse __init__ (py_str "a/b//") = Ok (Some 0, parsed (py_str "a/b//")) /\
  no_slash_only (split_nl (strip (py_str "a/b//"))) /\
  Forall2 (fun node line =>
             name node = rstrip_slash (line_name line) /\
             (exists k, line_name line = name node ++ replicate k SLASH) /\
             name node <> [] /\
             endswith (name node) [SLASH] = false)
          (all_nodes (parsed (py_str "a/b//")))
          (List.filter named (split_nl (strip (py_str "a/b//")))).
Proof.
  assert (parse __init__ (py_str "a/b//") = Ok (Some 0, parsed (py_str "a/b//"))) as H1
    by (vm_compute; reflexivity).
  assert (no_slash_only (split_nl (strip (py_str "a/b//")))) as H2.
  { intros line Hin _. vm_compute in Hin. apply list_elem_of_singleton in Hin.
    subst line. exists 0x61%N. split; [vm_compute; constructor|discriminate]. }
  split; [exact H1|]. split; [exact H2|].
  exact (stored_names _ _ _ _ H1 H2).
Defined.







(** * Further properties *)

(** ** [_parse_line], through the scan *)

Lemma _parse_line_by_scan (line : str) (res : nat * str) :
  scan TREE_BRANCH TREE_LAST TREE_VERTICAL TREE_SPACE line 0 res ->
  _parse_line line = Ok res.
Proof.
  intros Hs.
  destruct (_parse_line_loop_scan (length line) line 0 0) as (d & n & Hr & Hs'); [lia|].
  unfold _parse_line. rewrite Hr. f_equal.
  exact (scan_functional _ _ _ _ _ _ _ _ Hs' Hs).
Qed.

Lemma startswith_head_ne (c p : N) (s prefix : str) :
  c <> p -> startswith (c :: s) (p :: prefix) = false.
Proof. intros H. simpl. by rewrite (proj2 (N.eqb_neq c p) H). Qed.

Lemma startswith_self_app (prefix s : str) : startswith (prefix ++ s) prefix = true.
Proof.
  induction prefix as [|p prefix IH]; simpl; [by destruct s|]. by rewrite N.eqb_refl, IH.
Qed.

Lemma forallb_drop {A : Type} (p : A -> bool) (k : nat) :
  forall l, forallb p l = true -> forallb p (drop k l) = true.
Proof.
  induction k as [|k IH]; intros [|a l] H; simpl in *; try done.
  apply andb_prop in H as [_ H]. by apply IH.
Qed.

Lemma scan_blank (n : nat) :
  forall (rest : str) (consumed : nat),
    length rest <= n -> forallb isspace rest = true ->
    scan TREE_BRANCH TREE_LAST TREE_VERTICAL TREE_SPACE rest consumed (0, []).
Proof.
  induction n as [|n IH]; intros rest consumed Hn Hw.
  - destruct rest; [constructor|simpl in Hn; lia].
  - destruct rest as [|c rest]; [constructor|].
    simpl in Hw. apply andb_prop in Hw as [Hc Hw]. simpl in Hn.
    assert (Hne : c <> 0x201A%N) by (intros ->; done).
    assert (Hm : marker_at TREE_BRANCH TREE_LAST (c :: rest) = None).
    { unfold marker_at, TREE_BRANCH, TREE_LAST. by rewrite !startswith_head_ne. }
    assert (Hv : startswith (c :: rest) TREE_VERTICAL = false)
      by (unfold TREE_VERTICAL; by rewrite startswith_head_ne).
    destruct (startswith (c :: rest) TREE_SPACE) eqn:Hsp.
    { apply (scan_continuation _ _ _ _ _ _ TREE_SPACE); [done|done| |].
      - unfold continuation_at. by rewrite Hv, Hsp.
      - apply IH.
        + rewrite length_drop. simpl. lia.
        + apply forallb_drop. simpl. by rewrite Hc, Hw. }
    assert (Hcn : continuation_at TREE_VERTICAL TREE_SPACE (c :: rest) = None).
    { unfold continuation_at. by rewrite Hv, Hsp. }
    destruct (decide (c = SPACE)) as [->|Hs].
    { apply scan_space; [done..|]. apply IH; [lia|done]. }
    destruct (decide (c = TAB)) as [->|Ht].
    { apply scan_tab; [done..|]. apply IH; [lia|done]. }
    assert (strip (c :: rest) = []) as Hstrip.
    { apply strip_nil. simpl. by rewrite Hc, Hw. }
    rewrite <- Hstrip. by apply scan_name.
Qed.

(** X1.  On the empty line and on every line made of white space only
    (spaces, tabs, any other character that [strip] removes)
    [_parse_line] returns depth 0 and the empty name, whatever the
    number of indentation tokens in the line. *)
Theorem parse_line_of_blank_line (line : str) :
  forallb isspace line = true -> _parse_line line = Ok (0, []).
Proof.
  intros Hw. apply _parse_line_by_scan. by apply (scan_blank (length line)).
Qed.

Lemma parse_line_of_blank_line_witness :
  forallb isspace (py_str "        ") = true /\
  _parse_line (py_str "        ") = Ok (0, []).
Proof.
  assert (forallb isspace (py_str "        ") = true) as H by (vm_compute; reflexivity).
  split; [exact H|]. exact (parse_line_of_blank_line _ H).
Defined.

Lemma rstrip_with_prefix (p : N -> bool) (s : str) :
  exists t, s = rstrip_with p s ++ t.
Proof.
  unfold rstrip_with.
  assert (forall l, exists t, l = t ++ lstrip_with p l) as Hsuf.
  { induction l as [|a l [t Ht]]; simpl; [by exists []|].
    destruct (p a); [|by exists []]. exists (a :: t). simpl. by f_equal. }
  destruct (Hsuf (rev s)) as [t Ht]. exists (rev t).
  rewrite <- rev_app_distr, <- Ht. by rewrite rev_involutive.
Qed.

(** What [strip] leaves neither starts nor ends with white space. *)
Lemma strip_ends (s : str) (c : N) :
  head (strip s) = Some c \/ last (strip s) = Some c -> isspace c = false.
Proof.
  intros [Hh|Hl].
  - unfold strip in Hh. destruct (rstrip_with_prefix isspace (lstrip_with isspace s)) as [t Ht].
    destruct (rstrip_with isspace (lstrip_with isspace s)) as [|a r]; [done|].
    simpl in Hh. injection Hh as ->. simpl in Ht. by apply lstrip_with_head in Ht.
  - destruct (strip_last_nonspace s) as [E|(c' & Hc' & Hs)]; [by rewrite E in Hl|].
    congruence.
Qed.

Lemma strip_idemp (s : str) : strip (strip s) = strip s.
Proof.
  destruct (strip s) as [|c r] eqn:E; [done|].
  assert (isspace c = false) as Hc by (apply (strip_ends s); left; by rewrite E).
  destruct (strip_last_nonspace s) as [E'|(c' & Hl & Hs)]; [congruence|].
  rewrite E in Hl. unfold strip at 1. cbn [lstrip_with]. rewrite Hc.
  by apply (rstrip_with_last _ _ c').
Qed.

Lemma scan_name_stripped (rest : str) (consumed : nat) (res : nat * str) :
  scan TREE_BRANCH TREE_LAST TREE_VERTICAL TREE_SPACE rest consumed res ->
  exists x, res.2 = strip x.
Proof.
  induction 1; simpl; eauto. by exists [].
Qed.

(** X2.  The name that [_parse_line] returns is trimmed: it neither
    starts nor ends with a white space character, and trimming it again
    changes nothing. *)
Theorem parse_line_name_is_trimmed (line : str) :
  exists d n,
    _parse_line line = Ok (d, n) /\
    strip n = n /\
    forall c, head n = Some c \/ last n = Some c -> isspace c = false.
Proof.
  destruct (_parse_line_loop_scan (length line) line 0 0) as (d & n & Hr & Hs); [lia|].
  exists d, n. split; [unfold _parse_line; by rewrite Hr|].
  destruct (scan_name_stripped _ _ _ Hs) as [x Hx]. simpl in Hx. subst n.
  split; [apply strip_idemp|apply strip_ends].
Qed.

Lemma scan_depth_0 (rest : str) (consumed : nat) (res : nat * str) :
  scan TREE_BRANCH TREE_LAST TREE_VERTICAL TREE_SPACE rest consumed res ->
  (forall k, marker_at TREE_BRANCH TREE_LAST (drop k rest) = None) ->
  res.1 = 0.
Proof.
  induction 1 as [c|r c m Hne Hm|r c t res Hne Hm Ht H IH|r c res Hm Ht H IH
                  |r c res Hm Ht H IH|a r c Hm Ht Ha1 Ha2]; intros Hno; simpl; try done.
  - specialize (Hno 0). rewrite drop_0 in Hno. congruence.
  - apply IH. intros k. rewrite drop_drop. apply Hno.
  - apply IH. intros k. apply (Hno (S k)).
  - apply IH. intros k. apply (Hno (S k)).
Qed.

(** X3.  A line in which neither marker occurs at any position gets
    depth 0, however it is indented: the indentation tokens that the
    scan counted are dropped when the scan ends without a marker. *)
Theorem parse_line_without_marker (line : str) :
  (forall pos, startswith (drop pos line) TREE_BRANCH = false /\
               startswith (drop pos line) TREE_LAST = false) ->
  _parse_line line = Ok (0, line_name line).
Proof.
  intros Hno.
  destruct (_parse_line_loop_scan (length line) line 0 0) as (d & n & Hr & Hs); [lia|].
  rewrite drop_0 in Hs.
  assert (d = 0) as ->.
  { apply (scan_depth_0 _ _ _ Hs). intros k. unfold marker_at.
    destruct (Hno k) as [-> ->]. done. }
  unfold line_name, _parse_line. by rewrite Hr.
Qed.

Lemma parse_line_without_marker_witness :
  (forall pos, startswith (drop pos (py_str "    x")) TREE_BRANCH = false /\
               startswith (drop pos (py_str "    x")) TREE_LAST = false) /\
  _parse_line (py_str "    x") = Ok (0, line_name (py_str "    x")).
Proof.
  assert (forall pos, startswith (drop pos (py_str "    x")) TREE_BRANCH = false /\
                      startswith (drop pos (py_str "    x")) TREE_LAST = false) as H.
  { intros pos. do 6 (destruct pos as [|pos]; [split; reflexivity|]).
    split; reflexivity. }
  split; [exact H|]. exact (parse_line_without_marker _ H).
Defined.

Lemma scan_rendered (tokens : list str) (marker name : str) :
  Forall (fun t => t = TREE_VERTICAL \/ t = TREE_SPACE) tokens ->
  marker = TREE_BRANCH \/ marker = TREE_LAST ->
  forall consumed,
    scan TREE_BRANCH TREE_LAST TREE_VERTICAL TREE_SPACE
         (concat tokens ++ marker ++ name) consumed
         (consumed + length tokens + 1, strip name).
Proof.
  intros Ht Hm. induction Ht as [|t tokens Htok _ IH]; intros consumed.
  - simpl. rewrite Nat.add_0_r.
    replace (strip name) with (strip (drop (length marker) (marker ++ name)))
      by (by rewrite drop_app_length).
    apply scan_marker.
    + destruct Hm as [-> | ->]; done.
    + unfold marker_at. destruct Hm as [-> | ->].
      * by rewrite startswith_self_app.
      * rewrite startswith_self_app. done.
  - rewrite concat_cons, <- app_assoc.
    apply (scan_continuation _ _ _ _ _ _ t).
    + destruct Htok as [-> | ->]; done.
    + destruct Htok as [-> | ->]; done.
    + unfold continuation_at. destruct Htok as [-> | ->].
      * by rewrite startswith_self_app.
      * rewrite startswith_self_app. done.
    + rewrite drop_app_length.
      replace (consumed + length (t :: tokens) + 1)
        with (consumed + 1 + length tokens + 1) by (simpl; lia).
      apply IH.
Qed.

(** X4.  A line as a tree listing draws it with the tokens of
    src/const.py: any number of continuation tokens ([TREE_VERTICAL] or
    [TREE_SPACE], in any mix), then a marker ([TREE_BRANCH] or
    [TREE_LAST]), then the entry.  [_parse_line] returns the number of
    continuation tokens plus 1 as the depth and the trimmed entry as the
    name. *)
Theorem parse_line_of_rendered_line (tokens : list str) (marker name : str) :
  Forall (fun t => t = TREE_VERTICAL \/ t = TREE_SPACE) tokens ->
  marker = TREE_BRANCH \/ marker = TREE_LAST ->
  _parse_line (concat tokens ++ marker ++ name) = Ok (length tokens + 1, strip name).
Proof.
  intros Ht Hm. apply _parse_line_by_scan. exact (scan_rendered _ _ _ Ht Hm 0).
Qed.

Lemma parse_line_of_rendered_line_witness :
  Forall (fun t => t = TREE_VERTICAL \/ t = TREE_SPACE) [TREE_VERTICAL; TREE_SPACE] /\
  (TREE_LAST = TREE_BRANCH \/ TREE_LAST = TREE_LAST) /\
  _parse_line (concat [TREE_VERTICAL; TREE_SPACE] ++ TREE_LAST ++ py_str "main.py")
    = Ok (length [TREE_VERTICAL; TREE_SPACE] + 1, strip (py_str "main.py")).
Proof.
  assert (Forall (fun t => t = TREE_VERTICAL \/ t = TREE_SPACE)
                 [TREE_VERTICAL; TREE_SPACE]) as H1
    by (repeat constructor; auto).
  assert (TREE_LAST = TREE_BRANCH \/ TREE_LAST = TREE_LAST) as H2 by (by right).
  split; [exact H1|]. split; [exact H2|].
  exact (parse_line_of_rendered_line _ _ _ H1 H2).
Defined.

(** ** Blank lines and the state of the parser object *)

Lemma next_nonblank_filter (rest : list str) :
  next_nonblank (List.filter nonblank rest) = next_nonblank rest.
Proof.
  induction rest as [|look rest IH]; simpl; [done|]. unfold nonblank at 1.
  destruct (blank look) eqn:E; simpl; [done|]. by rewrite E.
Qed.

Lemma new_node_filter (line : str) (rest : list str) :
  new_node line (List.filter nonblank rest) = new_node line rest.
Proof. unfold new_node, node_is_directory. by rewrite next_nonblank_filter. Qed.

Lemma place_line_num (line_num line_num' : nat) (n : TreeNode)
    (st : TreeParser * list nat) :
  inv line_num st -> inv line_num' st -> place line_num n st = place line_num' n st.
Proof.
  intros I I'. destruct (all_nodes st.1) as [|x xs] eqn:E.
  - by rewrite !place_first.
  - rewrite !place_next; [done|done|by rewrite E|done|by rewrite E].
Qed.

Lemma run_filter (lines : list str) :
  forall (line_num line_num' : nat) (st : TreeParser * list nat),
    inv line_num st -> inv line_num' st ->
    run line_num lines st = run line_num' (List.filter nonblank lines) st.
Proof.
  induction lines as [|line rest IH]; intros ln ln' st I I'; [done|].
  cbn [run List.filter]. unfold nonblank at 1. unfold named.
  destruct (blank line) eqn:Hb; cbn [negb andb].
  - apply IH; [by eapply inv_later|done].
  - cbn [run]. unfold named. rewrite Hb. cbn [negb andb].
    rewrite new_node_filter. destruct (truthy (line_name line)).
    + rewrite (place_line_num ln ln') by done. apply IH; by apply place_inv.
    + apply IH; by eapply inv_later.
Qed.

(** X5.  The result of [parse] depends on the sequence of the non-blank
    lines of the trimmed text only: blank lines, wherever they are, change
    neither what is returned nor the parser object that is left, and the
    parser object that [parse] is called on does not matter either (each
    call replaces what an earlier call left). *)
Theorem parse_ignores_blank_lines (self1 self2 : TreeParser) (text1 text2 : str) :
  List.filter nonblank (split_nl (strip text1))
    = List.filter nonblank (split_nl (strip text2)) ->
  parse self1 text1 = parse self2 text2.
Proof.
  intros H. rewrite !parse_eq. unfold parsed.
  rewrite (run_filter (split_nl (strip text1)) 0 0 _ inv_init inv_init).
  rewrite (run_filter (split_nl (strip text2)) 0 0 _ inv_init inv_init).
  by rewrite H.
Qed.

Lemma parse_ignores_blank_lines_witness :
  List.filter nonblank (split_nl (strip (py_str "a" ++ NL ++ py_str "  " ++ NL ++ NL
                                         ++ TREE_BRANCH ++ py_str "b")))
    = List.filter nonblank (split_nl (strip (py_str "a" ++ NL ++ TREE_BRANCH ++ py_str "b"))) /\
  parse (parsed scenario1_const)
        (py_str "a" ++ NL ++ py_str "  " ++ NL ++ NL ++ TREE_BRANCH ++ py_str "b")
    = parse __init__ (py_str "a" ++ NL ++ TREE_BRANCH ++ py_str "b").
Proof.
  assert (List.filter nonblank
            (split_nl (strip (py_str "a" ++ NL ++ py_str "  " ++ NL ++ NL
                              ++ TREE_BRANCH ++ py_str "b")))
          = List.filter nonblank
              (split_nl (strip (py_str "a" ++ NL ++ TREE_BRANCH ++ py_str "b")))) as H
    by (vm_compute; reflexivity).
  split; [exact H|]. exact (parse_ignores_blank_lines _ _ _ _ H).
Defined.

(** ** The order of the children *)

Lemma children_increasing_next (nodes : list TreeNode) (stack : list nat)
    (n : TreeNode) (parent : option nat) :
  wf nodes stack -> children_increasing nodes -> children n = [] ->
  (forall p, parent = Some p -> p < length nodes) ->
  children_increasing (link (length nodes) parent (nodes ++ [n])).
Proof.
  intros W C Hc Hp.
  assert (Hlk : forall q x, (nodes ++ [n]) !! q = Some x ->
                (nodes !! q = Some x) \/ x = n).
  { intros q x Hx. destruct (decide (q < length nodes)).
    - rewrite lookup_app_l in Hx by done. auto.
    - rewrite lookup_app_r in Hx by lia.
      destruct (q - length nodes) as [|k]; simpl in Hx; [|done].
      injection Hx as <-. by right. }
  destruct parent as [p|]; [|cbn [link]].
  - specialize (Hp p eq_refl). intros q x i j a b Hx Hi Hj Hij.
    rewrite link_lookup in Hx by done.
    destruct (decide (q = length nodes)) as [->|Hq].
    { injection Hx as <-. simpl in Hi. by rewrite Hc in Hi. }
    destruct (decide (q = p)) as [->|Hqp]; [|by eapply C].
    destruct (nodes !! p) as [y|] eqn:Hy; [|done]. injection Hx as <-.
    simpl in Hi, Hj.
    destruct (decide (j < length (children y))) as [Hlt|Hge].
    + rewrite lookup_app_l in Hi, Hj by lia. by eapply (C p y i j).
    + rewrite lookup_app_r in Hj by lia.
      destruct (j - length (children y)) as [|k] eqn:Ej; simpl in Hj; [|done].
      injection Hj as <-. rewrite lookup_app_l in Hi by lia.
      apply list_elem_of_lookup_2 in Hi.
      destruct (wf_children _ _ W _ _ _ Hy Hi) as (_ & cn & Hcn & _).
      by eapply lookup_lt_Some.
  - intros q x i j a b Hx Hi Hj Hij. apply Hlk in Hx as [Hx| ->].
    + by eapply C.
    + by rewrite Hc in Hi.
Qed.

Lemma run_children_increasing (lines : list str) :
  forall (line_num : nat) (st : TreeParser * list nat),
    inv line_num st -> children_increasing (all_nodes st.1) ->
    children_increasing (all_nodes (run line_num lines st).1).
Proof.
  induction lines as [|line rest IH]; intros ln st I C; cbn [run]; [done|].
  destruct (named line).
  - apply IH; [by apply place_inv|].
    pose proof I as (_ & _ & W).
    destruct (all_nodes st.1) as [|x xs] eqn:E.
    + rewrite place_first by done. cbn [fst all_nodes].
      intros [|q] y i j a b Hy Hi; simpl in Hy; [|done]. by injection Hy as <-.
    + rewrite place_next by (by rewrite ?E). cbn [fst all_nodes]. rewrite <- E in *.
      eapply children_increasing_next; [done..|].
      intros p Hp. apply (wf_stack_bound _ _ W).
      apply last_Some in Hp as [l' Hl'].
      assert (p ∈ take (line_depth line) st.2) as Hin.
      { simpl in Hl'. rewrite Hl'. apply elem_of_app. right. apply list_elem_of_here. }
      apply elem_of_take in Hin as (k & Hk & _). by eapply list_elem_of_lookup_2.
  - apply IH; [by eapply inv_later|done].
Qed.

(** X6.  After [parse] the [children] list of every node holds exactly
    the nodes whose [parent] is that node, each later in the arena than
    the node itself, in increasing position: the children are in the
    order of their lines, and a node is a child of its parent only. *)
Theorem children_in_line_order (self : TreeParser) (tree_text : str)
    (r : option nat) (self' : TreeParser) (p : nat) (pn : TreeNode) :
  parse self tree_text = Ok (r, self') ->
  all_nodes self' !! p = Some pn ->
  (forall i j a b,
      children pn !! i = Some a -> children pn !! j = Some b -> i < j -> a < b) /\
  (forall c, c ∈ children pn <->
             exists cn, all_nodes self' !! c = Some cn /\ parent cn = Some p) /\
  (forall c, c ∈ children pn -> p < c).
Proof.
  rewrite parse_eq. intros H Hp. injection H as _ <-.
  destruct (parsed_inv tree_text) as (_ & stack & W).
  split; [|split].
  - assert (children_increasing (all_nodes (parsed tree_text))) as C.
    { apply (run_children_increasing _ 0 (__init__, []) inv_init).
      intros q y i j a b Hy. done. }
    intros i j a b. by apply (C p pn).
  - intros c. split.
    + intros Hc. by destruct (wf_children _ _ W _ _ _ Hp Hc) as (_ & H).
    + intros (cn & Hcn & Hpar).
      destruct (wf_parent _ _ W _ _ _ Hcn Hpar) as (_ & pn' & Hpn' & Hin). congruence.
  - intros c Hc. by destruct (wf_children _ _ W _ _ _ Hp Hc) as (H & _).
Qed.

Lemma children_in_line_order_witness :
  parse __init__ scenario1_const = Ok (Some 0, parsed scenario1_const) /\
  all_nodes (parsed scenario1_const) !! 0
    = Some (mkTreeNode (py_str "project") true 0 [1; 3] None) /\
  (forall i j a b,
      [1; 3] !! i = Some a -> [1; 3] !! j = Some b -> i < j -> a < b) /\
  (forall c, c ∈ [1; 3] <->
             exists cn, all_nodes (parsed scenario1_const) !! c = Some cn /\
                        parent cn = Some 0) /\
  (forall c, c ∈ [1; 3] -> 0 < c).
Proof.
  assert (parse __init__ scenario1_const = Ok (Some 0, parsed scenario1_const)) as H1
    by (vm_compute; reflexivity).
  assert (all_nodes (parsed scenario1_const) !! 0
          = Some (mkTreeNode (py_str "project") true 0 [1; 3] None)) as H2
    by (vm_compute; reflexivity).
  split; [exact H1|]. split; [exact H2|].
  exact (children_in_line_order _ _ _ _ _ _ H1 H2).
Defined.

(** ** Paths *)

Lemma get_full_path_loop_acc (nodes : list TreeNode) (fuel : nat) :
  forall (node : option nat) (pre parts : list str),
    get_full_path_loop fuel nodes node (pre ++ parts) =
    (let* l := get_full_path_loop fuel nodes node parts in Ok (pre ++ l)).
Proof.
  induction fuel as [|fuel IH]; intros [i|] pre parts; cbn [get_full_path_loop bind];
    try done.
  unfold deref. destruct (nodes !! i) as [n|]; cbn [bind]; [|done].
  rewrite <- app_assoc. apply IH.
Qed.

Lemma get_full_path_loop_fuel (nodes : list TreeNode) (stack : list nat) :
  wf nodes stack ->
  forall (fuel fuel' j : nat) (parts : list str),
    j < fuel -> j < fuel' ->
    get_full_path_loop fuel nodes (Some j) parts
    = get_full_path_loop fuel' nodes (Some j) parts.
Proof.
  intros W. induction fuel as [|fuel IH]; intros fuel' j parts Hf Hf'; [lia|].
  destruct fuel' as [|fuel']; [lia|]. cbn [get_full_path_loop]. unfold deref.
  destruct (nodes !! j) as [n|] eqn:Hn; cbn [bind]; [|done].
  destruct (parent n) as [p|] eqn:Hp.
  - destruct (wf_parent _ _ W _ _ _ Hn Hp) as (Hlt & _). apply IH; lia.
  - by destruct fuel, fuel'.
Qed.

Lemma join_snoc (sep : str) (parts : list str) (last_part : str) :
  parts <> [] -> join sep (parts ++ [last_part]) = join sep parts ++ sep ++ last_part.
Proof.
  induction parts as [|a parts IH]; [done|]. intros _.
  destruct parts as [|b parts]; [done|].
  change (join sep ((a :: b :: parts) ++ [last_part]))
    with (a ++ sep ++ join sep ((b :: parts) ++ [last_part])).
  rewrite IH by done. change (join sep (a :: b :: parts)) with (a ++ sep ++ join sep (b :: parts)).
  by rewrite <- !app_assoc.
Qed.

(** The names from a node up to the top of its chain of parents. *)
Lemma get_full_path_loop_child (nodes : list TreeNode) (stack : list nat)
    (i p : nat) (n : TreeNode) :
  wf nodes stack -> nodes !! i = Some n -> parent n = Some p ->
  exists up,
    up <> [] /\
    get_full_path_loop (length nodes) nodes (Some p) [] = Ok up /\
    get_full_path_loop (length nodes) nodes (Some i) [] = Ok (name n :: up).
Proof.
  intros W Hn Hp. destruct (wf_parent _ _ W _ _ _ Hn Hp) as (Hlt & pn & Hpn & _).
  pose proof (lookup_lt_Some _ _ _ Hn) as Hi.
  pose proof (lookup_lt_Some _ _ _ Hpn) as Hpl.
  destruct (get_full_path_loop_ok _ _ W (length nodes) p [] Hpl Hpl) as [up Hup].
  exists up. split; [|split; [done|]].
  - destruct (length nodes) as [|f]; [lia|]. cbn [get_full_path_loop] in Hup.
    unfold deref in Hup. rewrite Hpn in Hup. cbn [bind] in Hup.
    rewrite (get_full_path_loop_acc _ _ _ [name pn] []) in Hup.
    destruct (get_full_path_loop f nodes (parent pn) []); simpl in Hup; [|done..].
    injection Hup as <-. done.
  - destruct (length nodes) as [|f] eqn:El; [lia|]. cbn [get_full_path_loop].
    unfold deref. rewrite Hn. cbn [bind]. rewrite Hp.
    rewrite (get_full_path_loop_fuel _ _ W f (S f)) by lia.
    rewrite (get_full_path_loop_acc _ _ _ [name n] []).
    rewrite Hup. done.
Qed.

(** X7.  How the paths are built, for a node of a parsed tree and any
    base path.  A node without a parent (the root, or an orphan) has its
    name as path when the base path is empty, and otherwise the base path
    without its trailing slashes, a slash and the name.  A node with a
    parent has the path of its parent, a slash and its name.
    [get_full_path] returns in both cases: the parent links end. *)
Theorem path_extends_parent_path (self : TreeParser) (tree_text : str)
    (r : option nat) (self' : TreeParser) (i : nat) (node : TreeNode)
    (base_path : str) :
  parse self tree_text = Ok (r, self') ->
  all_nodes self' !! i = Some node ->
  match parent node with
  | None =>
    get_full_path (all_nodes self') i base_path =
    Ok (if truthy base_path then rstrip_slash base_path ++ [SLASH] ++ name node
        else name node)
  | Some p =>
    exists parent_path,
      get_full_path (all_nodes self') p base_path = Ok parent_path /\
      get_full_path (all_nodes self') i base_path
        = Ok (parent_path ++ [SLASH] ++ name node)
  end.
Proof.
  rewrite parse_eq. intros H Hi. injection H as _ <-.
  destruct (parsed_inv tree_text) as (_ & stack & W).
  pose proof (lookup_lt_Some _ _ _ Hi) as Hlt.
  destruct (parent node) as [p|] eqn:Hp.
  - destruct (get_full_path_loop_child _ _ _ _ _ W Hi Hp) as (up & Hne & Hup & Hdown).
    unfold get_full_path. rewrite Hup, Hdown. cbn [bind].
    assert (rev up <> []) as Hrev.
    { intros E. apply (f_equal (@rev str)) in E. rewrite rev_involutive in E. done. }
    change (rev (name node :: up)) with (rev up ++ [name node]).
    rewrite join_snoc by done.
    destruct (truthy base_path); eexists; (split; [done|]); by rewrite <- ?app_assoc.
  - unfold get_full_path. destruct (length (all_nodes (parsed tree_text))) as [|f]; [lia|].
    cbn [get_full_path_loop]. unfold deref. rewrite Hi. cbn [bind]. rewrite Hp.
    replace (get_full_path_loop f (all_nodes (parsed tree_text)) None ([] ++ [name node]))
      with (@Ok (list str) [name node]) by (by destruct f).
    cbn [bind]. by destruct (truthy base_path).
Qed.

Lemma path_extends_parent_path_witness :
  parse __init__ scenario1_const = Ok (Some 0, parsed scenario1_const) /\
  all_nodes (parsed scenario1_const) !! 2
    = Some (mkTreeNode (py_str "main.py") false 2 [] (Some 1)) /\
  match parent (mkTreeNode (py_str "main.py") false 2 [] (Some 1)) with
  | None =>
    get_full_path (all_nodes (parsed scenario1_const)) 2 (py_str "out/") =
    Ok (if truthy (py_str "out/")
        then rstrip_slash (py_str "out/") ++ [SLASH]
             ++ name (mkTreeNode (py_str "main.py") false 2 [] (Some 1))
        else name (mkTreeNode (py_str "main.py") false 2 [] (Some 1)))
  | Some p =>
    exists parent_path,
      get_full_path (all_nodes (parsed scenario1_const)) p (py_str "out/") = Ok parent_path /\
      get_full_path (all_nodes (parsed scenario1_const)) 2 (py_str "out/")
        = Ok (parent_path ++ [SLASH]
              ++ name (mkTreeNode (py_str "main.py") false 2 [] (Some 1)))
  end.
Proof.
  assert (parse __init__ scenario1_const = Ok (Some 0, parsed scenario1_const)) as H1
    by (vm_compute; reflexivity).
  assert (all_nodes (parsed scenario1_const) !! 2
          = Some (mkTreeNode (py_str "main.py") false 2 [] (Some 1))) as H2
    by (vm_compute; reflexivity).
  split; [exact H1|]. split; [exact H2|].
  exact (path_extends_parent_path _ _ _ _ _ _ (py_str "out/") H1 H2).
Defined.

Lemma rstrip_slash_snoc (s : str) : rstrip_slash (s ++ [SLASH]) = rstrip_slash s.
Proof.
  unfold rstrip_slash, rstrip_with. by rewrite rev_app_distr.
Qed.

Lemma get_full_path_base_slash (nodes : list TreeNode) (i : nat) (base_path : str) :
  base_path <> [] ->
  get_full_path nodes i (base_path ++ [SLASH]) = get_full_path nodes i base_path.
Proof.
  intros Hb. unfold get_full_path.
  destruct (get_full_path_loop _ _ _ _); cbn [bind]; [|done..].
  rewrite rstrip_slash_snoc. destruct base_path; [done|]. done.
Qed.

Lemma for_each_ext {A S : Type} (f g : S -> A -> result S) (l : list A) :
  (forall s a, f s a = g s a) -> forall s, for_each f l s = for_each g l s.
Proof.
  intros H. induction l as [|a l IH]; intros s; cbn [for_each]; [done|].
  rewrite H. destruct (g s a); cbn [bind]; [apply IH|done..].
Qed.

Lemma _collect_paths_base_slash (nodes : list TreeNode) (base_path : str) (frames : nat) :
  base_path <> [] ->
  forall (node : nat) (paths : list (str * bool)),
    _collect_paths frames nodes node (base_path ++ [SLASH]) paths
    = _collect_paths frames nodes node base_path paths.
Proof.
  intros Hb. induction frames as [|frames IH]; intros node paths; [done|].
  cbn [_collect_paths]. destruct (deref nodes node); cbn [bind]; [|done..].
  rewrite get_full_path_base_slash by done.
  destruct (get_full_path nodes node base_path); cbn [bind]; [|done..].
  apply for_each_ext. intros s c. apply IH.
Qed.

(** X8.  A slash at the end of a base path that is not empty makes no
    difference: [get_all_paths] does the same for "out/" as for "out"
    (the same list, or the same exception), on every parser object and
    with any number of frames left. *)
Theorem base_path_trailing_slash (self : TreeParser) (base_path : str) (frames : nat) :
  base_path <> [] ->
  get_all_paths frames self (base_path ++ [SLASH]) = get_all_paths frames self base_path.
Proof.
  intros Hb. unfold get_all_paths. destruct (root self); [|done].
  by apply _collect_paths_base_slash.
Qed.

Lemma base_path_trailing_slash_witness :
  py_str "out" <> [] /\
  get_all_paths 3 (parsed scenario1_const) (py_str "out" ++ [SLASH])
    = get_all_paths 3 (parsed scenario1_const) (py_str "out").
Proof.
  assert (py_str "out" <> []) as H by discriminate.
  split; [exact H|]. exact (base_path_trailing_slash _ _ 3 H).
Defined.

(** ** What [get_all_paths] lists *)

Lemma reachable_trans (nodes : list TreeNode) (a b c : nat) :
  reachable nodes a b -> reachable nodes b c -> reachable nodes a c.
Proof.
  intros Hab Hbc. induction Hbc as [|j c nj _ IH Hj Hc]; [done|].
  by eapply reachable_child.
Qed.

Lemma reachable_le (nodes : list TreeNode) (stack : list nat) (a b : nat) :
  wf nodes stack -> reachable nodes a b -> a <= b.
Proof.
  intros W Hab. induction Hab as [|j c nj _ IH Hj Hc]; [done|].
  destruct (wf_children _ _ W _ _ _ Hj Hc) as (Hlt & _). lia.
Qed.

Lemma reachable_bound (nodes : list TreeNode) (stack : list nat) (a b : nat) :
  wf nodes stack -> a < length nodes -> reachable nodes a b -> b < length nodes.
Proof.
  intros W Ha Hab. destruct Hab as [|j c nj _ Hj Hc]; [done|].
  destruct (wf_children _ _ W _ _ _ Hj Hc) as (_ & cn & Hcn & _).
  by eapply lookup_lt_Some.
Qed.

Lemma preorder_reachable (nodes : list TreeNode) (fuel : nat) :
  forall r j, j ∈ preorder fuel nodes r -> reachable nodes r j.
Proof.
  induction fuel as [|fuel IH]; intros r j Hj; cbn [preorder] in Hj.
  - by apply elem_of_nil in Hj.
  - apply elem_of_cons in Hj as [->|Hj]; [constructor|].
    apply list_elem_of_In, in_flat_map in Hj as (c & Hc & Hj).
    apply list_elem_of_In in Hc, Hj.
    destruct (nodes !! r) as [n|] eqn:Hn; [|by apply elem_of_nil in Hc].
    apply (reachable_trans _ _ c); [|by apply IH].
    eapply reachable_child; [constructor|done..].
Qed.

Lemma preorder_self (nodes : list TreeNode) (fuel r : nat) :
  r ∈ preorder (S fuel) nodes r.
Proof. cbn [preorder]. apply list_elem_of_here. Qed.

Lemma preorder_child (nodes : list TreeNode) (stack : list nat) :
  wf nodes stack ->
  forall (fuel r j c : nat) (nj : TreeNode),
    length nodes - r <= fuel ->
    j ∈ preorder fuel nodes r -> nodes !! j = Some nj -> c ∈ children nj ->
    c ∈ preorder fuel nodes r.
Proof.
  intros W. induction fuel as [|fuel IH]; intros r j c nj Hf Hj Hnj Hc;
    cbn [preorder] in *.
  - by apply elem_of_nil in Hj.
  - apply list_elem_of_further.
    destruct (wf_children _ _ W _ _ _ Hnj Hc) as (Hjc & cn & Hcn & _).
    pose proof (lookup_lt_Some _ _ _ Hcn) as Hcl.
    apply elem_of_cons in Hj as [->|Hj].
    + rewrite Hnj. apply list_elem_of_In, in_flat_map. exists c.
      split; [by apply list_elem_of_In|]. apply list_elem_of_In.
      destruct fuel as [|fuel]; [lia|]. apply preorder_self.
    + apply list_elem_of_In, in_flat_map in Hj as (c' & Hc' & Hj).
      apply list_elem_of_In in Hc', Hj.
      destruct (nodes !! r) as [n|] eqn:Hn; [|by apply elem_of_nil in Hc'].
      destruct (wf_children _ _ W _ _ _ Hn Hc') as (Hrc' & _).
      apply list_elem_of_In, in_flat_map. exists c'.
      split; [by apply list_elem_of_In|]. apply list_elem_of_In.
      apply (IH c' j c nj); [lia|done..].
Qed.

Lemma reachable_preorder (nodes : list TreeNode) (stack : list nat) (fuel r j : nat) :
  wf nodes stack -> r < length nodes -> length nodes - r <= fuel ->
  reachable nodes r j -> j ∈ preorder fuel nodes r.
Proof.
  intros W Hr Hf Hj. induction Hj as [|j c nj _ IH Hnj Hc].
  - destruct fuel as [|fuel]; [lia|]. apply preorder_self.
  - by eapply preorder_child.
Qed.

(** X9.  When [parse] has returned a root, the nodes that
    [get_all_paths] visits are exactly the nodes that the [children]
    lists lead to from the root, the root first.  With [frames] nested
    activations of [_collect_paths] allowed, [get_all_paths] returns when
    no branch under the root has more than [frames] nodes, and then its
    list has one pair (full path, directory flag) for each visited node,
    in the order of the visit; when some branch has more, it raises
    [RecursionError].  No branch has more nodes than the arena. *)
Theorem get_all_paths_lists_reachable (self : TreeParser) (tree_text : str)
    (r : nat) (self' : TreeParser) (base_path : str) (frames : nat) :
  parse self tree_text = Ok (Some r, self') ->
  head (visited self') = Some r /\
  (forall j, j ∈ visited self' <-> reachable (all_nodes self') r j) /\
  ((forall j k, reachable_at (all_nodes self') r k j -> k <= frames) ->
   exists paths,
     get_all_paths frames self' base_path = Ok paths /\
     Forall2 (entry_of (all_nodes self') base_path) (visited self') paths /\
     length paths = length (visited self')) /\
  ((exists j k, reachable_at (all_nodes self') r k j /\ frames < k) ->
   get_all_paths frames self' base_path = Raise RecursionError) /\
  (forall j k, reachable_at (all_nodes self') r k j -> k <= length (all_nodes self')).
Proof.
  rewrite parse_eq. intros H. injection H as Hr <-.
  destruct (parsed_inv tree_text) as (Hroot & stack & W).
  assert (r = 0 /\ 0 < length (all_nodes (parsed tree_text))) as [-> Hlen].
  { rewrite Hr in Hroot. destruct (all_nodes (parsed tree_text)); [done|].
    simpl in *. split; [congruence|lia]. }
  destruct (parsed_get_all_paths tree_text base_path frames 0 Hr) as [Hraise Hok].
  split; [|split; [|split; [|split]]].
  - unfold visited. rewrite Hr.
    destruct (length (all_nodes (parsed tree_text))); [lia|done].
  - unfold visited. rewrite Hr. intros j. split.
    + apply preorder_reachable.
    + intros Hj. eapply reachable_preorder; [done|done|lia|done].
  - intros Hfit. destruct Hok as (paths & Hp & Hf).
    { destruct (too_deep frames (all_nodes (parsed tree_text)) 0) eqn:E; [|done].
      apply too_deep_iff in E as (j & k & Hreach & Hk). apply Hfit in Hreach. lia. }
    exists paths. split; [done|]. split; [done|]. symmetry. by eapply Forall2_length.
  - intros Hdeep. apply Hraise. by apply too_deep_iff.
  - intros j k Hreach. destruct (reachable_at_bound _ _ _ _ _ W Hlen Hreach). lia.
Qed.

Lemma get_all_paths_lists_reachable_witness :
  parse __init__ scenario1_const = Ok (Some 0, parsed scenario1_const) /\
  (exists paths,
      get_all_paths 3 (parsed scenario1_const) (py_str "out") = Ok paths /\
      Forall2 (entry_of (all_nodes (parsed scenario1_const)) (py_str "out"))
              (visited (parsed scenario1_const)) paths /\
      length paths = length (visited (parsed scenario1_const))) /\
  get_all_paths 2 (parsed scenario1_const) (py_str "out") = Raise RecursionError.
Proof.
  assert (parse __init__ scenario1_const = Ok (Some 0, parsed scenario1_const)) as H1
    by (vm_compute; reflexivity).
  assert (reachable_at (all_nodes (parsed scenario1_const)) 0 3 2) as H2.
  { apply (at_child _ _ 2 1 2 (mkTreeNode (py_str "src") true 1 [2] (Some 0)));
      [|vm_compute; reflexivity|vm_compute; constructor].
    apply (at_child _ _ 1 0 1 (mkTreeNode (py_str "project") true 0 [1; 3] None));
      [apply at_root|vm_compute; reflexivity|vm_compute; constructor]. }
  assert (too_deep 3 (all_nodes (parsed scenario1_const)) 0 = false) as H3
    by (vm_compute; reflexivity).
  split; [exact H1|]. split.
  - destruct (get_all_paths_lists_reachable _ _ _ _ (py_str "out") 3 H1)
      as (_ & _ & Hok & _ & _).
    apply Hok. intros j k Hreach.
    destruct (decide (k <= 3)) as [Hk|Hk]; [exact Hk|].
    assert (too_deep 3 (all_nodes (parsed scenario1_const)) 0 = true) as Hd
      by (apply too_deep_iff; exists j, k; split; [exact Hreach|lia]).
    rewrite H3 in Hd. discriminate.
  - destruct (get_all_paths_lists_reachable _ _ _ _ (py_str "out") 2 H1)
      as (_ & _ & _ & Hraise & _).
    apply Hraise. exists 2, 3. split; [exact H2|lia].
Defined.

(** ** The summary of a parsed text *)

Lemma sum_ones_is_directory_info (nodes nodes' : list TreeNode) :
  info <$> nodes = info <$> nodes' ->
  sum_ones is_directory nodes = sum_ones is_directory nodes'.
Proof.
  revert nodes'. induction nodes as [|n nodes IH]; intros [|n' nodes'] H; simpl in H;
    try done.
  injection H as Hname Hdir Hdepth Hrest. cbn [sum_ones].
  by rewrite (IH _ Hrest), Hdir.
Qed.

(** X10.  After [parse], [get_summary] counts the lines of the trimmed
    text: its total is the number of named lines, its directories are
    the named lines that end in a slash or are followed by a deeper
    non-blank line, and directories and files add up to the total. *)
Theorem summary_counts_named_lines (self : TreeParser) (tree_text : str)
    (r : option nat) (self' : TreeParser) :
  parse self tree_text = Ok (r, self') ->
  total (get_summary self') = sum_ones named (split_nl (strip tree_text)) /\
  directories (get_summary self')
    = sum_ones is_directory (entries (split_nl (strip tree_text))) /\
  directories (get_summary self') + files (get_summary self')
    = total (get_summary self').
Proof.
  rewrite parse_eq. intros H. injection H as _ <-.
  rewrite get_summary_eq. cbn [total directories files].
  pose proof (parsed_info tree_text) as Hinfo.
  split; [|split].
  - rewrite <- entries_length. apply (f_equal length) in Hinfo.
    by rewrite !length_fmap in Hinfo.
  - by apply sum_ones_is_directory_info.
  - pose proof (sum_ones_negb is_directory (all_nodes (parsed tree_text))) as [_ Hle]. lia.
Qed.

Lemma summary_counts_named_lines_witness :
  parse __init__ scenario1_const = Ok (Some 0, parsed scenario1_const) /\
  total (get_summary (parsed scenario1_const))
    = sum_ones named (split_nl (strip scenario1_const)) /\
  directories (get_summary (parsed scenario1_const))
    = sum_ones is_directory (entries (split_nl (strip scenario1_const))) /\
  directories (get_summary (parsed scenario1_const))
  + files (get_summary (parsed scenario1_const))
    = total (get_summary (parsed scenario1_const)).
Proof.
  assert (parse __init__ scenario1_const = Ok (Some 0, parsed scenario1_const)) as H1
    by (vm_compute; reflexivity).
  split; [exact H1|]. exact (summary_counts_named_lines _ _ _ _ H1).
Defined.

(** ** The visit follows the lines *)

Lemma reachable_snoc (nodes : list TreeNode) (n : TreeNode) (x y : nat) :
  children n = [] -> reachable (nodes ++ [n]) x y -> reachable nodes x y.
Proof.
  intros Hc H. induction H as [|j c nj _ IH Hj Hin]; [constructor|].
  destruct (decide (j < length nodes)).
  - rewrite lookup_app_l in Hj by done. by eapply reachable_child.
  - rewrite lookup_app_r in Hj by lia.
    destruct (j - length nodes) as [|k]; simpl in Hj; [|done].
    injection Hj as <-. rewrite Hc in Hin. by apply elem_of_nil in Hin.
Qed.

Lemma reachable_link (nodes : list TreeNode) (stack : list nat) (n : TreeNode)
    (q x y : nat) :
  wf nodes stack -> q < length nodes -> children n = [] ->
  reachable (link (length nodes) (Some q) (nodes ++ [n])) x y ->
  (y <> length nodes /\ reachable nodes x y) \/
  (y = length nodes /\ (x = length nodes \/ reachable nodes x q)).
Proof.
  intros W Hq Hc H. induction H as [|j c nj _ IH Hj Hin].
  - destruct (decide (x = length nodes)); [right|left]; split; auto. constructor.
  - rewrite link_lookup in Hj by done.
    destruct (decide (j = length nodes)) as [->|Hjn].
    { injection Hj as <-. simpl in Hin. rewrite Hc in Hin. by apply elem_of_nil in Hin. }
    destruct IH as [[_ IH]|[? _]]; [|done].
    destruct (decide (j = q)) as [->|Hjq].
    + destruct (nodes !! q) as [qn|] eqn:Hqn; [|done]. injection Hj as <-.
      simpl in Hin. apply elem_of_app in Hin as [Hin|Hin].
      * destruct (wf_children _ _ W _ _ _ Hqn Hin) as (_ & cn & Hcn & _).
        pose proof (lookup_lt_Some _ _ _ Hcn). left. split; [lia|].
        by eapply reachable_child.
      * apply list_elem_of_singleton in Hin. subst c. right. auto.
    + destruct (wf_children _ _ W _ _ _ Hj Hin) as (_ & cn & Hcn & _).
      pose proof (lookup_lt_Some _ _ _ Hcn). left. split; [lia|].
      by eapply reachable_child.
Qed.

(** Two children of one node after a node was linked: two children that
    were there before, or an earlier child and the new node. *)
Lemma link_children_pair (nodes : list TreeNode) (n : TreeNode)
    (q p : nat) (pn : TreeNode) (i j a b : nat) :
  q < length nodes -> children n = [] ->
  link (length nodes) (Some q) (nodes ++ [n]) !! p = Some pn ->
  children pn !! i = Some a -> children pn !! j = Some b -> i < j ->
  (exists pn0, nodes !! p = Some pn0 /\
               children pn0 !! i = Some a /\ children pn0 !! j = Some b) \/
  (p = q /\ b = length nodes /\
   exists qn, nodes !! q = Some qn /\ children qn !! i = Some a).
Proof.
  intros Hq Hc Hp Hi Hj Hij. rewrite link_lookup in Hp by done.
  destruct (decide (p = length nodes)) as [->|Hpn].
  { injection Hp as <-. simpl in Hi. by rewrite Hc in Hi. }
  destruct (decide (p = q)) as [->|Hpq]; [|left; eauto].
  destruct (nodes !! q) as [qn|] eqn:Hqn; [|done]. injection Hp as <-.
  simpl in Hi, Hj.
  destruct (decide (j < length (children qn))) as [Hlt|Hge].
  - rewrite lookup_app_l in Hi, Hj by lia. left. eauto.
  - rewrite lookup_app_r in Hj by lia.
    destruct (j - length (children qn)) as [|k] eqn:Ej; simpl in Hj; [|done].
    injection Hj as <-. rewrite lookup_app_l in Hi by lia. right. eauto.
Qed.

Lemma order_ok_linked (nodes : list TreeNode) (stack : list nat)
    (n : TreeNode) (d q : nat) :
  wf nodes stack -> order_ok nodes stack -> children n = [] ->
  last (take d stack) = Some q ->
  order_ok (link (length nodes) (Some q) (nodes ++ [n])) (take d stack ++ [length nodes]).
Proof.
  intros W (K1 & K2 & K3) Hc Hlast.
  assert (Hstack : forall s, s ∈ take d stack -> s ∈ stack /\ s <= q).
  { intros s Hs. apply list_elem_of_lookup in Hs as [k Hk].
    pose proof (lookup_lt_Some _ _ _ Hk) as Hkl.
    assert (k < d) by (rewrite length_take in Hkl; lia).
    rewrite lookup_take_lt in Hk by done. split; [by eapply list_elem_of_lookup_2|].
    rewrite last_lookup in Hlast.
    pose proof (lookup_lt_Some _ _ _ Hlast) as Hel.
    remember (Init.Nat.pred (length (take d stack))) as e eqn:He.
    assert (e < d) by (rewrite length_take in Hel; lia).
    rewrite lookup_take_lt in Hlast by done.
    destruct (decide (k = e)) as [->|Hne]; [assert (s = q) by congruence; lia|].
    assert (s < q); [|lia]. apply (K1 k e); [done..|lia]. }
  assert (Hqs : q ∈ stack /\ q < length nodes).
  { apply last_Some in Hlast as [l' Hl'].
    assert (q ∈ take d stack) as Hin
      by (rewrite Hl'; apply elem_of_app; right; apply list_elem_of_here).
    destruct (Hstack _ Hin) as [Hin' _]. split; [done|]. by apply (wf_stack_bound _ _ W). }
  destruct Hqs as [Hqs Hq].
  assert (Hchild : forall qn i a, nodes !! q = Some qn -> children qn !! i = Some a ->
                     q < a /\ a < length nodes).
  { intros qn i a Hqn Hi. apply list_elem_of_lookup_2 in Hi.
    destruct (wf_children _ _ W _ _ _ Hqn Hi) as (Hlt & cn & Hcn & _).
    split; [done|]. by eapply lookup_lt_Some. }
  split; [|split].
  - intros i j a b Hi Hj Hij.
    assert (j < length (take d stack ++ [length nodes])) as Hjl by (by eapply lookup_lt_Some).
    rewrite length_app in Hjl. simpl in Hjl.
    rewrite lookup_app_l in Hi by lia.
    destruct (decide (j < length (take d stack))).
    + rewrite lookup_app_l in Hj by done.
      assert (j < d /\ i < d) as [? ?] by (rewrite length_take in *; lia).
      rewrite lookup_take_lt in Hi, Hj by done. by eapply (K1 i j).
    + rewrite lookup_app_r in Hj by lia.
      destruct (j - length (take d stack)) as [|k]; simpl in Hj; [|done].
      injection Hj as <-. apply list_elem_of_lookup_2 in Hi.
      destruct (Hstack _ Hi) as [_ ?]. lia.
  - intros p pn i j a b m Hp Hi Hj Hij Hm.
    destruct (link_children_pair _ _ _ _ _ _ _ _ _ Hq Hc Hp Hi Hj Hij)
      as [(pn0 & Hp0 & Hi0 & Hj0)|(-> & -> & qn & Hqn & Hi0)].
    + apply (reachable_link _ _ _ _ _ _ W Hq Hc) in Hm
        as [[_ Hm]|[-> [Ha|Hm]]].
      * by eapply (K2 p pn0 i j).
      * apply list_elem_of_lookup_2 in Hi0.
        destruct (wf_children _ _ W _ _ _ Hp0 Hi0) as (_ & cn & Hcn & _).
        apply lookup_lt_Some in Hcn. lia.
      * exfalso. by eapply (K3 q p pn0 i j a b).
    + destruct (Hchild _ _ _ Hqn Hi0) as [Hqa Hal].
      apply (reachable_link _ _ _ _ _ _ W Hq Hc) in Hm
        as [[Hne Hm]|[-> [Ha|Hm]]].
      * by eapply reachable_bound.
      * lia.
      * apply (reachable_le _ _ _ _ W) in Hm. lia.
  - intros s p pn i j a b Hs Hp Hi Hj Hij Hr.
    assert (Hold : forall pn0, nodes !! p = Some pn0 -> children pn0 !! i = Some a ->
                     children pn0 !! j = Some b -> reachable nodes a q -> False).
    { intros pn0 Hp0 Hi0 Hj0 Hq'. by eapply (K3 q p pn0 i j a b). }
    apply (reachable_link _ _ _ _ _ _ W Hq Hc) in Hr.
    destruct (link_children_pair _ _ _ _ _ _ _ _ _ Hq Hc Hp Hi Hj Hij)
      as [(pn0 & Hp0 & Hi0 & Hj0)|(-> & -> & qn & Hqn & Hi0)].
    + destruct Hr as [[Hne Hr]|[-> [Ha|Hr]]].
      * apply elem_of_app in Hs as [Hs|Hs];
          [|apply list_elem_of_singleton in Hs; done].
        destruct (Hstack _ Hs) as [Hs' _]. by eapply (K3 s p pn0 i j a b).
      * apply list_elem_of_lookup_2 in Hi0.
        destruct (wf_children _ _ W _ _ _ Hp0 Hi0) as (_ & cn & Hcn & _).
        apply lookup_lt_Some in Hcn. lia.
      * by eapply Hold.
    + destruct (Hchild _ _ _ Hqn Hi0) as [Hqa Hal].
      destruct Hr as [[Hne Hr]|[-> [Ha|Hr]]].
      * apply elem_of_app in Hs as [Hs|Hs];
          [|apply list_elem_of_singleton in Hs; done].
        destruct (Hstack _ Hs) as [_ Hsq].
        apply (reachable_le _ _ _ _ W) in Hr. lia.
      * lia.
      * apply (reachable_le _ _ _ _ W) in Hr. lia.
Qed.

Lemma order_ok_orphaned (nodes : list TreeNode) (stack : list nat) (n : TreeNode) :
  wf nodes stack -> order_ok nodes stack -> children n = [] ->
  order_ok (nodes ++ [n]) [length nodes].
Proof.
  intros W (K1 & K2 & K3) Hc.
  assert (Hlk : forall p pn i a, (nodes ++ [n]) !! p = Some pn ->
                  children pn !! i = Some a -> nodes !! p = Some pn).
  { intros p pn i a Hp Hi. destruct (decide (p < length nodes)).
    - by rewrite lookup_app_l in Hp.
    - rewrite lookup_app_r in Hp by lia.
      destruct (p - length nodes) as [|k]; simpl in Hp; [|done].
      injection Hp as <-. by rewrite Hc in Hi. }
  split; [|split].
  - intros [|i] [|j] a b Hi Hj Hij; simpl in *; try done; lia.
  - intros p pn i j a b m Hp Hi Hj Hij Hm.
    apply (reachable_snoc _ _ _ _ Hc) in Hm. by eapply (K2 p pn i j); [eapply Hlk|..].
  - intros s p pn i j a b Hs Hp Hi Hj Hij Hr.
    apply list_elem_of_singleton in Hs. subst s.
    apply (reachable_snoc _ _ _ _ Hc) in Hr.
    pose proof (Hlk _ _ _ _ Hp Hi) as Hp0.
    apply list_elem_of_lookup_2 in Hi.
    destruct (wf_children _ _ W _ _ _ Hp0 Hi) as (_ & cn & Hcn & _).
    apply lookup_lt_Some in Hcn.
    pose proof (reachable_bound _ _ _ _ W Hcn Hr). lia.
Qed.

Lemma run_order_ok (lines : list str) :
  forall (line_num : nat) (st : TreeParser * list nat),
    inv line_num st -> order_ok (all_nodes st.1) st.2 ->
    order_ok (all_nodes (run line_num lines st).1) (run line_num lines st).2.
Proof.
  induction lines as [|line rest IH]; intros ln st I K; cbn [run]; [done|].
  destruct (named line).
  - apply IH; [by apply place_inv|].
    pose proof I as (_ & _ & W).
    destruct (all_nodes st.1) as [|x xs] eqn:E.
    + rewrite place_first by done. cbn [fst snd all_nodes]. split; [|split].
      * intros [|i] [|j] a b Hi Hj Hij; simpl in *; try done; lia.
      * intros [|p] pn i j a b m Hp Hi; simpl in Hp; [|done]. by injection Hp as <-.
      * intros s [|p] pn i j a b _ Hp Hi; simpl in Hp; [|done]. by injection Hp as <-.
    + rewrite place_next by (by rewrite ?E). cbn [fst snd all_nodes]. rewrite <- E in *.
      destruct (last (take (depth (new_node line rest)) st.2)) as [q|] eqn:Hlast.
      * by eapply order_ok_linked.
      * apply last_None in Hlast. rewrite Hlast. by eapply order_ok_orphaned.
  - apply IH; [by eapply inv_later|done].
Qed.

Lemma StronglySorted_lt_app (l1 l2 : list nat) :
  StronglySorted lt l1 -> StronglySorted lt l2 ->
  (forall x y, x ∈ l1 -> y ∈ l2 -> x < y) ->
  StronglySorted lt (l1 ++ l2).
Proof.
  intros H1 H2 H. induction H1 as [|a l1 Hl1 IH Ha]; [done|].
  simpl. constructor.
  - apply IH. intros x y Hx. apply H. by apply list_elem_of_further.
  - apply Forall_app. split; [done|]. apply Forall_forall. intros y Hy.
    apply H; [apply list_elem_of_here|done].
Qed.

Lemma StronglySorted_lt_after (l1 l2 : list nat) (x y : nat) :
  StronglySorted lt (l1 ++ x :: l2) -> y ∈ l2 -> x < y.
Proof.
  induction l1 as [|a l1 IH]; simpl; intros H Hy.
  - apply StronglySorted_inv in H as [_ H]. rewrite Forall_forall in H. by apply H.
  - apply StronglySorted_inv in H as [H _]. by apply IH.
Qed.

Lemma preorder_sorted (nodes : list TreeNode) (stack : list nat) :
  wf nodes stack -> siblings_apart nodes ->
  forall fuel r, StronglySorted lt (preorder fuel nodes r).
Proof.
  intros W K2. induction fuel as [|fuel IH]; intros r; cbn [preorder]; [constructor|].
  destruct (nodes !! r) as [n|] eqn:Hn; [|repeat constructor].
  assert (Hsub : forall cs,
             (forall c, c ∈ cs -> r < c) ->
             (forall i j a b m, cs !! i = Some a -> cs !! j = Some b -> i < j ->
                                reachable nodes a m -> m < b) ->
             StronglySorted lt (flat_map (preorder fuel nodes) cs) /\
             Forall (lt r) (flat_map (preorder fuel nodes) cs)).
  { induction cs as [|c cs IHcs]; intros Hgt Hpairs; [by split; constructor|].
    destruct IHcs as [IH1 IH2].
    { intros c' Hc'. apply Hgt. by apply list_elem_of_further. }
    { intros i j a b m Hi Hj Hij. by apply (Hpairs (S i) (S j)); [..|lia]. }
    cbn [flat_map]. split.
    - apply StronglySorted_lt_app; [apply IH|done|].
      intros x y Hx Hy. apply preorder_reachable in Hx.
      apply list_elem_of_In, in_flat_map in Hy as (b & Hb & Hy).
      apply list_elem_of_In in Hb, Hy. apply preorder_reachable in Hy.
      apply (reachable_le _ _ _ _ W) in Hy.
      apply list_elem_of_lookup in Hb as [k Hk].
      assert (x < b); [|lia]. by apply (Hpairs 0 (S k) c b x); [..|lia|].
    - apply Forall_app. split; [|done]. apply Forall_forall. intros x Hx.
      apply preorder_reachable, (reachable_le _ _ _ _ W) in Hx.
      assert (r < c) by (apply Hgt, list_elem_of_here). lia. }
  destruct (Hsub (children n)) as [H1 H2].
  - intros c Hc. by destruct (wf_children _ _ W _ _ _ Hn Hc) as (H & _).
  - intros i j a b m Hi Hj Hij Hm. by eapply (K2 r n i j).
  - by constructor.
Qed.

Lemma parsed_order_ok (tree_text : str) :
  exists stack,
    wf (all_nodes (parsed tree_text)) stack /\
    order_ok (all_nodes (parsed tree_text)) stack.
Proof.
  exists (run 0 (split_nl (strip tree_text)) (__init__, [])).2. split.
  - by destruct (run_inv (split_nl (strip tree_text)) 0 _ inv_init) as (_ & _ & W).
  - apply (run_order_ok _ 0 (__init__, []) inv_init). split; [|split].
    + intros i j a b Hi. done.
    + intros p pn i j a b m Hp. done.
    + intros s p pn i j a b Hs Hp. done.
Qed.





(** ** Nesting on a well nested input *)

Lemma link_lookup_gen (nodes : list TreeNode) (n : TreeNode) (par : option nat) (i : nat) :
  (forall q, par = Some q -> q < length nodes) ->
  link (length nodes) par (nodes ++ [n]) !! i =
  if decide (i = length nodes)
  then Some (match par with Some q => set_parent q n | None => n end)
  else if decide (par = Some i) then append_child (length nodes) <$> nodes !! i
  else nodes !! i.
Proof.
  intros Hq. destruct par as [q|].
  - rewrite link_lookup by auto. destruct (decide (i = length nodes)); [done|].
    destruct (decide (i = q)) as [->|]; [by rewrite decide_True|].
    rewrite decide_False; [done|congruence].
  - cbn [link]. destruct (decide (i = length nodes)) as [->|].
    + rewrite lookup_app_r by lia. by rewrite Nat.sub_diag.
    + rewrite decide_False by done. destruct (decide (i < length nodes)).
      * by rewrite lookup_app_l.
      * rewrite !lookup_ge_None_2; [done|lia|]. rewrite length_app. simpl. lia.
Qed.

(** An old node after a step: same depth and parent, and the children
    it had. *)
Lemma link_old (nodes : list TreeNode) (n : TreeNode) (par : option nat)
    (i : nat) (x : TreeNode) :
  (forall q, par = Some q -> q < length nodes) ->
  nodes !! i = Some x ->
  exists x', link (length nodes) par (nodes ++ [n]) !! i = Some x' /\
             depth x' = depth x /\ parent x' = parent x /\
             (children x' = children x \/
              (par = Some i /\ children x' = children x ++ [length nodes])).
Proof.
  intros Hq Hx. pose proof (lookup_lt_Some _ _ _ Hx).
  rewrite link_lookup_gen by done. rewrite decide_False by lia.
  destruct (decide (par = Some i)).
  - rewrite Hx. eexists. split; [done|]. simpl. auto.
  - exists x. auto 6.
Qed.

Lemma link_old_inv (nodes : list TreeNode) (n : TreeNode) (par : option nat)
    (i : nat) (x' : TreeNode) :
  (forall q, par = Some q -> q < length nodes) ->
  link (length nodes) par (nodes ++ [n]) !! i = Some x' -> i <> length nodes ->
  exists x, nodes !! i = Some x /\
            depth x' = depth x /\ parent x' = parent x /\
            (children x' = children x \/
             (par = Some i /\ children x' = children x ++ [length nodes])).
Proof.
  intros Hq Hx Hi. rewrite link_lookup_gen in Hx by done.
  rewrite decide_False in Hx by done.
  destruct (decide (par = Some i)).
  - destruct (nodes !! i) as [x|]; [|done]. injection Hx as <-.
    eexists. split; [done|]. simpl. auto.
  - exists x'. auto 6.
Qed.

Lemma nesting_next (nodes : list TreeNode) (stack : list nat) (n : TreeNode) :
  wf nodes stack -> depths_ok nodes stack -> nesting nodes stack ->
  nodes <> [] -> children n = [] -> parent n = None -> depth n <= length stack ->
  nesting (link (length nodes) (last (take (depth n) stack)) (nodes ++ [n]))
          (take (depth n) stack ++ [length nodes]).
Proof.
  intros W [D1 _] N Hne Hc Hp Hd.
  set (d := depth n) in *. set (id := length nodes).
  set (par := last (take d stack)).
  assert (Hlen : length (take d stack) = d) by (by apply length_take_le).
  assert (Hpar : forall q, par = Some q -> stack !! (d - 1) = Some q /\ 0 < d /\ q < id).
  { intros q Hq. unfold par in Hq. rewrite last_lookup, Hlen in Hq.
    destruct d as [|d']; [by rewrite take_0 in Hq|]. simpl in Hq.
    rewrite lookup_take_lt in Hq by lia. replace (S d' - 1) with d' by lia.
    split; [done|]. split; [lia|].
    apply (wf_stack_bound _ _ W). by eapply list_elem_of_lookup_2. }
  assert (Hq : forall q, par = Some q -> q < length nodes) by (intros q Hq; by apply Hpar).
  assert (Hpar0 : par = None -> d = 0).
  { intros E. unfold par in E. apply last_None in E.
    rewrite E in Hlen. simpl in Hlen. lia. }
  assert (Hnew : link id par (nodes ++ [n]) !! id
                 = Some (match par with Some q => set_parent q n | None => n end)).
  { unfold id. rewrite link_lookup_gen by done. by rewrite decide_True. }
  assert (Hstk : forall k s, (take d stack ++ [id]) !! k = Some s ->
                   (k < d /\ stack !! k = Some s) \/ (k = d /\ s = id)).
  { intros k s Hk. destruct (decide (k < d)).
    - rewrite lookup_app_l in Hk by lia. rewrite lookup_take_lt in Hk by done. auto.
    - rewrite lookup_app_r in Hk by lia. rewrite Hlen in Hk.
      destruct (k - d) as [|k'] eqn:E; simpl in Hk; [|done].
      injection Hk as <-. right. split; [lia|done]. }
  split.
  - intros _. rewrite last_snoc, link_length, length_app. simpl. f_equal. lia.
  - intros k a b Ha Hb.
    apply Hstk in Ha as [[Hka Ha]|[-> ->]]; apply Hstk in Hb as [[Hkb Hb]|[Hkb ->]];
      try lia.
    + destruct (nest_chain _ _ N _ _ _ Ha Hb) as (an & Han & Hin).
      destruct (link_old _ n par _ _ Hq Han) as (x' & Hx' & _ & _ & [Hch|[_ Hch]]);
        exists x'; (split; [done|]); rewrite Hch; [done|].
      apply elem_of_app. by left.
    + assert (par = Some a) as Hpa.
      { unfold par. rewrite last_lookup, Hlen.
        replace (Init.Nat.pred d) with k by lia. by rewrite lookup_take_lt by lia. }
      destruct (D1 _ _ Ha) as (an & Han & _).
      destruct (link_old _ n par _ _ Hq Han) as (x' & Hx' & _ & _ & [Hch|[_ Hch]]).
      * exfalso. pose proof Hx' as Hx''. unfold id in Hx''.
        rewrite link_lookup_gen in Hx'' by done.
        rewrite decide_False in Hx'' by (apply lookup_lt_Some in Han; lia).
        rewrite decide_True in Hx'' by done. rewrite Han in Hx''.
        injection Hx'' as <-. simpl in Hch.
        apply (f_equal length) in Hch. rewrite length_app in Hch. simpl in Hch. lia.
      * exists x'. split; [done|]. rewrite Hch. apply elem_of_app. right.
        apply list_elem_of_here.
  - intros p pn' Hp' Hch.
    destruct (decide (p = id)) as [->|Hpid].
    { rewrite Hnew in Hp'. injection Hp' as <-. destruct par; simpl in Hch; congruence. }
    destruct (link_old_inv _ _ _ _ _ Hq Hp' Hpid) as (pn & Hpn & Hdep & _ & Hchildren).
    assert (Hkeep : forall n1, nodes !! S p = Some n1 -> depth pn < depth n1 ->
                      exists n1', link id par (nodes ++ [n]) !! S p = Some n1' /\
                                  depth pn' < depth n1').
    { intros n1 Hn1 Hlt. destruct (link_old _ n par _ _ Hq Hn1) as (x' & Hx' & Hdx & _).
      exists x'. split; [done|]. lia. }
    destruct Hchildren as [Hsame|[Hparp Hsnoc]].
    + rewrite Hsame in Hch.
      destruct (nest_first_child _ _ N _ _ Hpn Hch) as (n1 & Hn1 & Hlt). eauto.
    + destruct (children pn) as [|c cs] eqn:Hcs.
      2:{ destruct (nest_first_child _ _ N p pn Hpn) as (n1 & Hn1 & Hlt);
            [by rewrite Hcs|]. eauto. }
      destruct (Hpar _ Hparp) as (Hpd & Hd0 & _).
      assert (length stack <= d) as Hfull.
      { destruct (decide (length stack <= d)); [done|]. exfalso.
        destruct (lookup_lt_is_Some_2 stack d) as [b Hb]; [lia|].
        destruct (nest_chain _ _ N (d - 1) p b Hpd) as (an & Han & Hin).
        { by replace (S (d - 1)) with d by lia. }
        assert (an = pn) as -> by congruence. rewrite Hcs in Hin.
        by apply elem_of_nil in Hin. }
      assert (p = id - 1) as Hpl.
      { pose proof (nest_top _ _ N Hne) as Htop. rewrite last_lookup in Htop.
        replace (Init.Nat.pred (length stack)) with (d - 1) in Htop by lia.
        unfold id. congruence. }
      assert (0 < id) by (unfold id; destruct nodes; [done|simpl; lia]).
      replace (S p) with id by lia. rewrite Hnew. eexists. split; [done|].
      destruct (D1 _ _ Hpd) as (pn0 & Hpn0 & Hpdep).
      assert (pn0 = pn) as -> by congruence.
      rewrite Hparp. simpl. fold d. lia.
  - intros k s m mn Hk Hsm Hm.
    apply Hstk in Hk as [[Hkd Hk]|[-> ->]].
    + destruct (decide (m = id)) as [->|Hmid].
      * rewrite Hnew in Hm. injection Hm as <-. destruct par; simpl; fold d; lia.
      * destruct (link_old_inv _ _ _ _ _ Hq Hm Hmid) as (x & Hx & Hdx & _).
        rewrite Hdx. by eapply (nest_later _ _ N k s).
    + apply lookup_lt_Some in Hm. rewrite link_length, length_app in Hm.
      simpl in Hm. unfold id in Hsm. lia.
  - intros i node p m mn Hi Hpar' Hpm Hmi Hm.
    assert (m <> id) as Hmid.
    { apply lookup_lt_Some in Hi. rewrite link_length, length_app in Hi.
      simpl in Hi. unfold id. lia. }
    destruct (link_old_inv _ _ _ _ _ Hq Hm Hmid) as (x & Hx & Hdx & _).
    rewrite Hdx. destruct (decide (i = id)) as [->|Hiid].
    + rewrite Hnew in Hi. injection Hi as <-.
      destruct par as [q|] eqn:Epar; simpl in Hpar'; [|congruence].
      injection Hpar' as ->. destruct (Hpar _ eq_refl) as (Hpd & Hd0 & _).
      simpl. fold d.
      pose proof (nest_later _ _ N (d - 1) p m x Hpd Hpm Hx). lia.
    + destruct (link_old_inv _ _ _ _ _ Hq Hi Hiid) as (y & Hy & Hdy & Hpy & _).
      rewrite Hdy. rewrite Hpy in Hpar'. by eapply (nest_between _ _ N i y p m).
Qed.

Lemma nesting_first (n : TreeNode) :
  children n = [] -> parent n = None -> nesting [n] [0].
Proof.
  intros Hc Hp. split.
  - done.
  - intros [|k] a b Ha Hb; simpl in *; done.
  - intros [|p] pn Hpn Hch; simpl in Hpn; [|done]. injection Hpn as <-. done.
  - intros [|k] s m mn Hk Hsm Hm; simpl in Hk; [|done]. injection Hk as <-.
    destruct m; [lia|done].
  - intros [|i] node p m mn Hi Hpar; simpl in Hi; [|done]. injection Hi as <-. congruence.
Qed.

Lemma nesting_empty (stack : list nat) : wf [] stack -> nesting [] stack.
Proof.
  intros W. split; try done.
  intros k a b Ha _. apply list_elem_of_lookup_2, (wf_stack_bound _ _ W) in Ha.
  simpl in Ha. lia.
Qed.

Lemma run_nesting (lines : list str) :
  forall (line_num : nat) (st : TreeParser * list nat) (prev : nat),
    inv line_num st -> all_nodes st.1 <> [] ->
    depths_ok (all_nodes st.1) st.2 -> nesting (all_nodes st.1) st.2 ->
    length st.2 = S prev ->
    no_jump prev (depth <$> entries lines) = true ->
    let st' := run line_num lines st in nesting (all_nodes st'.1) st'.2.
Proof.
  induction lines as [|line rest IH]; intros ln st prev I Hne D N Hlen Hj; cbn [run]; [done|].
  cbn [entries] in Hj. destruct (named line) eqn:Hn.
  - cbn [fmap list_fmap] in Hj. simpl in Hj. apply andb_prop in Hj as [Hd Hj].
    apply Nat.leb_le in Hd.
    pose proof (place_inv ln (new_node line rest) st I eq_refl eq_refl ln) as I'.
    pose proof I as (_ & _ & W).
    rewrite place_next in * by done.
    destruct (depths_ok_next _ _ (new_node line rest) W D eq_refl) as [D' Hlen'].
    { simpl. lia. }
    pose proof (nesting_next _ _ (new_node line rest) W D N Hne eq_refl eq_refl) as N'.
    apply (IH _ _ (line_depth line) I'); cbn [fst snd all_nodes]; try done.
    + intros E. apply (f_equal length) in E. rewrite link_length, length_app in E.
      simpl in E. lia.
    + apply N'. simpl. lia.
  - apply (IH _ _ prev); try done. by eapply inv_later.
Qed.

Lemma run_nesting_init (lines : list str) :
  forall (line_num : nat) (st : TreeParser * list nat),
    inv line_num st -> all_nodes st.1 = [] ->
    well_nested lines = true ->
    let st' := run line_num lines st in nesting (all_nodes st'.1) st'.2.
Proof.
  induction lines as [|line rest IH]; intros ln st I Hnil Hw; cbn [run].
  - rewrite Hnil. apply nesting_empty. destruct I as (_ & _ & W). by rewrite <- Hnil.
  - unfold well_nested in Hw. cbn [entries] in Hw. destruct (named line) eqn:Hn.
    + simpl in Hw. apply andb_prop in Hw as [Hd Hj]. apply Nat.eqb_eq in Hd.
      pose proof (place_inv ln (new_node line rest) st I eq_refl eq_refl ln) as I'.
      rewrite place_first in * by done.
      apply (run_nesting _ _ _ 0 I'); cbn [fst snd all_nodes]; try done.
      * split.
        -- intros [|k] s Hk; simpl in Hk; [|done]. injection Hk as <-.
           eexists. split; [done|]. done.
        -- intros [|i] n p pn Hi Hp; simpl in Hi; [|done]. by injection Hi as <-.
      * by apply nesting_first.
    + apply IH; [by eapply inv_later|done|done].
Qed.

Lemma parsed_nesting (tree_text : str) :
  well_nested (split_nl (strip tree_text)) = true ->
  exists stack,
    depths_ok (all_nodes (parsed tree_text)) stack /\
    nesting (all_nodes (parsed tree_text)) stack.
Proof.
  intros Hw. exists (run 0 (split_nl (strip tree_text)) (__init__, [])).2. split.
  - exact (run_depths_init _ 0 (__init__, []) inv_init eq_refl Hw).
  - exact (run_nesting_init _ 0 (__init__, []) inv_init eq_refl Hw).
Qed.

(** X13.  On a well nested input the parent of a node is the nearest
    node before it that is less deep: the parent is less deep than the
    node, and every node between the two is at least as deep as the
    node. *)
Theorem parent_is_nearest_shallower (self : TreeParser) (tree_text : str)
    (r : option nat) (self' : TreeParser)
    (i : nat) (node : TreeNode) (p : nat) (pnode : TreeNode) :
  parse self tree_text = Ok (r, self') ->
  well_nested (split_nl (strip tree_text)) = true ->
  all_nodes self' !! i = Some node -> parent node = Some p ->
  all_nodes self' !! p = Some pnode ->
  p < i /\ depth pnode < depth node /\
  (forall m mn, p < m -> m < i -> all_nodes self' !! m = Some mn ->
                depth node <= depth mn).
Proof.
  rewrite parse_eq. intros H Hw Hi Hp Hpn. injection H as _ <-.
  destruct (parsed_nesting _ Hw) as (stack & [_ D2] & N).
  destruct (parsed_inv tree_text) as (_ & stack' & W).
  destruct (wf_parent _ _ W _ _ _ Hi Hp) as (Hlt & _).
  split; [done|]. split.
  - rewrite (D2 _ _ _ _ Hi Hp Hpn). lia.
  - intros m mn Hpm Hmi Hm. by eapply (nest_between _ _ N i node p m).
Qed.

Lemma parent_is_nearest_shallower_witness :
  parse __init__ scenario1_const = Ok (Some 0, parsed scenario1_const) /\
  well_nested (split_nl (strip scenario1_const)) = true /\
  all_nodes (parsed scenario1_const) !! 3
    = Some (mkTreeNode (py_str "README.md") false 1 [] (Some 0)) /\
  parent (mkTreeNode (py_str "README.md") false 1 [] (Some 0)) = Some 0 /\
  all_nodes (parsed scenario1_const) !! 0
    = Some (mkTreeNode (py_str "project") true 0 [1; 3] None) /\
  0 < 3 /\
  depth (mkTreeNode (py_str "project") true 0 [1; 3] None)
    < depth (mkTreeNode (py_str "README.md") false 1 [] (Some 0)) /\
  (forall m mn, 0 < m -> m < 3 -> all_nodes (parsed scenario1_const) !! m = Some mn ->
                depth (mkTreeNode (py_str "README.md") false 1 [] (Some 0)) <= depth mn).
Proof.
  assert (parse __init__ scenario1_const = Ok (Some 0, parsed scenario1_const)) as H1
    by (vm_compute; reflexivity).
  assert (well_nested (split_nl (strip scenario1_const)) = true) as H2
    by (vm_compute; reflexivity).
  assert (all_nodes (parsed scenario1_const) !! 3
          = Some (mkTreeNode (py_str "README.md") false 1 [] (Some 0))) as H3
    by (vm_compute; reflexivity).
  assert (all_nodes (parsed scenario1_const) !! 0
          = Some (mkTreeNode (py_str "project") true 0 [1; 3] None)) as H4
    by (vm_compute; reflexivity).
  split; [exact H1|]. split; [exact H2|]. split; [exact H3|].
  split; [reflexivity|]. split; [exact H4|].
  exact (parent_is_nearest_shallower _ _ _ _ _ _ _ _ H1 H2 H3 eq_refl H4).
Defined.

Lemma entries_lookup_next (pre : list str) (line : str) (rest : list str) :
  named line = true ->
  entries (pre ++ line :: rest) !! S (sum_ones named pre) = head (entries rest).
Proof.
  intros Hn. induction pre as [|a pre IH]; simpl.
  - rewrite Hn. simpl. by rewrite head_lookup.
  - by destruct (named a).
Qed.

Lemma head_entries_all_named (rest : list str) :
  all_named rest ->
  depth <$> head (entries rest) = line_depth <$> next_nonblank rest.
Proof.
  induction rest as [|look rest IH]; intros Ha; [done|]. cbn [entries next_nonblank].
  destruct (blank look) eqn:Hb.
  - unfold named. rewrite Hb. simpl. apply IH.
    intros l Hl. apply Ha. by apply list_elem_of_further.
  - rewrite (Ha look (list_elem_of_here _ _) Hb). done.
Qed.

Lemma all_named_forallb (lines : list str) :
  forallb (fun line => blank line || named line) lines = true -> all_named lines.
Proof.
  rewrite forallb_forall. intros H line Hl Hb.
  apply list_elem_of_In, H in Hl. by rewrite Hb in Hl.
Qed.

(** X14.  On a well nested input in which every non-blank line yields a
    name, a node with children is a directory: no file gets a child. *)
Theorem parent_is_directory (self : TreeParser) (tree_text : str)
    (r : option nat) (self' : TreeParser) (p : nat) (pn : TreeNode) :
  parse self tree_text = Ok (r, self') ->
  well_nested (split_nl (strip tree_text)) = true ->
  all_named (split_nl (strip tree_text)) ->
  all_nodes self' !! p = Some pn -> children pn <> [] ->
  is_directory pn = true.
Proof.
  rewrite parse_eq. intros H Hw Hall Hp Hch. injection H as _ <-.
  destruct (parsed_nesting _ Hw) as (stack & _ & N).
  destruct (nest_first_child _ _ N _ _ Hp Hch) as (n1 & Hn1 & Hlt).
  destruct (parsed_lookup _ _ _ Hp) as (e & He & Hinfo).
  destruct (entries_lookup_inv _ _ _ He) as (pre & line & rest & Hl & Hpre & Hn & ->).
  destruct (parsed_lookup _ _ _ Hn1) as (e1 & He1 & Hinfo1).
  rewrite Hl, <- Hpre, entries_lookup_next in He1 by done.
  assert (all_named rest) as Hrest.
  { intros l Hin. apply Hall. rewrite Hl. apply elem_of_app. right.
    by apply list_elem_of_further. }
  pose proof (head_entries_all_named _ Hrest) as Hhead. rewrite He1 in Hhead.
  unfold info in Hinfo, Hinfo1. simpl in Hinfo, Hhead.
  injection Hinfo as _ Hdir Hdep. injection Hinfo1 as _ _ Hdep1.
  rewrite Hdir. unfold node_is_directory.
  destruct (endswith (line_name line) [SLASH]); [done|].
  destruct (next_nonblank rest) as [look|]; [|done]. simpl in Hhead.
  injection Hhead as Hlook. apply Nat.ltb_lt. lia.
Qed.

Lemma parent_is_directory_witness :
  parse __init__ scenario1_const = Ok (Some 0, parsed scenario1_const) /\
  well_nested (split_nl (strip scenario1_const)) = true /\
  all_named (split_nl (strip scenario1_const)) /\
  all_nodes (parsed scenario1_const) !! 1
    = Some (mkTreeNode (py_str "src") true 1 [2] (Some 0)) /\
  children (mkTreeNode (py_str "src") true 1 [2] (Some 0)) <> [] /\
  is_directory (mkTreeNode (py_str "src") true 1 [2] (Some 0)) = true.
Proof.
  assert (parse __init__ scenario1_const = Ok (Some 0, parsed scenario1_const)) as H1
    by (vm_compute; reflexivity).
  assert (well_nested (split_nl (strip scenario1_const)) = true) as H2
    by (vm_compute; reflexivity).
  assert (all_named (split_nl (strip scenario1_const))) as H3
    by (apply all_named_forallb; vm_compute; reflexivity).
  assert (all_nodes (parsed scenario1_const) !! 1
          = Some (mkTreeNode (py_str "src") true 1 [2] (Some 0))) as H4
    by (vm_compute; reflexivity).
  assert (children (mkTreeNode (py_str "src") true 1 [2] (Some 0)) <> []) as H5
    by discriminate.
  split; [exact H1|]. split; [exact H2|]. split; [exact H3|].
  split; [exact H4|]. split; [exact H5|].
  exact (parent_is_directory _ _ _ _ _ _ H1 H2 H3 H4 H5).
Defined.

(** ** Spaces before a marker *)

Lemma scan_spaces (marker name : str) :
  marker = TREE_BRANCH \/ marker = TREE_LAST ->
  forall (fuel k consumed : nat),
    k <= fuel ->
    scan TREE_BRANCH TREE_LAST TREE_VERTICAL TREE_SPACE
         (replicate k SPACE ++ marker ++ name) consumed
         (consumed + k / 4 + 1, strip name).
Proof.
  intros Hm. induction fuel as [|fuel IH]; intros k consumed Hk.
  - assert (k = 0) as -> by lia.
    exact (scan_rendered [] marker name (List.Forall_nil _) Hm consumed).
  - destruct k as [|[|[|[|k]]]].
    + exact (scan_rendered [] marker name (List.Forall_nil _) Hm consumed).
    + apply scan_space; [by destruct Hm as [-> | ->]..|].
      apply (IH 0 consumed). lia.
    + apply scan_space; [by destruct Hm as [-> | ->]..|].
      apply scan_space; [by destruct Hm as [-> | ->]..|].
      apply (IH 0 consumed). lia.
    + apply scan_space; [by destruct Hm as [-> | ->]..|].
      apply scan_space; [by destruct Hm as [-> | ->]..|].
      apply scan_space; [by destruct Hm as [-> | ->]..|].
      apply (IH 0 consumed). lia.
    + change (replicate (S (S (S (S k)))) SPACE ++ marker ++ name)
        with (TREE_SPACE ++ replicate k SPACE ++ marker ++ name).
      apply (scan_continuation _ _ _ _ _ _ TREE_SPACE); [done|reflexivity| |].
      { unfold continuation_at. rewrite startswith_self_app.
        replace (startswith (TREE_SPACE ++ replicate k SPACE ++ marker ++ name)
                            TREE_VERTICAL) with false by reflexivity.
        done. }
      rewrite drop_app_length.
      replace (consumed + S (S (S (S k))) / 4 + 1) with (consumed + 1 + k / 4 + 1).
      * apply IH. lia.
      * replace (S (S (S (S k)))) with (k + 1 * 4) by lia.
        rewrite Nat.div_add by lia. lia.
Qed.

(** X15.  A marker after [k] plain spaces ([k] may be any number, not
    only a multiple of 4): every four spaces count as one level and the
    spaces that are left over are skipped, so the depth is [k / 4 + 1]
    and the name is the trimmed text after the marker. *)
Theorem parse_line_after_spaces (k : nat) (marker name : str) :
  marker = TREE_BRANCH \/ marker = TREE_LAST ->
  _parse_line (replicate k SPACE ++ marker ++ name) = Ok (k / 4 + 1, strip name).
Proof.
  intros Hm. apply _parse_line_by_scan. exact (scan_spaces marker name Hm k k 0 (le_n k)).
Qed.

Lemma parse_line_after_spaces_witness :
  (TREE_BRANCH = TREE_BRANCH \/ TREE_BRANCH = TREE_LAST) /\
  _parse_line (replicate 6 SPACE ++ TREE_BRANCH ++ py_str "a.txt")
    = Ok (6 / 4 + 1, strip (py_str "a.txt")).
Proof.
  assert (TREE_BRANCH = TREE_BRANCH \/ TREE_BRANCH = TREE_LAST) as H by (by left).
  split; [exact H|]. exact (parse_line_after_spaces 6 _ _ H).
Defined.

(** ** What is left out of the paths *)

Lemma run_after_orphans (lines : list str) :
  forall (line_num : nat) (st : TreeParser * list nat),
    inv line_num st -> after_orphans (all_nodes st.1) st.2 ->
    after_orphans (all_nodes (run line_num lines st).1) (run line_num lines st).2.
Proof.
  induction lines as [|line rest IH]; intros ln st I A; cbn [run]; [done|].
  destruct (named line); [|apply IH; [by eapply inv_later|done]].
  apply IH; [by apply place_inv|].
  pose proof I as (_ & _ & W). destruct A as [A1 A2].
  destruct (all_nodes st.1) as [|x xs] eqn:E.
  { rewrite place_first by done. cbn [fst snd all_nodes]. split.
    - intros s o on Hs Ho _. apply lookup_lt_Some in Ho.
      apply list_elem_of_singleton in Hs. simpl in Ho. lia.
    - intros [|i] node p o on Hi Hp; simpl in Hi; [|done]. by injection Hi as <-. }
  rewrite place_next by (by rewrite ?E). cbn [fst snd all_nodes]. rewrite <- E in *.
  set (n := new_node line rest). set (nodes := all_nodes st.1) in *.
  set (par := last (take (depth n) st.2)).
  assert (Htake : forall s, s ∈ take (depth n) st.2 -> s ∈ st.2).
  { intros s Hs. apply elem_of_take in Hs as (k & Hk & _).
    by eapply list_elem_of_lookup_2. }
  assert (Hq : forall q, par = Some q -> q ∈ st.2 /\ q < length nodes).
  { intros q Hq. apply last_Some in Hq as [l' Hl'].
    assert (q ∈ take (depth n) st.2) as Hin
      by (rewrite Hl'; apply elem_of_app; right; apply list_elem_of_here).
    apply Htake in Hin. split; [done|]. by apply (wf_stack_bound _ _ W). }
  assert (Hq' : forall q, par = Some q -> q < length nodes) by (intros q H; by apply Hq).
  assert (Hnew : link (length nodes) par (nodes ++ [n]) !! length nodes
                 = Some (match par with Some q => set_parent q n | None => n end)).
  { rewrite link_lookup_gen by done. by rewrite decide_True. }
  assert (Hbound : forall o on, link (length nodes) par (nodes ++ [n]) !! o = Some on ->
                     o <= length nodes).
  { intros o on Ho. apply lookup_lt_Some in Ho. rewrite link_length, length_app in Ho.
    simpl in Ho. lia. }
  split.
  - intros s o on Hs Ho Hpo. apply elem_of_app in Hs as [Hs|Hs].
    2:{ apply list_elem_of_singleton in Hs. subst s. by eapply Hbound. }
    destruct (decide (o = length nodes)) as [->|Hne].
    + rewrite Hnew in Ho. injection Ho as <-.
      destruct par as [q|] eqn:Epar; [done|].
      unfold par in Epar. apply last_None in Epar. rewrite Epar in Hs.
      by apply elem_of_nil in Hs.
    + destruct (link_old_inv _ _ _ _ _ Hq' Ho Hne) as (x0 & Hx0 & _ & Hpx & _).
      rewrite Hpx in Hpo. apply (A1 s o x0); [by apply Htake|done..].
  - intros i node p o on Hi Hp Ho Hpo Hoi.
    destruct (decide (i = length nodes)) as [->|Hine].
    + rewrite Hnew in Hi. injection Hi as <-.
      destruct par as [q|] eqn:Epar; simpl in Hp; [|done]. injection Hp as <-.
      destruct (decide (o = length nodes)) as [->|Hone].
      * rewrite Hnew in Ho. injection Ho as <-. done.
      * destruct (link_old_inv _ _ _ _ _ Hq' Ho Hone) as (x0 & Hx0 & _ & Hpx & _).
        rewrite Hpx in Hpo. destruct (Hq q eq_refl) as [Hqs _].
        by apply (A1 q o x0).
    + destruct (link_old_inv _ _ _ _ _ Hq' Hi Hine) as (y & Hy & _ & Hpy & _).
      rewrite Hpy in Hp. pose proof (lookup_lt_Some _ _ _ Hy) as Hil.
      assert (o <> length nodes) as Hone by (fold nodes in Hil; lia).
      destruct (link_old_inv _ _ _ _ _ Hq' Ho Hone) as (x0 & Hx0 & _ & Hpx & _).
      rewrite Hpx in Hpo. by apply (A2 i y p o x0).
Qed.

Lemma parsed_after_orphans (tree_text : str) :
  exists stack,
    wf (all_nodes (parsed tree_text)) stack /\
    after_orphans (all_nodes (parsed tree_text)) stack.
Proof.
  exists (run 0 (split_nl (strip tree_text)) (__init__, [])).2. split.
  - by destruct (run_inv (split_nl (strip tree_text)) 0 _ inv_init) as (_ & _ & W).
  - apply (run_after_orphans _ 0 (__init__, []) inv_init). split.
    + intros s o on Hs. by apply elem_of_nil in Hs.
    + intros i node p o on Hi. done.
Qed.

Lemma parsed_visited_iff (tree_text : str) (j : nat) :
  j < length (all_nodes (parsed tree_text)) ->
  (j ∈ visited (parsed tree_text) <->
   forall o on, 0 < o -> o <= j -> all_nodes (parsed tree_text) !! o = Some on ->
                depth on <> 0).
Proof.
  intros Hjl.
  destruct (parsed_after_orphans tree_text) as (stack & W & A1 & A2).
  destruct (parsed_inv tree_text) as (Hroot & _).
  set (nodes := all_nodes (parsed tree_text)) in *.
  assert (root (parsed tree_text) = Some 0) as Hr.
  { rewrite Hroot. fold nodes. destruct nodes; [simpl in Hjl; lia|done]. }
  assert (Hvis : forall k, k ∈ visited (parsed tree_text) <-> reachable nodes 0 k).
  { intros k. unfold visited. rewrite Hr. fold nodes. split.
    - apply preorder_reachable.
    - intros Hk. eapply reachable_preorder; [done|lia|lia|done]. }
  assert (Horph : forall o on, 0 < o -> nodes !! o = Some on ->
                    (parent on = None <-> depth on = 0)).
  { intros o on Ho Hon. rewrite (wf_orphan _ _ W o on Hon). split; [|by right].
    intros [|]; [lia|done]. }
  rewrite Hvis. split.
  - intros Hreach. clear Hjl.
    induction Hreach as [|k c nk _ IH Hk Hc]; intros o on Ho Hoj Hon Hd; [lia|].
    destruct (wf_children _ _ W _ _ _ Hk Hc) as (Hkc & cn & Hcn & Hpar).
    apply (Horph o on Ho Hon) in Hd.
    destruct (decide (o = c)) as [->|Hne]; [congruence|].
    pose proof (A2 c cn k o on Hcn Hpar Hon Hd Hoj).
    apply (IH o on Ho); [done|done|]. by apply (Horph o on Ho Hon).
  - revert Hjl. induction (lt_wf j) as [j _ IH]. intros Hjl Hno.
    destruct (decide (j = 0)) as [->|Hj0]; [constructor|].
    destruct (lookup_lt_is_Some_2 nodes j Hjl) as [node Hj].
    destruct (parent node) as [p|] eqn:Hp.
    + destruct (wf_parent _ _ W _ _ _ Hj Hp) as (Hpj & pn & Hpn & Hin).
      apply (reachable_child _ _ p j pn); [|done..].
      apply IH; [done|by eapply lookup_lt_Some|].
      intros o on Ho Hop. apply Hno; [done|lia].
    + exfalso. apply (Hno j node); [lia|done|done|]. apply (Horph j node); [lia|done..].
Qed.



(** ** Paths and summary *)

Lemma parsed_visited_sorted (tree_text : str) :
  StronglySorted lt (visited (parsed tree_text)).
Proof.
  destruct (parsed_order_ok tree_text) as (stack & W & _ & K2 & _).
  unfold visited. destruct (root (parsed tree_text)); [|constructor].
  by eapply preorder_sorted.
Qed.

Lemma StronglySorted_lt_NoDup (l : list nat) : StronglySorted lt l -> NoDup l.
Proof.
  induction 1 as [|a l Hl IH Ha]; constructor; [|done].
  intros Hin. rewrite Forall_forall in Ha. apply Ha in Hin. lia.
Qed.

Lemma parsed_visited_bound (tree_text : str) (j : nat) :
  j ∈ visited (parsed tree_text) -> j < length (all_nodes (parsed tree_text)).
Proof.
  destruct (parsed_inv tree_text) as (Hroot & stack & W).
  unfold visited. rewrite Hroot.
  destruct (all_nodes (parsed tree_text)) as [|x xs] eqn:E; simpl truthy; cbv iota.
  - intros H. by apply elem_of_nil in H.
  - intros H. apply preorder_reachable in H.
    apply (reachable_bound _ _ _ _ W) in H; [done|simpl; lia].
Qed.

Lemma parsed_paths_length (tree_text : str) (base_path : str) (frames : nat)
    (paths : list (str * bool)) :
  get_all_paths frames (parsed tree_text) base_path = Ok paths ->
  length paths = length (visited (parsed tree_text)).
Proof.
  intros H. apply parsed_paths_visited in H. symmetry. by eapply Forall2_length.
Qed.

(** X17.  A list that [get_all_paths] returns never has more entries
    than [get_summary] counts, and it has as many exactly when no named
    line after the first one has depth 0: the summary counts the nodes
    that the paths leave out. *)
Theorem paths_against_summary (self : TreeParser) (tree_text : str)
    (r : option nat) (self' : TreeParser) (base_path : str) (frames : nat)
    (paths : list (str * bool)) :
  parse self tree_text = Ok (r, self') ->
  get_all_paths frames self' base_path = Ok paths ->
  length paths <= total (get_summary self') /\
  (length paths = total (get_summary self') <->
   forall o on, 0 < o -> all_nodes self' !! o = Some on -> depth on <> 0).
Proof.
  rewrite parse_eq. intros H Hpaths. injection H as _ <-.
  rewrite (parsed_paths_length _ _ _ _ Hpaths), get_summary_eq. cbn [total].
  set (nodes := all_nodes (parsed tree_text)).
  pose proof (StronglySorted_lt_NoDup _ (parsed_visited_sorted tree_text)) as Hnd.
  assert (visited (parsed tree_text) ⊆+ seq 0 (length nodes)) as Hsub.
  { apply NoDup_submseteq; [done|]. intros x Hx. apply elem_of_seq.
    apply parsed_visited_bound in Hx. fold nodes in Hx. lia. }
  pose proof (submseteq_length _ _ Hsub) as Hle. rewrite length_seq in Hle.
  split; [done|]. split.
  - intros Heq o on Ho Hon.
    assert (visited (parsed tree_text) ≡ₚ seq 0 (length nodes)) as Hperm.
    { apply submseteq_length_Permutation; [done|]. rewrite length_seq. lia. }
    pose proof (lookup_lt_Some _ _ _ Hon) as Hol.
    assert (o ∈ visited (parsed tree_text)) as Hov.
    { rewrite Hperm. apply elem_of_seq. lia. }
    pose proof (proj1 (parsed_visited_iff tree_text o Hol) Hov) as Hd.
    by apply (Hd o on).
  - intros Hno.
    assert (seq 0 (length nodes) ⊆+ visited (parsed tree_text)) as Hsup.
    { apply NoDup_submseteq; [apply NoDup_seq|]. intros x Hx.
      apply elem_of_seq in Hx. apply parsed_visited_iff; [fold nodes; lia|].
      intros o on Ho _ Hon. by apply (Hno o on). }
    apply submseteq_length in Hsup. rewrite length_seq in Hsup. lia.
Qed.

Lemma paths_against_summary_witness :
  parse __init__ two_roots = Ok (Some 0, parsed two_roots) /\
  get_all_paths 1 (parsed two_roots) [] = Ok [(py_str "a", false)] /\
  length [(py_str "a", false)] <= total (get_summary (parsed two_roots)) /\
  (length [(py_str "a", false)] = total (get_summary (parsed two_roots)) <->
   forall o on, 0 < o -> all_nodes (parsed two_roots) !! o = Some on -> depth on <> 0).
Proof.
  assert (parse __init__ two_roots = Ok (Some 0, parsed two_roots)) as H1
    by (vm_compute; reflexivity).
  assert (get_all_paths 1 (parsed two_roots) [] = Ok [(py_str "a", false)]) as H2
    by (vm_compute; reflexivity).
  split; [exact H1|]. split; [exact H2|].
  exact (paths_against_summary _ _ _ _ _ _ _ H1 H2).
Defined.

(** ** Tabs before a marker *)

Lemma scan_tabs (marker name : str) :
  marker = TREE_BRANCH \/ marker = TREE_LAST ->
  forall (k consumed : nat),
    scan TREE_BRANCH TREE_LAST TREE_VERTICAL TREE_SPACE
         (replicate k TAB ++ marker ++ name) consumed
         (consumed + k + 1, strip name).
Proof.
  intros Hm. induction k as [|k IH]; intros consumed.
  - exact (scan_rendered [] marker name (List.Forall_nil _) Hm consumed).
  - cbn [replicate app]. apply scan_tab; [reflexivity..|].
    replace (consumed + S k + 1) with (consumed + 1 + k + 1) by lia. apply IH.
Qed.

(** X18.  A marker after [k] tabs: every tab counts as one level, so
    the depth is [k + 1] and the name is the trimmed text after the
    marker. *)
Theorem parse_line_after_tabs (k : nat) (marker name : str) :
  marker = TREE_BRANCH \/ marker = TREE_LAST ->
  _parse_line (replicate k TAB ++ marker ++ name) = Ok (k + 1, strip name).
Proof.
  intros Hm. apply _parse_line_by_scan. exact (scan_tabs marker name Hm k 0).
Qed.

Lemma parse_line_after_tabs_witness :
  (TREE_LAST = TREE_BRANCH \/ TREE_LAST = TREE_LAST) /\
  _parse_line (replicate 2 TAB ++ TREE_LAST ++ py_str "a.txt")
    = Ok (2 + 1, strip (py_str "a.txt")).
Proof.
  assert (TREE_LAST = TREE_BRANCH \/ TREE_LAST = TREE_LAST) as H by (by right).
  split; [exact H|]. exact (parse_line_after_tabs 2 _ _ H).
Defined.
